(** * Octopus bill analyser: field extraction, fingerprinting and duplicate
      detection of [bill_analyzer.py], embedded and verified.

    Python [str] values are sequences of Unicode code points.  Letter case,
    decimal digits and white space are those of the interpreter's character
    database. *)

From Stdlib Require Import Ascii String List NArith Bool Arith Lia.
Import ListNotations.
Local Open Scope N_scope.

Set Implicit Arguments.

(** ** Text *)

Definition char := N.
Definition text := list char.

(** Rocq string literals are UTF-8 byte strings: [str] decodes one into the
    code points a Python literal with the same spelling denotes. *)
Fixpoint utf8_decode (bs : list N) : text :=
  match bs with
  | [] => []
  | b :: rest =>
    if b <? 128 then b :: utf8_decode rest
    else if b <? 224 then
      match rest with
      | b1 :: r1 => ((b mod 32) * 64 + b1 mod 64) :: utf8_decode r1
      | _ => [b]
      end
    else if b <? 240 then
      match rest with
      | b1 :: b2 :: r2 =>
          ((b mod 16) * 4096 + (b1 mod 64) * 64 + b2 mod 64) :: utf8_decode r2
      | _ => [b]
      end
    else
      match rest with
      | b1 :: b2 :: b3 :: r3 =>
          ((b mod 8) * 262144 + (b1 mod 64) * 4096 + (b2 mod 64) * 64 + b3 mod 64)
            :: utf8_decode r3
      | _ => [b]
      end
  end.

Definition str (s : string) : text :=
  utf8_decode (map N_of_ascii (list_ascii_of_string s)).

(** [str.encode()]: UTF-8; lone surrogates raise [UnicodeEncodeError]. *)
Definition encode_char (c : char) : option (list N) :=
  if c <? 128 then Some [c]
  else if c <? 2048 then Some [192 + c / 64; 128 + c mod 64]
  else if c <? 65536 then
    if (55296 <=? c) && (c <=? 57343) then None
    else Some [224 + c / 4096; 128 + (c / 64) mod 64; 128 + c mod 64]
  else if c <? 1114112 then
    Some [240 + c / 262144; 128 + (c / 4096) mod 64; 128 + (c / 64) mod 64; 128 + c mod 64]
  else None.

Fixpoint encode (t : text) : option (list N) :=
  match t with
  | [] => Some []
  | c :: t' =>
    match encode_char c, encode t' with
    | Some bs, Some bs' => Some (bs ++ bs')
    | _, _ => None
    end
  end.

(** Characters for which [str.isspace] holds, the class of [\s] and of
    [str.strip]. *)
Definition is_space (c : char) : bool :=
  ((9 <=? c) && (c <=? 13)) || ((28 <=? c) && (c <=? 32))
  || (c =? 133) || (c =? 160) || (c =? 5760)
  || ((8192 <=? c) && (c <=? 8202))
  || (c =? 8232) || (c =? 8233) || (c =? 8239) || (c =? 8287) || (c =? 12288).

(** The digits and the letters of the Basic Latin block. *)
Definition is_digit (c : char) : bool := (48 <=? c) && (c <=? 57).

Definition is_upper (c : char) : bool := (65 <=? c) && (c <=? 90).
Definition is_lower (c : char) : bool := (97 <=? c) && (c <=? 122).

(** ** The Unicode character database

    [str.lower], [re.IGNORECASE] and [\d] read the character database of
    the interpreter.  The tables are those of version 14.0.0 of the
    database, the one of CPython 3.11. *)
Module Unicode.

Definition in_ranges (ranges : list (N * N)) (c : char) : bool :=
  existsb (fun r => (fst r <=? c) && (c <=? snd r)) ranges.

(** The decimal digits (general category Nd): the class of [\d]. *)
Definition decimal_ranges : list (N * N) :=
  [
   (0x30, 0x39); (0x660, 0x669); (0x6F0, 0x6F9); (0x7C0, 0x7C9);
   (0x966, 0x96F); (0x9E6, 0x9EF); (0xA66, 0xA6F); (0xAE6, 0xAEF);
   (0xB66, 0xB6F); (0xBE6, 0xBEF); (0xC66, 0xC6F); (0xCE6, 0xCEF);
   (0xD66, 0xD6F); (0xDE6, 0xDEF); (0xE50, 0xE59); (0xED0, 0xED9);
   (0xF20, 0xF29); (0x1040, 0x1049); (0x1090, 0x1099); (0x17E0, 0x17E9);
   (0x1810, 0x1819); (0x1946, 0x194F); (0x19D0, 0x19D9); (0x1A80, 0x1A89);
   (0x1A90, 0x1A99); (0x1B50, 0x1B59); (0x1BB0, 0x1BB9); (0x1C40, 0x1C49);
   (0x1C50, 0x1C59); (0xA620, 0xA629); (0xA8D0, 0xA8D9); (0xA900, 0xA909);
   (0xA9D0, 0xA9D9); (0xA9F0, 0xA9F9); (0xAA50, 0xAA59); (0xABF0, 0xABF9);
   (0xFF10, 0xFF19); (0x104A0, 0x104A9); (0x10D30, 0x10D39);
   (0x11066, 0x1106F); (0x110F0, 0x110F9); (0x11136, 0x1113F);
   (0x111D0, 0x111D9); (0x112F0, 0x112F9); (0x11450, 0x11459);
   (0x114D0, 0x114D9); (0x11650, 0x11659); (0x116C0, 0x116C9);
   (0x11730, 0x11739); (0x118E0, 0x118E9); (0x11950, 0x11959);
   (0x11C50, 0x11C59); (0x11D50, 0x11D59); (0x11DA0, 0x11DA9);
   (0x16A60, 0x16A69); (0x16AC0, 0x16AC9); (0x16B50, 0x16B59);
   (0x1D7CE, 0x1D7FF); (0x1E140, 0x1E149); (0x1E2F0, 0x1E2F9);
   (0x1E950, 0x1E959); (0x1FBF0, 0x1FBF9) ].

Definition is_decimal (c : char) : bool := in_ranges decimal_ranges c.

(** The simple lower-case mappings.  A run [(first, last, step, image)]
    maps [first], [first + step], ... up to [last] to [image],
    [image + step], ... *)
Definition lowercase_runs : list (N * N * N * N) :=
  [
   (0x41, 0x5A, 1, 0x61); (0xC0, 0xD6, 1, 0xE0); (0xD8, 0xDE, 1, 0xF8);
   (0x100, 0x12E, 2, 0x101); (0x130, 0x130, 1, 0x69);
   (0x132, 0x136, 2, 0x133); (0x139, 0x147, 2, 0x13A);
   (0x14A, 0x176, 2, 0x14B); (0x178, 0x178, 1, 0xFF);
   (0x179, 0x17D, 2, 0x17A); (0x181, 0x181, 1, 0x253);
   (0x182, 0x184, 2, 0x183); (0x186, 0x186, 1, 0x254);
   (0x187, 0x187, 1, 0x188); (0x189, 0x18A, 1, 0x256);
   (0x18B, 0x18B, 1, 0x18C); (0x18E, 0x18E, 1, 0x1DD);
   (0x18F, 0x18F, 1, 0x259); (0x190, 0x190, 1, 0x25B);
   (0x191, 0x191, 1, 0x192); (0x193, 0x193, 1, 0x260);
   (0x194, 0x194, 1, 0x263); (0x196, 0x196, 1, 0x269);
   (0x197, 0x197, 1, 0x268); (0x198, 0x198, 1, 0x199);
   (0x19C, 0x19C, 1, 0x26F); (0x19D, 0x19D, 1, 0x272);
   (0x19F, 0x19F, 1, 0x275); (0x1A0, 0x1A4, 2, 0x1A1);
   (0x1A6, 0x1A6, 1, 0x280); (0x1A7, 0x1A7, 1, 0x1A8);
   (0x1A9, 0x1A9, 1, 0x283); (0x1AC, 0x1AC, 1, 0x1AD);
   (0x1AE, 0x1AE, 1, 0x288); (0x1AF, 0x1AF, 1, 0x1B0);
   (0x1B1, 0x1B2, 1, 0x28A); (0x1B3, 0x1B5, 2, 0x1B4);
   (0x1B7, 0x1B7, 1, 0x292); (0x1B8, 0x1B8, 1, 0x1B9);
   (0x1BC, 0x1BC, 1, 0x1BD); (0x1C4, 0x1C4, 1, 0x1C6);
   (0x1C5, 0x1C5, 1, 0x1C6); (0x1C7, 0x1C7, 1, 0x1C9);
   (0x1C8, 0x1C8, 1, 0x1C9); (0x1CA, 0x1CA, 1, 0x1CC);
   (0x1CB, 0x1DB, 2, 0x1CC); (0x1DE, 0x1EE, 2, 0x1DF);
   (0x1F1, 0x1F1, 1, 0x1F3); (0x1F2, 0x1F4, 2, 0x1F3);
   (0x1F6, 0x1F6, 1, 0x195); (0x1F7, 0x1F7, 1, 0x1BF);
   (0x1F8, 0x21E, 2, 0x1F9); (0x220, 0x220, 1, 0x19E);
   (0x222, 0x232, 2, 0x223); (0x23A, 0x23A, 1, 0x2C65);
   (0x23B, 0x23B, 1, 0x23C); (0x23D, 0x23D, 1, 0x19A);
   (0x23E, 0x23E, 1, 0x2C66); (0x241, 0x241, 1, 0x242);
   (0x243, 0x243, 1, 0x180); (0x244, 0x244, 1, 0x289);
   (0x245, 0x245, 1, 0x28C); (0x246, 0x24E, 2, 0x247);
   (0x370, 0x372, 2, 0x371); (0x376, 0x376, 1, 0x377);
   (0x37F, 0x37F, 1, 0x3F3); (0x386, 0x386, 1, 0x3AC);
   (0x388, 0x38A, 1, 0x3AD); (0x38C, 0x38C, 1, 0x3CC);
   (0x38E, 0x38F, 1, 0x3CD); (0x391, 0x3A1, 1, 0x3B1);
   (0x3A3, 0x3AB, 1, 0x3C3); (0x3CF, 0x3CF, 1, 0x3D7);
   (0x3D8, 0x3EE, 2, 0x3D9); (0x3F4, 0x3F4, 1, 0x3B8);
   (0x3F7, 0x3F7, 1, 0x3F8); (0x3F9, 0x3F9, 1, 0x3F2);
   (0x3FA, 0x3FA, 1, 0x3FB); (0x3FD, 0x3FF, 1, 0x37B);
   (0x400, 0x40F, 1, 0x450); (0x410, 0x42F, 1, 0x430);
   (0x460, 0x480, 2, 0x461); (0x48A, 0x4BE, 2, 0x48B);
   (0x4C0, 0x4C0, 1, 0x4CF); (0x4C1, 0x4CD, 2, 0x4C2);
   (0x4D0, 0x52E, 2, 0x4D1); (0x531, 0x556, 1, 0x561);
   (0x10A0, 0x10C5, 1, 0x2D00); (0x10C7, 0x10C7, 1, 0x2D27);
   (0x10CD, 0x10CD, 1, 0x2D2D); (0x13A0, 0x13EF, 1, 0xAB70);
   (0x13F0, 0x13F5, 1, 0x13F8); (0x1C90, 0x1CBA, 1, 0x10D0);
   (0x1CBD, 0x1CBF, 1, 0x10FD); (0x1E00, 0x1E94, 2, 0x1E01);
   (0x1E9E, 0x1E9E, 1, 0xDF); (0x1EA0, 0x1EFE, 2, 0x1EA1);
   (0x1F08, 0x1F0F, 1, 0x1F00); (0x1F18, 0x1F1D, 1, 0x1F10);
   (0x1F28, 0x1F2F, 1, 0x1F20); (0x1F38, 0x1F3F, 1, 0x1F30);
   (0x1F48, 0x1F4D, 1, 0x1F40); (0x1F59, 0x1F5F, 2, 0x1F51);
   (0x1F68, 0x1F6F, 1, 0x1F60); (0x1F88, 0x1F8F, 1, 0x1F80);
   (0x1F98, 0x1F9F, 1, 0x1F90); (0x1FA8, 0x1FAF, 1, 0x1FA0);
   (0x1FB8, 0x1FB9, 1, 0x1FB0); (0x1FBA, 0x1FBB, 1, 0x1F70);
   (0x1FBC, 0x1FBC, 1, 0x1FB3); (0x1FC8, 0x1FCB, 1, 0x1F72);
   (0x1FCC, 0x1FCC, 1, 0x1FC3); (0x1FD8, 0x1FD9, 1, 0x1FD0);
   (0x1FDA, 0x1FDB, 1, 0x1F76); (0x1FE8, 0x1FE9, 1, 0x1FE0);
   (0x1FEA, 0x1FEB, 1, 0x1F7A); (0x1FEC, 0x1FEC, 1, 0x1FE5);
   (0x1FF8, 0x1FF9, 1, 0x1F78); (0x1FFA, 0x1FFB, 1, 0x1F7C);
   (0x1FFC, 0x1FFC, 1, 0x1FF3); (0x2126, 0x2126, 1, 0x3C9);
   (0x212A, 0x212A, 1, 0x6B); (0x212B, 0x212B, 1, 0xE5);
   (0x2132, 0x2132, 1, 0x214E); (0x2160, 0x216F, 1, 0x2170);
   (0x2183, 0x2183, 1, 0x2184); (0x24B6, 0x24CF, 1, 0x24D0);
   (0x2C00, 0x2C2F, 1, 0x2C30); (0x2C60, 0x2C60, 1, 0x2C61);
   (0x2C62, 0x2C62, 1, 0x26B); (0x2C63, 0x2C63, 1, 0x1D7D);
   (0x2C64, 0x2C64, 1, 0x27D); (0x2C67, 0x2C6B, 2, 0x2C68);
   (0x2C6D, 0x2C6D, 1, 0x251); (0x2C6E, 0x2C6E, 1, 0x271);
   (0x2C6F, 0x2C6F, 1, 0x250); (0x2C70, 0x2C70, 1, 0x252);
   (0x2C72, 0x2C72, 1, 0x2C73); (0x2C75, 0x2C75, 1, 0x2C76);
   (0x2C7E, 0x2C7F, 1, 0x23F); (0x2C80, 0x2CE2, 2, 0x2C81);
   (0x2CEB, 0x2CED, 2, 0x2CEC); (0x2CF2, 0x2CF2, 1, 0x2CF3);
   (0xA640, 0xA66C, 2, 0xA641); (0xA680, 0xA69A, 2, 0xA681);
   (0xA722, 0xA72E, 2, 0xA723); (0xA732, 0xA76E, 2, 0xA733);
   (0xA779, 0xA77B, 2, 0xA77A); (0xA77D, 0xA77D, 1, 0x1D79);
   (0xA77E, 0xA786, 2, 0xA77F); (0xA78B, 0xA78B, 1, 0xA78C);
   (0xA78D, 0xA78D, 1, 0x265); (0xA790, 0xA792, 2, 0xA791);
   (0xA796, 0xA7A8, 2, 0xA797); (0xA7AA, 0xA7AA, 1, 0x266);
   (0xA7AB, 0xA7AB, 1, 0x25C); (0xA7AC, 0xA7AC, 1, 0x261);
   (0xA7AD, 0xA7AD, 1, 0x26C); (0xA7AE, 0xA7AE, 1, 0x26A);
   (0xA7B0, 0xA7B0, 1, 0x29E); (0xA7B1, 0xA7B1, 1, 0x287);
   (0xA7B2, 0xA7B2, 1, 0x29D); (0xA7B3, 0xA7B3, 1, 0xAB53);
   (0xA7B4, 0xA7C2, 2, 0xA7B5); (0xA7C4, 0xA7C4, 1, 0xA794);
   (0xA7C5, 0xA7C5, 1, 0x282); (0xA7C6, 0xA7C6, 1, 0x1D8E);
   (0xA7C7, 0xA7C9, 2, 0xA7C8); (0xA7D0, 0xA7D0, 1, 0xA7D1);
   (0xA7D6, 0xA7D8, 2, 0xA7D7); (0xA7F5, 0xA7F5, 1, 0xA7F6);
   (0xFF21, 0xFF3A, 1, 0xFF41); (0x10400, 0x10427, 1, 0x10428);
   (0x104B0, 0x104D3, 1, 0x104D8); (0x10570, 0x1057A, 1, 0x10597);
   (0x1057C, 0x1058A, 1, 0x105A3); (0x1058C, 0x10592, 1, 0x105B3);
   (0x10594, 0x10595, 1, 0x105BB); (0x10C80, 0x10CB2, 1, 0x10CC0);
   (0x118A0, 0x118BF, 1, 0x118C0); (0x16E40, 0x16E5F, 1, 0x16E60);
   (0x1E900, 0x1E921, 1, 0x1E922) ].

Definition in_run (c : char) (run : N * N * N * N) : bool :=
  let '(first, last, step, _) := run in
  (first <=? c) && (c <=? last) && ((c - first) mod step =? 0).

(** The mappings of a run, and of all the runs, one by one. *)
Definition run_pairs (run : N * N * N * N) : list (char * char) :=
  let '(first, last, step, image) := run in
  map (fun k => (first + N.of_nat k * step, image + N.of_nat k * step))
      (seq 0 (S (N.to_nat ((last - first) / step)))).

Definition lowercase_pairs : list (char * char) := flat_map run_pairs lowercase_runs.

(** [_sre.unicode_tolower], the lower-case form of one character as one
    character. *)
Definition tolower (c : char) : char :=
  match find (in_run c) lowercase_runs with
  | Some (first, _, _, image) => image + (c - first)
  | None => c
  end.

(** The characters with the property Cased and those with the property
    Case_Ignorable, which decide the form of a lower-case sigma. *)
Definition cased_ranges : list (N * N) :=
  [
   (0x41, 0x5A); (0x61, 0x7A); (0xAA, 0xAA); (0xB5, 0xB5); (0xBA, 0xBA);
   (0xC0, 0xD6); (0xD8, 0xF6); (0xF8, 0x1BA); (0x1BC, 0x1BF); (0x1C4, 0x293);
   (0x295, 0x2B8); (0x2C0, 0x2C1); (0x2E0, 0x2E4); (0x345, 0x345);
   (0x370, 0x373); (0x376, 0x377); (0x37A, 0x37D); (0x37F, 0x37F);
   (0x386, 0x386); (0x388, 0x38A); (0x38C, 0x38C); (0x38E, 0x3A1);
   (0x3A3, 0x3F5); (0x3F7, 0x481); (0x48A, 0x52F); (0x531, 0x556);
   (0x560, 0x588); (0x10A0, 0x10C5); (0x10C7, 0x10C7); (0x10CD, 0x10CD);
   (0x10D0, 0x10FA); (0x10FD, 0x10FF); (0x13A0, 0x13F5); (0x13F8, 0x13FD);
   (0x1C80, 0x1C88); (0x1C90, 0x1CBA); (0x1CBD, 0x1CBF); (0x1D00, 0x1DBF);
   (0x1E00, 0x1F15); (0x1F18, 0x1F1D); (0x1F20, 0x1F45); (0x1F48, 0x1F4D);
   (0x1F50, 0x1F57); (0x1F59, 0x1F59); (0x1F5B, 0x1F5B); (0x1F5D, 0x1F5D);
   (0x1F5F, 0x1F7D); (0x1F80, 0x1FB4); (0x1FB6, 0x1FBC); (0x1FBE, 0x1FBE);
   (0x1FC2, 0x1FC4); (0x1FC6, 0x1FCC); (0x1FD0, 0x1FD3); (0x1FD6, 0x1FDB);
   (0x1FE0, 0x1FEC); (0x1FF2, 0x1FF4); (0x1FF6, 0x1FFC); (0x2071, 0x2071);
   (0x207F, 0x207F); (0x2090, 0x209C); (0x2102, 0x2102); (0x2107, 0x2107);
   (0x210A, 0x2113); (0x2115, 0x2115); (0x2119, 0x211D); (0x2124, 0x2124);
   (0x2126, 0x2126); (0x2128, 0x2128); (0x212A, 0x212D); (0x212F, 0x2134);
   (0x2139, 0x2139); (0x213C, 0x213F); (0x2145, 0x2149); (0x214E, 0x214E);
   (0x2160, 0x217F); (0x2183, 0x2184); (0x24B6, 0x24E9); (0x2C00, 0x2CE4);
   (0x2CEB, 0x2CEE); (0x2CF2, 0x2CF3); (0x2D00, 0x2D25); (0x2D27, 0x2D27);
   (0x2D2D, 0x2D2D); (0xA640, 0xA66D); (0xA680, 0xA69D); (0xA722, 0xA787);
   (0xA78B, 0xA78E); (0xA790, 0xA7CA); (0xA7D0, 0xA7D1); (0xA7D3, 0xA7D3);
   (0xA7D5, 0xA7D9); (0xA7F5, 0xA7F6); (0xA7F8, 0xA7FA); (0xAB30, 0xAB5A);
   (0xAB5C, 0xAB68); (0xAB70, 0xABBF); (0xFB00, 0xFB06); (0xFB13, 0xFB17);
   (0xFF21, 0xFF3A); (0xFF41, 0xFF5A); (0x10400, 0x1044F); (0x104B0, 0x104D3);
   (0x104D8, 0x104FB); (0x10570, 0x1057A); (0x1057C, 0x1058A);
   (0x1058C, 0x10592); (0x10594, 0x10595); (0x10597, 0x105A1);
   (0x105A3, 0x105B1); (0x105B3, 0x105B9); (0x105BB, 0x105BC);
   (0x10780, 0x10780); (0x10783, 0x10785); (0x10787, 0x107B0);
   (0x107B2, 0x107BA); (0x10C80, 0x10CB2); (0x10CC0, 0x10CF2);
   (0x118A0, 0x118DF); (0x16E40, 0x16E7F); (0x1D400, 0x1D454);
   (0x1D456, 0x1D49C); (0x1D49E, 0x1D49F); (0x1D4A2, 0x1D4A2);
   (0x1D4A5, 0x1D4A6); (0x1D4A9, 0x1D4AC); (0x1D4AE, 0x1D4B9);
   (0x1D4BB, 0x1D4BB); (0x1D4BD, 0x1D4C3); (0x1D4C5, 0x1D505);
   (0x1D507, 0x1D50A); (0x1D50D, 0x1D514); (0x1D516, 0x1D51C);
   (0x1D51E, 0x1D539); (0x1D53B, 0x1D53E); (0x1D540, 0x1D544);
   (0x1D546, 0x1D546); (0x1D54A, 0x1D550); (0x1D552, 0x1D6A5);
   (0x1D6A8, 0x1D6C0); (0x1D6C2, 0x1D6DA); (0x1D6DC, 0x1D6FA);
   (0x1D6FC, 0x1D714); (0x1D716, 0x1D734); (0x1D736, 0x1D74E);
   (0x1D750, 0x1D76E); (0x1D770, 0x1D788); (0x1D78A, 0x1D7A8);
   (0x1D7AA, 0x1D7C2); (0x1D7C4, 0x1D7CB); (0x1DF00, 0x1DF09);
   (0x1DF0B, 0x1DF1E); (0x1E900, 0x1E943); (0x1F130, 0x1F149);
   (0x1F150, 0x1F169); (0x1F170, 0x1F189) ].

Definition case_ignorable_ranges : list (N * N) :=
  [
   (0x27, 0x27); (0x2E, 0x2E); (0x3A, 0x3A); (0x5E, 0x5E); (0x60, 0x60);
   (0xA8, 0xA8); (0xAD, 0xAD); (0xAF, 0xAF); (0xB4, 0xB4); (0xB7, 0xB8);
   (0x2B0, 0x36F); (0x374, 0x375); (0x37A, 0x37A); (0x384, 0x385);
   (0x387, 0x387); (0x483, 0x489); (0x559, 0x559); (0x55F, 0x55F);
   (0x591, 0x5BD); (0x5BF, 0x5BF); (0x5C1, 0x5C2); (0x5C4, 0x5C5);
   (0x5C7, 0x5C7); (0x5F4, 0x5F4); (0x600, 0x605); (0x610, 0x61A);
   (0x61C, 0x61C); (0x640, 0x640); (0x64B, 0x65F); (0x670, 0x670);
   (0x6D6, 0x6DD); (0x6DF, 0x6E8); (0x6EA, 0x6ED); (0x70F, 0x70F);
   (0x711, 0x711); (0x730, 0x74A); (0x7A6, 0x7B0); (0x7EB, 0x7F5);
   (0x7FA, 0x7FA); (0x7FD, 0x7FD); (0x816, 0x82D); (0x859, 0x85B);
   (0x888, 0x888); (0x890, 0x891); (0x898, 0x89F); (0x8C9, 0x902);
   (0x93A, 0x93A); (0x93C, 0x93C); (0x941, 0x948); (0x94D, 0x94D);
   (0x951, 0x957); (0x962, 0x963); (0x971, 0x971); (0x981, 0x981);
   (0x9BC, 0x9BC); (0x9C1, 0x9C4); (0x9CD, 0x9CD); (0x9E2, 0x9E3);
   (0x9FE, 0x9FE); (0xA01, 0xA02); (0xA3C, 0xA3C); (0xA41, 0xA42);
   (0xA47, 0xA48); (0xA4B, 0xA4D); (0xA51, 0xA51); (0xA70, 0xA71);
   (0xA75, 0xA75); (0xA81, 0xA82); (0xABC, 0xABC); (0xAC1, 0xAC5);
   (0xAC7, 0xAC8); (0xACD, 0xACD); (0xAE2, 0xAE3); (0xAFA, 0xAFF);
   (0xB01, 0xB01); (0xB3C, 0xB3C); (0xB3F, 0xB3F); (0xB41, 0xB44);
   (0xB4D, 0xB4D); (0xB55, 0xB56); (0xB62, 0xB63); (0xB82, 0xB82);
   (0xBC0, 0xBC0); (0xBCD, 0xBCD); (0xC00, 0xC00); (0xC04, 0xC04);
   (0xC3C, 0xC3C); (0xC3E, 0xC40); (0xC46, 0xC48); (0xC4A, 0xC4D);
   (0xC55, 0xC56); (0xC62, 0xC63); (0xC81, 0xC81); (0xCBC, 0xCBC);
   (0xCBF, 0xCBF); (0xCC6, 0xCC6); (0xCCC, 0xCCD); (0xCE2, 0xCE3);
   (0xD00, 0xD01); (0xD3B, 0xD3C); (0xD41, 0xD44); (0xD4D, 0xD4D);
   (0xD62, 0xD63); (0xD81, 0xD81); (0xDCA, 0xDCA); (0xDD2, 0xDD4);
   (0xDD6, 0xDD6); (0xE31, 0xE31); (0xE34, 0xE3A); (0xE46, 0xE4E);
   (0xEB1, 0xEB1); (0xEB4, 0xEBC); (0xEC6, 0xEC6); (0xEC8, 0xECD);
   (0xF18, 0xF19); (0xF35, 0xF35); (0xF37, 0xF37); (0xF39, 0xF39);
   (0xF71, 0xF7E); (0xF80, 0xF84); (0xF86, 0xF87); (0xF8D, 0xF97);
   (0xF99, 0xFBC); (0xFC6, 0xFC6); (0x102D, 0x1030); (0x1032, 0x1037);
   (0x1039, 0x103A); (0x103D, 0x103E); (0x1058, 0x1059); (0x105E, 0x1060);
   (0x1071, 0x1074); (0x1082, 0x1082); (0x1085, 0x1086); (0x108D, 0x108D);
   (0x109D, 0x109D); (0x10FC, 0x10FC); (0x135D, 0x135F); (0x1712, 0x1714);
   (0x1732, 0x1733); (0x1752, 0x1753); (0x1772, 0x1773); (0x17B4, 0x17B5);
   (0x17B7, 0x17BD); (0x17C6, 0x17C6); (0x17C9, 0x17D3); (0x17D7, 0x17D7);
   (0x17DD, 0x17DD); (0x180B, 0x180F); (0x1843, 0x1843); (0x1885, 0x1886);
   (0x18A9, 0x18A9); (0x1920, 0x1922); (0x1927, 0x1928); (0x1932, 0x1932);
   (0x1939, 0x193B); (0x1A17, 0x1A18); (0x1A1B, 0x1A1B); (0x1A56, 0x1A56);
   (0x1A58, 0x1A5E); (0x1A60, 0x1A60); (0x1A62, 0x1A62); (0x1A65, 0x1A6C);
   (0x1A73, 0x1A7C); (0x1A7F, 0x1A7F); (0x1AA7, 0x1AA7); (0x1AB0, 0x1ACE);
   (0x1B00, 0x1B03); (0x1B34, 0x1B34); (0x1B36, 0x1B3A); (0x1B3C, 0x1B3C);
   (0x1B42, 0x1B42); (0x1B6B, 0x1B73); (0x1B80, 0x1B81); (0x1BA2, 0x1BA5);
   (0x1BA8, 0x1BA9); (0x1BAB, 0x1BAD); (0x1BE6, 0x1BE6); (0x1BE8, 0x1BE9);
   (0x1BED, 0x1BED); (0x1BEF, 0x1BF1); (0x1C2C, 0x1C33); (0x1C36, 0x1C37);
   (0x1C78, 0x1C7D); (0x1CD0, 0x1CD2); (0x1CD4, 0x1CE0); (0x1CE2, 0x1CE8);
   (0x1CED, 0x1CED); (0x1CF4, 0x1CF4); (0x1CF8, 0x1CF9); (0x1D2C, 0x1D6A);
   (0x1D78, 0x1D78); (0x1D9B, 0x1DFF); (0x1FBD, 0x1FBD); (0x1FBF, 0x1FC1);
   (0x1FCD, 0x1FCF); (0x1FDD, 0x1FDF); (0x1FED, 0x1FEF); (0x1FFD, 0x1FFE);
   (0x200B, 0x200F); (0x2018, 0x2019); (0x2024, 0x2024); (0x2027, 0x2027);
   (0x202A, 0x202E); (0x2060, 0x2064); (0x2066, 0x206F); (0x2071, 0x2071);
   (0x207F, 0x207F); (0x2090, 0x209C); (0x20D0, 0x20F0); (0x2C7C, 0x2C7D);
   (0x2CEF, 0x2CF1); (0x2D6F, 0x2D6F); (0x2D7F, 0x2D7F); (0x2DE0, 0x2DFF);
   (0x2E2F, 0x2E2F); (0x3005, 0x3005); (0x302A, 0x302D); (0x3031, 0x3035);
   (0x303B, 0x303B); (0x3099, 0x309E); (0x30FC, 0x30FE); (0xA015, 0xA015);
   (0xA4F8, 0xA4FD); (0xA60C, 0xA60C); (0xA66F, 0xA672); (0xA674, 0xA67D);
   (0xA67F, 0xA67F); (0xA69C, 0xA69F); (0xA6F0, 0xA6F1); (0xA700, 0xA721);
   (0xA770, 0xA770); (0xA788, 0xA78A); (0xA7F2, 0xA7F4); (0xA7F8, 0xA7F9);
   (0xA802, 0xA802); (0xA806, 0xA806); (0xA80B, 0xA80B); (0xA825, 0xA826);
   (0xA82C, 0xA82C); (0xA8C4, 0xA8C5); (0xA8E0, 0xA8F1); (0xA8FF, 0xA8FF);
   (0xA926, 0xA92D); (0xA947, 0xA951); (0xA980, 0xA982); (0xA9B3, 0xA9B3);
   (0xA9B6, 0xA9B9); (0xA9BC, 0xA9BD); (0xA9CF, 0xA9CF); (0xA9E5, 0xA9E6);
   (0xAA29, 0xAA2E); (0xAA31, 0xAA32); (0xAA35, 0xAA36); (0xAA43, 0xAA43);
   (0xAA4C, 0xAA4C); (0xAA70, 0xAA70); (0xAA7C, 0xAA7C); (0xAAB0, 0xAAB0);
   (0xAAB2, 0xAAB4); (0xAAB7, 0xAAB8); (0xAABE, 0xAABF); (0xAAC1, 0xAAC1);
   (0xAADD, 0xAADD); (0xAAEC, 0xAAED); (0xAAF3, 0xAAF4); (0xAAF6, 0xAAF6);
   (0xAB5B, 0xAB5F); (0xAB69, 0xAB6B); (0xABE5, 0xABE5); (0xABE8, 0xABE8);
   (0xABED, 0xABED); (0xFB1E, 0xFB1E); (0xFBB2, 0xFBC2); (0xFE00, 0xFE0F);
   (0xFE13, 0xFE13); (0xFE20, 0xFE2F); (0xFE52, 0xFE52); (0xFE55, 0xFE55);
   (0xFEFF, 0xFEFF); (0xFF07, 0xFF07); (0xFF0E, 0xFF0E); (0xFF1A, 0xFF1A);
   (0xFF3E, 0xFF3E); (0xFF40, 0xFF40); (0xFF70, 0xFF70); (0xFF9E, 0xFF9F);
   (0xFFE3, 0xFFE3); (0xFFF9, 0xFFFB); (0x101FD, 0x101FD); (0x102E0, 0x102E0);
   (0x10376, 0x1037A); (0x10780, 0x10785); (0x10787, 0x107B0);
   (0x107B2, 0x107BA); (0x10A01, 0x10A03); (0x10A05, 0x10A06);
   (0x10A0C, 0x10A0F); (0x10A38, 0x10A3A); (0x10A3F, 0x10A3F);
   (0x10AE5, 0x10AE6); (0x10D24, 0x10D27); (0x10EAB, 0x10EAC);
   (0x10F46, 0x10F50); (0x10F82, 0x10F85); (0x11001, 0x11001);
   (0x11038, 0x11046); (0x11070, 0x11070); (0x11073, 0x11074);
   (0x1107F, 0x11081); (0x110B3, 0x110B6); (0x110B9, 0x110BA);
   (0x110BD, 0x110BD); (0x110C2, 0x110C2); (0x110CD, 0x110CD);
   (0x11100, 0x11102); (0x11127, 0x1112B); (0x1112D, 0x11134);
   (0x11173, 0x11173); (0x11180, 0x11181); (0x111B6, 0x111BE);
   (0x111C9, 0x111CC); (0x111CF, 0x111CF); (0x1122F, 0x11231);
   (0x11234, 0x11234); (0x11236, 0x11237); (0x1123E, 0x1123E);
   (0x112DF, 0x112DF); (0x112E3, 0x112EA); (0x11300, 0x11301);
   (0x1133B, 0x1133C); (0x11340, 0x11340); (0x11366, 0x1136C);
   (0x11370, 0x11374); (0x11438, 0x1143F); (0x11442, 0x11444);
   (0x11446, 0x11446); (0x1145E, 0x1145E); (0x114B3, 0x114B8);
   (0x114BA, 0x114BA); (0x114BF, 0x114C0); (0x114C2, 0x114C3);
   (0x115B2, 0x115B5); (0x115BC, 0x115BD); (0x115BF, 0x115C0);
   (0x115DC, 0x115DD); (0x11633, 0x1163A); (0x1163D, 0x1163D);
   (0x1163F, 0x11640); (0x116AB, 0x116AB); (0x116AD, 0x116AD);
   (0x116B0, 0x116B5); (0x116B7, 0x116B7); (0x1171D, 0x1171F);
   (0x11722, 0x11725); (0x11727, 0x1172B); (0x1182F, 0x11837);
   (0x11839, 0x1183A); (0x1193B, 0x1193C); (0x1193E, 0x1193E);
   (0x11943, 0x11943); (0x119D4, 0x119D7); (0x119DA, 0x119DB);
   (0x119E0, 0x119E0); (0x11A01, 0x11A0A); (0x11A33, 0x11A38);
   (0x11A3B, 0x11A3E); (0x11A47, 0x11A47); (0x11A51, 0x11A56);
   (0x11A59, 0x11A5B); (0x11A8A, 0x11A96); (0x11A98, 0x11A99);
   (0x11C30, 0x11C36); (0x11C38, 0x11C3D); (0x11C3F, 0x11C3F);
   (0x11C92, 0x11CA7); (0x11CAA, 0x11CB0); (0x11CB2, 0x11CB3);
   (0x11CB5, 0x11CB6); (0x11D31, 0x11D36); (0x11D3A, 0x11D3A);
   (0x11D3C, 0x11D3D); (0x11D3F, 0x11D45); (0x11D47, 0x11D47);
   (0x11D90, 0x11D91); (0x11D95, 0x11D95); (0x11D97, 0x11D97);
   (0x11EF3, 0x11EF4); (0x13430, 0x13438); (0x16AF0, 0x16AF4);
   (0x16B30, 0x16B36); (0x16B40, 0x16B43); (0x16F4F, 0x16F4F);
   (0x16F8F, 0x16F9F); (0x16FE0, 0x16FE1); (0x16FE3, 0x16FE4);
   (0x1AFF0, 0x1AFF3); (0x1AFF5, 0x1AFFB); (0x1AFFD, 0x1AFFE);
   (0x1BC9D, 0x1BC9E); (0x1BCA0, 0x1BCA3); (0x1CF00, 0x1CF2D);
   (0x1CF30, 0x1CF46); (0x1D167, 0x1D169); (0x1D173, 0x1D182);
   (0x1D185, 0x1D18B); (0x1D1AA, 0x1D1AD); (0x1D242, 0x1D244);
   (0x1DA00, 0x1DA36); (0x1DA3B, 0x1DA6C); (0x1DA75, 0x1DA75);
   (0x1DA84, 0x1DA84); (0x1DA9B, 0x1DA9F); (0x1DAA1, 0x1DAAF);
   (0x1E000, 0x1E006); (0x1E008, 0x1E018); (0x1E01B, 0x1E021);
   (0x1E023, 0x1E024); (0x1E026, 0x1E02A); (0x1E130, 0x1E13D);
   (0x1E2AE, 0x1E2AE); (0x1E2EC, 0x1E2EF); (0x1E8D0, 0x1E8D6);
   (0x1E944, 0x1E94B); (0x1F3FB, 0x1F3FF); (0xE0001, 0xE0001);
   (0xE0020, 0xE007F); (0xE0100, 0xE01EF) ].

Definition is_cased (c : char) : bool := in_ranges cased_ranges c.
Definition is_case_ignorable (c : char) : bool := in_ranges case_ignorable_ranges c.

(** [_sre.unicode_iscased]: the characters that the simple lower-case or
    upper-case mapping changes. *)
Definition iscased_ranges : list (N * N) :=
  [
   (0x41, 0x5A); (0x61, 0x7A); (0xB5, 0xB5); (0xC0, 0xD6); (0xD8, 0xF6);
   (0xF8, 0x137); (0x139, 0x18C); (0x18E, 0x19A); (0x19C, 0x1A9);
   (0x1AC, 0x1B9); (0x1BC, 0x1BD); (0x1BF, 0x1BF); (0x1C4, 0x220);
   (0x222, 0x233); (0x23A, 0x254); (0x256, 0x257); (0x259, 0x259);
   (0x25B, 0x25C); (0x260, 0x261); (0x263, 0x263); (0x265, 0x266);
   (0x268, 0x26C); (0x26F, 0x26F); (0x271, 0x272); (0x275, 0x275);
   (0x27D, 0x27D); (0x280, 0x280); (0x282, 0x283); (0x287, 0x28C);
   (0x292, 0x292); (0x29D, 0x29E); (0x345, 0x345); (0x370, 0x373);
   (0x376, 0x377); (0x37B, 0x37D); (0x37F, 0x37F); (0x386, 0x386);
   (0x388, 0x38A); (0x38C, 0x38C); (0x38E, 0x3A1); (0x3A3, 0x3D1);
   (0x3D5, 0x3F5); (0x3F7, 0x3FB); (0x3FD, 0x481); (0x48A, 0x52F);
   (0x531, 0x556); (0x561, 0x587); (0x10A0, 0x10C5); (0x10C7, 0x10C7);
   (0x10CD, 0x10CD); (0x10D0, 0x10FA); (0x10FD, 0x10FF); (0x13A0, 0x13F5);
   (0x13F8, 0x13FD); (0x1C80, 0x1C88); (0x1C90, 0x1CBA); (0x1CBD, 0x1CBF);
   (0x1D79, 0x1D79); (0x1D7D, 0x1D7D); (0x1D8E, 0x1D8E); (0x1E00, 0x1E9B);
   (0x1E9E, 0x1E9E); (0x1EA0, 0x1F15); (0x1F18, 0x1F1D); (0x1F20, 0x1F45);
   (0x1F48, 0x1F4D); (0x1F50, 0x1F57); (0x1F59, 0x1F59); (0x1F5B, 0x1F5B);
   (0x1F5D, 0x1F5D); (0x1F5F, 0x1F7D); (0x1F80, 0x1FB4); (0x1FB6, 0x1FBC);
   (0x1FBE, 0x1FBE); (0x1FC2, 0x1FC4); (0x1FC6, 0x1FCC); (0x1FD0, 0x1FD3);
   (0x1FD6, 0x1FDB); (0x1FE0, 0x1FEC); (0x1FF2, 0x1FF4); (0x1FF6, 0x1FFC);
   (0x2126, 0x2126); (0x212A, 0x212B); (0x2132, 0x2132); (0x214E, 0x214E);
   (0x2160, 0x217F); (0x2183, 0x2184); (0x24B6, 0x24E9); (0x2C00, 0x2C70);
   (0x2C72, 0x2C73); (0x2C75, 0x2C76); (0x2C7E, 0x2CE3); (0x2CEB, 0x2CEE);
   (0x2CF2, 0x2CF3); (0x2D00, 0x2D25); (0x2D27, 0x2D27); (0x2D2D, 0x2D2D);
   (0xA640, 0xA66D); (0xA680, 0xA69B); (0xA722, 0xA72F); (0xA732, 0xA76F);
   (0xA779, 0xA787); (0xA78B, 0xA78D); (0xA790, 0xA794); (0xA796, 0xA7AE);
   (0xA7B0, 0xA7CA); (0xA7D0, 0xA7D1); (0xA7D6, 0xA7D9); (0xA7F5, 0xA7F6);
   (0xAB53, 0xAB53); (0xAB70, 0xABBF); (0xFB00, 0xFB06); (0xFB13, 0xFB17);
   (0xFF21, 0xFF3A); (0xFF41, 0xFF5A); (0x10400, 0x1044F); (0x104B0, 0x104D3);
   (0x104D8, 0x104FB); (0x10570, 0x1057A); (0x1057C, 0x1058A);
   (0x1058C, 0x10592); (0x10594, 0x10595); (0x10597, 0x105A1);
   (0x105A3, 0x105B1); (0x105B3, 0x105B9); (0x105BB, 0x105BC);
   (0x10C80, 0x10CB2); (0x10CC0, 0x10CF2); (0x118A0, 0x118DF);
   (0x16E40, 0x16E7F); (0x1E900, 0x1E943) ].

Definition iscased (c : char) : bool := in_ranges iscased_ranges c.

(** [re._casefix._EXTRA_CASES]: for a lower-case character, the other
    lower-case characters with the same upper-case form. *)
Definition EXTRA_CASES : list (N * list N) :=
  [
   (0x69, [0x131]); (0x73, [0x17F]); (0xB5, [0x3BC]); (0x131, [0x69]);
   (0x17F, [0x73]); (0x345, [0x3B9; 0x1FBE]); (0x390, [0x1FD3]);
   (0x3B0, [0x1FE3]); (0x3B2, [0x3D0]); (0x3B5, [0x3F5]); (0x3B8, [0x3D1]);
   (0x3B9, [0x345; 0x1FBE]); (0x3BA, [0x3F0]); (0x3BC, [0xB5]);
   (0x3C0, [0x3D6]); (0x3C1, [0x3F1]); (0x3C2, [0x3C3]); (0x3C3, [0x3C2]);
   (0x3C6, [0x3D5]); (0x3D0, [0x3B2]); (0x3D1, [0x3B8]); (0x3D5, [0x3C6]);
   (0x3D6, [0x3C0]); (0x3F0, [0x3BA]); (0x3F1, [0x3C1]); (0x3F5, [0x3B5]);
   (0x432, [0x1C80]); (0x434, [0x1C81]); (0x43E, [0x1C82]); (0x441, [0x1C83]);
   (0x442, [0x1C84; 0x1C85]); (0x44A, [0x1C86]); (0x463, [0x1C87]);
   (0x1C80, [0x432]); (0x1C81, [0x434]); (0x1C82, [0x43E]); (0x1C83, [0x441]);
   (0x1C84, [0x442; 0x1C85]); (0x1C85, [0x442; 0x1C84]); (0x1C86, [0x44A]);
   (0x1C87, [0x463]); (0x1C88, [0xA64B]); (0x1E61, [0x1E9B]);
   (0x1E9B, [0x1E61]); (0x1FBE, [0x345; 0x3B9]); (0x1FD3, [0x390]);
   (0x1FE3, [0x3B0]); (0xA64B, [0x1C88]); (0xFB05, [0xFB06]);
   (0xFB06, [0xFB05]) ].

Definition extra_cases (c : char) : list char :=
  match find (fun p => fst p =? c) EXTRA_CASES with
  | Some p => snd p
  | None => []
  end.

End Unicode.

(** The lower-case form of one character on its own: one character, but
    for the capital I with a dot, which gives an i and the combining dot. *)
Definition lower_full (c : char) : text :=
  if c =? 0x130 then [0x69; 0x307] else [Unicode.tolower c].

(** The next character that is not case-ignorable is cased. *)
Fixpoint cased_ahead (t : text) : bool :=
  match t with
  | [] => false
  | c :: t' =>
      if Unicode.is_case_ignorable c then cased_ahead t' else Unicode.is_cased c
  end.

(** [str.lower()], from a position where [before] tells whether the last
    character that is not case-ignorable was cased.  A capital sigma gives
    the final form of the small letter after a cased letter when no cased
    letter follows, and the other form elsewhere. *)
Fixpoint lower_from (before : bool) (t : text) : text :=
  match t with
  | [] => []
  | c :: t' =>
      (if c =? 0x3A3
       then [if before && negb (cased_ahead t') then 0x3C2 else 0x3C3]
       else lower_full c)
      ++ lower_from (if Unicode.is_case_ignorable c then before
                     else Unicode.is_cased c) t'
  end.

Definition lower (t : text) : text := lower_from false t.

(** [str.strip()] *)
Fixpoint lstrip (t : text) : text :=
  match t with
  | c :: t' => if is_space c then lstrip t' else t
  | [] => []
  end.

Definition rstrip (t : text) : text := rev (lstrip (rev t)).

Definition strip (t : text) : text := rstrip (lstrip t).

(** ** The [re] module

    Patterns are kept as syntax trees; the flags of a call are passed to the
    matcher as in the source. *)
Module Re.

Inductive set_item : Type :=
| One (c : char)
| Range (lo hi : char)
| SpaceCat                      (* \s inside a set *)
| DigitCat.                     (* \d inside a set *)

Inductive regex : Type :=
| Eps
| Lit (c : char)
| Dot
| Set_ (items : list set_item)
| Cat (r1 r2 : regex)
| Alt (r1 r2 : regex)
| Star (r : regex)              (* r*  *)
| LazyStar (r : regex)          (* r*? *)
| Group (n : nat) (r : regex)
| Dollar.                       (* $   *)

Record flags : Type := { IGNORECASE : bool; DOTALL : bool }.

Definition no_flags : flags := {| IGNORECASE := false; DOTALL := false |}.
Definition I : flags := {| IGNORECASE := true; DOTALL := false |}.
Definition I_S : flags := {| IGNORECASE := true; DOTALL := true |}.

(** *** Pattern syntax *)

Definition Digit : regex := Set_ [DigitCat].
Definition Space : regex := Set_ [SpaceCat].

Fixpoint sequence (rs : list regex) : regex :=
  match rs with
  | [] => Eps
  | [r] => r
  | r :: rs' => Cat r (sequence rs')
  end.

Fixpoint alt (rs : list regex) : regex :=
  match rs with
  | [] => Eps
  | [r] => r
  | r :: rs' => Alt r (alt rs')
  end.

Fixpoint lit_text (w : text) : regex :=
  match w with
  | [] => Eps
  | c :: w' => Cat (Lit c) (lit_text w')
  end.

Definition lit (s : string) : regex := lit_text (str s).

Definition chars (s : string) : list set_item := map One (str s).

Definition opt (r : regex) : regex := Alt r Eps.         (* r?  *)
Definition plus (r : regex) : regex := Cat r (Star r).   (* r+  *)

Fixpoint rep (n : nat) (r : regex) : regex :=            (* r{n} *)
  match n with
  | O => Eps
  | S n' => Cat r (rep n' r)
  end.

Fixpoint upto (n : nat) (r : regex) : regex :=           (* r{0,n} *)
  match n with
  | O => Eps
  | S n' => opt (Cat r (upto n' r))
  end.

Definition rep_range (lo hi : nat) (r : regex) : regex := (* r{lo,hi} *)
  Cat (rep lo r) (upto (hi - lo) r).

(** *** Matching one character *)

Definition in_range (lo hi c : char) : bool := (lo <=? c) && (c <=? hi).

(** The characters from [lo] to [hi]. *)
Definition char_range (lo hi : char) : list char :=
  map (fun i => lo + N.of_nat i) (seq 0 (N.to_nat (hi + 1 - lo))).

(** What the compiler puts in the place of a pattern character when case
    is ignored: its lower-case form and the lower-case characters that
    share an upper-case form with it. *)
Definition lowered (x : char) : list char :=
  Unicode.tolower x :: Unicode.extra_cases (Unicode.tolower x).

Definition among (l : list char) (c : char) : bool := existsb (N.eqb c) l.

(** A literal: when case is ignored and the pattern character is cased,
    the lower-case form of the character read is looked for among the
    lowered forms of the pattern character. *)
Definition lit_ok (fl : flags) (x c : char) : bool :=
  if IGNORECASE fl && Unicode.iscased x
  then among (lowered x) (Unicode.tolower c)
  else c =? x.

Definition dot_ok (fl : flags) (c : char) : bool :=
  DOTALL fl || negb (c =? 10).

(** A set.  When case is ignored its characters and ranges are lowered
    as literals are, and the character read is lowered when one of them
    is cased. *)
Definition item_cased (it : set_item) : bool :=
  match it with
  | One x => Unicode.iscased x
  | Range lo hi => existsb Unicode.iscased (char_range lo hi)
  | SpaceCat | DigitCat => false
  end.

Definition hascased (items : list set_item) : bool := existsb item_cased items.

Definition item_ok (ignorecase : bool) (it : set_item) (c : char) : bool :=
  match it with
  | One x => if ignorecase then among (lowered x) c else c =? x
  | Range lo hi =>
      if ignorecase
      then existsb (fun x => among (lowered x) c) (char_range lo hi)
      else in_range lo hi c
  | SpaceCat => is_space c
  | DigitCat => Unicode.is_decimal c
  end.

Definition set_ok (fl : flags) (items : list set_item) (c : char) : bool :=
  if IGNORECASE fl
  then existsb (fun it => item_ok true it
                            (if hascased items then Unicode.tolower c else c)) items
  else existsb (fun it => item_ok false it c) items.

(** *** The backtracking matcher

    [m fl r s g k] matches [r] at the front of [s] with the groups [g]
    captured so far and hands the rest of the input to the continuation [k];
    alternatives are explored in the order of the engine: the left branch of
    an alternation first, a greedy star longest first, a lazy star shortest
    first.  An iteration of a star has to consume input. *)

Definition groups := list (nat * text).

Fixpoint group (n : nat) (g : groups) : option text :=
  match g with
  | [] => None
  | (i, w) :: g' => if Nat.eqb i n then Some w else group n g'
  end.

Definition or_else {A} (x y : option A) : option A :=
  match x with
  | Some _ => x
  | None => y
  end.

Definition consumed (s s' : text) : text :=
  firstn (length s - length s') s.

(** Where [$] matches: at the end of the text and before a final newline. *)
Definition at_end (s : text) : bool :=
  match s with
  | [] => true
  | [c] => c =? 10
  | _ => false
  end.

Section Matcher.

Variable A : Type.
Variable fl : flags.

Definition one (p : char -> bool) (s : text) (g : groups)
           (k : text -> groups -> option A) : option A :=
  match s with
  | c :: s' => if p c then k s' g else None
  | [] => None
  end.

Definition cont : Type := text -> groups -> option A.

(** One more iteration of a star has to leave less input than it found. *)
Definition shorter (s : text) (k : cont) : cont :=
  fun s1 g1 => if (length s1 <? length s)%nat then k s1 g1 else None.

Fixpoint greedy_loop (body : text -> groups -> cont -> option A) (k : cont)
         (fuel : nat) (s : text) (g : groups) : option A :=
  match fuel with
  | O => k s g
  | S fuel' =>
      or_else (body s g (shorter s (greedy_loop body k fuel'))) (k s g)
  end.

Fixpoint lazy_loop (body : text -> groups -> cont -> option A) (k : cont)
         (fuel : nat) (s : text) (g : groups) : option A :=
  match fuel with
  | O => k s g
  | S fuel' =>
      or_else (k s g) (body s g (shorter s (lazy_loop body k fuel')))
  end.

Fixpoint m (r : regex) (s : text) (g : groups) (k : cont) {struct r} : option A :=
  match r with
  | Eps => k s g
  | Lit x => one (lit_ok fl x) s g k
  | Dot => one (dot_ok fl) s g k
  | Set_ items => one (set_ok fl items) s g k
  | Cat r1 r2 => m r1 s g (fun s1 g1 => m r2 s1 g1 k)
  | Alt r1 r2 => or_else (m r1 s g k) (m r2 s g k)
  | Star r1 => greedy_loop (m r1) k (length s) s g
  | LazyStar r1 => lazy_loop (m r1) k (length s) s g
  | Group n r1 => m r1 s g (fun s1 g1 => k s1 ((n, consumed s s1) :: g1))
  | Dollar => if at_end s then k s g else None
  end.

End Matcher.

(** [pattern.match] at the front of [s]; with [must_advance] an empty match
    is refused, as the scanner does right after an empty match. *)
Definition match_at (fl : flags) (r : regex) (must_advance : bool) (s : text)
  : option (text * groups) :=
  m fl r s []
    (fun s' g =>
       if must_advance && (length s' =? length s)%nat then None else Some (s', g)).

(** [re.search]: the match at the leftmost position that has one, as the
    text before it, the matched text, the text after it and the groups. *)
Record match_object : Type :=
  { m_before : text; m_whole : text; m_after : text; m_groups : groups }.

Fixpoint search_from (fl : flags) (r : regex) (before : text) (s : text)
  : option match_object :=
  match match_at fl r false s with
  | Some (s', g) =>
      Some {| m_before := before; m_whole := consumed s s';
              m_after := s'; m_groups := g |}
  | None =>
      match s with
      | [] => None
      | c :: s' => search_from fl r (before ++ [c]) s'
      end
  end.

Definition search (fl : flags) (r : regex) (t : text) : option match_object :=
  search_from fl r [] t.

(** [match.group(n)] of a pattern whose group [n] takes part in every match;
    a group that did not take part reads as the empty string, which is what
    [findall] reports for it. *)
Definition group_text (n : nat) (g : groups) : text :=
  match group n g with
  | Some w => w
  | None => []
  end.

(** The scanner shared by [findall] and [sub]: successive non-overlapping
    matches, left to right, with the characters between them. *)
Inductive piece : Type :=
| Gap (c : char)
| Hit (whole : text) (g : groups).

Fixpoint scan (fl : flags) (r : regex) (fuel : nat) (must_advance : bool) (s : text)
  : list piece :=
  match fuel with
  | O => []
  | S fuel' =>
      match match_at fl r must_advance s with
      | Some (s', g) =>
          Hit (consumed s s') g :: scan fl r fuel' (length s' =? length s)%nat s'
      | None =>
          match s with
          | [] => []
          | c :: s' => Gap c :: scan fl r fuel' false s'
          end
      end
  end.

Definition finditer (fl : flags) (r : regex) (t : text) : list piece :=
  scan fl r (2 * length t + 2) false t.

(** [re.findall] for a pattern with one group: the group of every match. *)
Definition findall (fl : flags) (r : regex) (t : text) : list text :=
  flat_map (fun p => match p with
                     | Gap _ => []
                     | Hit _ g => [group_text 1 g]
                     end) (finditer fl r t).

(** [re.sub] with a constant replacement. *)
Definition sub (fl : flags) (r : regex) (repl : text) (t : text) : text :=
  flat_map (fun p => match p with
                     | Gap c => [c]
                     | Hit _ _ => repl
                     end) (finditer fl r t).

End Re.

Import Re.

(** ** [hashlib.md5] *)
Module Hashlib.

Definition two32 : N := 4294967296.

Definition add32 (a b : N) : N := (a + b) mod two32.
Definition not32 (a : N) : N := 4294967295 - a mod two32.
Definition rotl32 (x : N) (n : N) : N :=
  N.lor (N.shiftl x n mod two32) (N.shiftr x (32 - n)).

Definition K : list N :=
  [ 3614090360; 3905402710; 606105819; 3250441966;
    4118548399; 1200080426; 2821735955; 4249261313;
    1770035416; 2336552879; 4294925233; 2304563134;
    1804603682; 4254626195; 2792965006; 1236535329;
    4129170786; 3225465664; 643717713; 3921069994;
    3593408605; 38016083; 3634488961; 3889429448;
    568446438; 3275163606; 4107603335; 1163531501;
    2850285829; 4243563512; 1735328473; 2368359562;
    4294588738; 2272392833; 1839030562; 4259657740;
    2763975236; 1272893353; 4139469664; 3200236656;
    681279174; 3936430074; 3572445317; 76029189;
    3654602809; 3873151461; 530742520; 3299628645;
    4096336452; 1126891415; 2878612391; 4237533241;
    1700485571; 2399980690; 4293915773; 2240044497;
    1873313359; 4264355552; 2734768916; 1309151649;
    4149444226; 3174756917; 718787259; 3951481745 ].

Definition shifts : list N :=
  [ 7; 12; 17; 22; 7; 12; 17; 22; 7; 12; 17; 22; 7; 12; 17; 22;
    5; 9; 14; 20; 5; 9; 14; 20; 5; 9; 14; 20; 5; 9; 14; 20;
    4; 11; 16; 23; 4; 11; 16; 23; 4; 11; 16; 23; 4; 11; 16; 23;
    6; 10; 15; 21; 6; 10; 15; 21; 6; 10; 15; 21; 6; 10; 15; 21 ].

(** Little-endian bytes of a [n]-byte number and back. *)
Fixpoint le_bytes (n : nat) (x : N) : list N :=
  match n with
  | O => []
  | S n' => x mod 256 :: le_bytes n' (x / 256)
  end.

Fixpoint words (bs : list N) : list N :=
  match bs with
  | b0 :: b1 :: b2 :: b3 :: rest =>
      (b0 + 256 * b1 + 65536 * b2 + 16777216 * b3) :: words rest
  | _ => []
  end.

Definition pad (msg : list N) : list N :=
  let len := N.of_nat (length msg) in
  msg ++ [128] ++ repeat 0 (N.to_nat ((119 - len mod 64) mod 64))
      ++ le_bytes 8 (8 * len).

Definition state : Type := N * N * N * N.

Definition step (M : list N) (st : state) (i : nat) : state :=
  let '(a, b, c, d) := st in
  let '(f, g) :=
    if (i <? 16)%nat then (N.lor (N.land b c) (N.land (not32 b) d), i)
    else if (i <? 32)%nat then (N.lor (N.land d b) (N.land (not32 d) c), (5 * i + 1) mod 16)%nat
    else if (i <? 48)%nat then (N.lxor (N.lxor b c) d, (3 * i + 5) mod 16)%nat
    else (N.lxor c (N.lor b (not32 d)), (7 * i) mod 16)%nat in
  let f' := add32 (add32 (add32 f a) (nth i K 0)) (nth g M 0) in
  (d, add32 b (rotl32 f' (nth i shifts 0)), b, c).

Definition block (st : state) (M : list N) : state :=
  let '(a0, b0, c0, d0) := st in
  let '(a, b, c, d) := fold_left (step M) (List.seq 0 64) st in
  (add32 a0 a, add32 b0 b, add32 c0 c, add32 d0 d).

Fixpoint blocks (fuel : nat) (ws : list N) (st : state) : state :=
  match fuel, ws with
  | S fuel', _ :: _ => blocks fuel' (skipn 16 ws) (block st (firstn 16 ws))
  | _, _ => st
  end.

Definition digest (msg : list N) : list N :=
  let ws := words (pad msg) in
  let '(a, b, c, d) :=
    blocks (length ws) ws (1732584193, 4023233417, 2562383102, 271733878) in
  le_bytes 4 a ++ le_bytes 4 b ++ le_bytes 4 c ++ le_bytes 4 d.

Definition hex_digit (x : N) : char := if x <? 10 then 48 + x else 87 + x.

(** [hashlib.md5(data).hexdigest()] *)
Definition md5_hexdigest (msg : list N) : text :=
  flat_map (fun b => [hex_digit (b / 16); hex_digit (b mod 16)]) (digest msg).

End Hashlib.

(** ** The field extractors *)

(** [(?:Jan|Feb|Mar|Apr|May|Jun|Jul|Aug|Sep|Oct|Nov|Dec)] *)
Definition month : regex :=
  alt [lit "Jan"; lit "Feb"; lit "Mar"; lit "Apr"; lit "May"; lit "Jun";
       lit "Jul"; lit "Aug"; lit "Sep"; lit "Oct"; lit "Nov"; lit "Dec"].

(** [(?:st|nd|rd|th)] *)
Definition ordinal : regex := alt [lit "st"; lit "nd"; lit "rd"; lit "th"].

Definition a_z : regex := Set_ [Range 97 122].              (* [a-z] *)
Definition A_Z0_9 : regex := Set_ [Range 65 90; Range 48 57]. (* [A-Z0-9] *)
Definition currency : regex := Set_ (chars "$£€").          (* [$£€] *)
Definition colon : regex := Lit 58.
Definition dot : regex := Lit 46.                           (* \. *)

(** The loop shared by the [findall] extractors: the first pattern of the
    list with a match decides, and its first match is returned. *)
Fixpoint first_findall (patterns : list regex) (t : text) : option text :=
  match patterns with
  | [] => None
  | pattern :: rest =>
      match findall I pattern t with
      | first :: _ => Some first
      | [] => first_findall rest t
      end
  end.

Definition date_patterns : list regex :=
  [ (* (\d{1,2}[/-]\d{1,2}[/-]\d{2,4}) *)
    Group 1 (sequence [rep_range 1 2 Digit; Set_ (chars "/-"); rep_range 1 2 Digit;
                       Set_ (chars "/-"); rep_range 2 4 Digit]);
    (* (\d{1,2}\s+(?:Jan|...|Dec)[a-z]*\s+\d{2,4}) *)
    Group 1 (sequence [rep_range 1 2 Digit; plus Space; month; Star a_z; plus Space;
                       rep_range 2 4 Digit]);
    (* ((?:Jan|...|Dec)[a-z]*\s+\d{1,2},?\s+\d{2,4}) *)
    Group 1 (sequence [month; Star a_z; plus Space; rep_range 1 2 Digit; opt (Lit 44);
                       plus Space; rep_range 2 4 Digit]);
    (* (?:\(|-)?\s*(\d{1,2}(?:st|nd|rd|th)?\s+(?:Jan|...|Dec)[a-z]*\s+\d{4})\s*(?:\)|-)? *)
    sequence [opt (Alt (Lit 40) (Lit 45)); Star Space;
              Group 1 (sequence [rep_range 1 2 Digit; opt ordinal; plus Space; month;
                                 Star a_z; plus Space; rep 4 Digit]);
              Star Space; opt (Alt (Lit 41) (Lit 45))] ].

Definition extract_date (t : text) : option text := first_findall date_patterns t.

(** [(\d+\.\d{2})] *)
Definition two_decimals : regex := Group 1 (sequence [plus Digit; dot; rep 2 Digit]).

Definition amount_patterns : list regex :=
  [ (* [$£€](\d+\.\d{2}) *)
    sequence [currency; two_decimals];
    (* £(\d+\.\d{2}) *)
    sequence [lit "£"; two_decimals];
    (* (\d+\.\d{2})[$£€] *)
    sequence [two_decimals; currency];
    (* Total:?\s*[$£€]?(\d+\.\d{2}) *)
    sequence [lit "Total"; opt colon; Star Space; opt currency; two_decimals];
    (* Amount\s*due:?\s*[$£€]?(\d+\.\d{2}) *)
    sequence [lit "Amount"; Star Space; lit "due"; opt colon; Star Space; opt currency;
              two_decimals];
    (* Total\s+(?:Electricity|Gas)?\s+Charges\s*[£$€]?(\d+\.\d{2}) *)
    sequence [lit "Total"; plus Space; opt (Alt (lit "Electricity") (lit "Gas"));
              plus Space; lit "Charges"; Star Space; opt currency; two_decimals];
    (* Total\s+charges\s+for\s+bill\s*[£$€]?(\d+\.\d{2}) *)
    sequence [lit "Total"; plus Space; lit "charges"; plus Space; lit "for"; plus Space;
              lit "bill"; Star Space; opt currency; two_decimals] ].

Definition extract_amount (t : text) : option text := first_findall amount_patterns t.

Definition found {A} (x : option A) : bool :=
  match x with
  | Some _ => true
  | None => false
  end.

Definition extract_bill_type (t : text) : text :=
  if found (search I (lit "gas") t) then str "Gas"
  else if found (search I (Alt (lit "electric") (lit "electricity")) t) then str "Electric"
  else str "Unknown".

(** [Account\s*(?:Number|No|#)?\s*:?\s*] *)
Definition account_label : list regex :=
  [lit "Account"; Star Space; opt (alt [lit "Number"; lit "No"; lit "#"]); Star Space;
   opt colon; Star Space].

Definition account_patterns : list regex :=
  [ (* Account\s*(?:Number|No|#)?\s*:?\s*(\d+[-\s]?\d+) *)
    sequence (account_label ++
              [Group 1 (sequence [plus Digit; opt (Set_ [One 45; SpaceCat]); plus Digit])]);
    (* Account\s*(?:Number|No|#)?\s*:?\s*([A-Z0-9]+) *)
    sequence (account_label ++ [Group 1 (plus A_Z0_9)]);
    (* Supply\s+number\s*:?\s*([A-Z0-9]+) *)
    sequence [lit "Supply"; plus Space; lit "number"; Star Space; opt colon; Star Space;
              Group 1 (plus A_Z0_9)] ].

Definition extract_account_number (t : text) : option text :=
  first_findall account_patterns t.

(** [\d{1,2}(?:st|nd|rd|th)?\s+(?:Jan|...|Dec)[a-z]*\s+\d{2,4}] *)
Definition date_pattern_part : regex :=
  sequence [rep_range 1 2 Digit; opt ordinal; plus Space; month; Star a_z; plus Space;
            rep_range 2 4 Digit].

Definition tariff_names : list text :=
  [str "Cosy Octopus"; str "Agile Octopus"; str "Octopus Tracker"].

(** [(name)\s*\(\s*(date)\s*-\s*(date)\s*\)], the name escaped. *)
Definition tariff_pattern (tariff_name_base : text) : regex :=
  sequence [Group 1 (lit_text tariff_name_base); Star Space; Lit 40; Star Space;
            Group 2 date_pattern_part; Star Space; Lit 45; Star Space;
            Group 3 date_pattern_part; Star Space; Lit 41].

Fixpoint tariff_loop (names : list text) (t : text)
  : option text * option text * option text :=
  match names with
  | [] => (None, None, None)
  | tariff_name_base :: rest =>
      match search I (tariff_pattern tariff_name_base) t with
      | Some mo =>
          let tariff := strip (group_text 1 (m_groups mo)) in
          let start_date_str := strip (group_text 2 (m_groups mo)) in
          let end_date_str := strip (group_text 3 (m_groups mo)) in
          (Some tariff, Some start_date_str, Some end_date_str)
      | None => tariff_loop rest t
      end
  end.

Definition extract_tariff_and_billing_period (t : text)
  : option text * option text * option text :=
  tariff_loop tariff_names t.

(** [re.sub(r'\s+', '', text.lower())], hashed. *)
Definition normalized_text (t : text) : text :=
  sub no_flags (plus Space) [] (lower t).

Definition calculate_fingerprint (t : text) : option text :=
  option_map Hashlib.md5_hexdigest (encode (normalized_text t)).

Definition meter_patterns : list regex :=
  [ (* Meter\s+(?:Number|No|#)?\s*:?\s*([A-Z0-9]+) *)
    sequence [lit "Meter"; plus Space; opt (alt [lit "Number"; lit "No"; lit "#"]);
              Star Space; opt colon; Star Space; Group 1 (plus A_Z0_9)];
    (* (?:for|from)\s+Meter\s+([A-Z0-9]+) *)
    sequence [Alt (lit "for") (lit "from"); plus Space; lit "Meter"; plus Space;
              Group 1 (plus A_Z0_9)] ].

Definition extract_meter_number (t : text) : option text :=
  first_findall meter_patterns t.

(** [(.*?)(?:Postcode|$)] *)
Definition address_body : list regex :=
  [Group 1 (LazyStar Dot); Alt (lit "Postcode") Dollar].

Definition address_patterns : list regex :=
  [ (* Supply\s+Address:?\s*(.*?)(?:Postcode|$) *)
    sequence ([lit "Supply"; plus Space; lit "Address"; opt colon; Star Space]
              ++ address_body);
    (* Address:?\s*(.*?)(?:Postcode|$) *)
    sequence ([lit "Address"; opt colon; Star Space] ++ address_body) ].

Fixpoint address_loop (patterns : list regex) (t : text) : option text :=
  match patterns with
  | [] => None
  | pattern :: rest =>
      match search I_S pattern t with
      | Some matches =>
          let address := strip (group_text 1 (m_groups matches)) in
          Some (sub no_flags (plus Space) [32] address)
      | None => address_loop rest t
      end
  end.

Definition extract_address (t : text) : option text :=
  address_loop address_patterns t.

(** ** Records and the batch loop *)

Record BillRecord : Type :=
  { Filename : text;
    Date : option text;
    Tariff : option text;
    Start_Date : option text;
    End_Date : option text;
    Amount : option text;
    Type_ : option text;
    Account_Number : option text;
    Meter_Number : option text;
    Address : option text;
    Fingerprint : text }.

(** A Python computation either returns or raises. *)
Inductive exception : Type :=
| UnicodeEncodeError
| KeyError (key : text)
| Exception (message : text).

Inductive result (A : Type) : Type :=
| Ok (a : A)
| Raised (e : exception).
Arguments Ok {A} a.
Arguments Raised {A} e.

Fixpoint text_eqb (a b : text) : bool :=
  match a, b with
  | [], [] => true
  | x :: a', y :: b' => (x =? y) && text_eqb a' b'
  | _, _ => false
  end.

(** The body of the [try] block once the text of the image is known. *)
Definition bill_record (filename : text) (t : text) : result BillRecord :=
  let date := extract_date t in
  let '(tariff, start_date, end_date) := extract_tariff_and_billing_period t in
  let amount := extract_amount t in
  let bill_type := extract_bill_type t in
  let account_number := extract_account_number t in
  let meter_number := extract_meter_number t in
  let address := extract_address t in
  match calculate_fingerprint t with
  | None => Raised UnicodeEncodeError
  | Some fingerprint =>
      Ok {| Filename := filename; Date := date; Tariff := tariff;
            Start_Date := start_date; End_Date := end_date; Amount := amount;
            Type_ := Some bill_type; Account_Number := account_number;
            Meter_Number := meter_number; Address := address;
            Fingerprint := fingerprint |}
  end.

(** What [os.listdir] yields for a name, with what the file system and the
    OCR collaborator answer for it: [image_to_string (Image.open path)]
    returns the text of the image or raises. *)
Record dir_entry : Type :=
  { entry_name : text;
    entry_isfile : bool;
    entry_ocr : result text }.

(** [os.path.splitext(filename)[1]] for a name without directory part: the
    suffix from the last dot on, empty when only dots come before it. *)
Fixpoint last_dot (p : text) : option (text * text) :=
  match p with
  | [] => None
  | c :: p' =>
      match last_dot p' with
      | Some (root, ext) => Some (c :: root, ext)
      | None => if c =? 46 then Some ([], p) else None
      end
  end.

Definition splitext_ext (p : text) : text :=
  match last_dot p with
  | Some (root, ext) => if forallb (N.eqb 46) root then [] else ext
  | None => []
  end.

Definition image_extensions : list text :=
  [str ".jpg"; str ".jpeg"; str ".png"; str ".tiff"; str ".bmp"].

(** The lines the loop prints. *)
Inductive line : Type :=
| Processed (filename : text)
| Error_processing (filename : text) (e : exception).

(** What [print] does with a line: it returns, or it raises, as it does
    on a standard output that cannot encode the line or that is closed. *)
Definition console : Type := line -> option exception.

Record batch_state : Type :=
  { bill_data : list BillRecord;
    stdout : list line }.

Definition is_image (e : dir_entry) : bool :=
  let file_ext := lower (splitext_ext (entry_name e)) in
  entry_isfile e && existsb (text_eqb file_ext) image_extensions.

(** The [try] block for one file, up to the record that is appended. *)
Definition try_block (e : dir_entry) : result BillRecord :=
  match entry_ocr e with
  | Ok t => bill_record (entry_name e) t
  | Raised err => Raised err
  end.

(** The [except] clause prints the error; what its [print] raises leaves
    the function. *)
Definition except_clause (print : console) (st : batch_state) (filename : text)
           (err : exception) : result batch_state :=
  match print (Error_processing filename err) with
  | None => Ok {| bill_data := bill_data st;
                  stdout := stdout st ++ [Error_processing filename err] |}
  | Some err' => Raised err'
  end.

(** One turn of the [for] loop.  The record is appended before the line
    is printed, inside the [try] block: the [except] clause catches what
    the extraction raises and what the [print] after the [append] raises. *)
Definition process_entry (print : console) (st : batch_state) (e : dir_entry)
  : result batch_state :=
  if is_image e then
    match try_block e with
    | Ok record =>
        let appended := {| bill_data := bill_data st ++ [record];
                           stdout := stdout st |} in
        match print (Processed (entry_name e)) with
        | None => Ok {| bill_data := bill_data appended;
                        stdout := stdout st ++ [Processed (entry_name e)] |}
        | Some err => except_clause print appended (entry_name e) err
        end
    | Raised err => except_clause print st (entry_name e) err
    end
  else Ok st.

Fixpoint for_loop (print : console) (folder : list dir_entry) (st : batch_state)
  : result batch_state :=
  match folder with
  | [] => Ok st
  | e :: rest =>
      match process_entry print st e with
      | Ok st' => for_loop print rest st'
      | Raised err => Raised err
      end
  end.

Definition process_bill_images_state (print : console) (folder : list dir_entry)
  : result batch_state :=
  for_loop print folder {| bill_data := []; stdout := [] |}.

Definition process_bill_images (print : console) (folder : list dir_entry)
  : result (list BillRecord) :=
  match process_bill_images_state print folder with
  | Ok st => Ok (bill_data st)
  | Raised err => Raised err
  end.

(** ** The [pandas] operations of the duplicate detector *)
Module Pandas.

Section Frames.

Variables Row Key : Type.
Variable key_compare : Key -> Key -> comparison.
Variable key : Row -> option Key.

Definition has_key (k : Key) (r : Row) : bool :=
  match key r with
  | Some k' => match key_compare k' k with Eq => true | _ => false end
  | None => false
  end.

Fixpoint insert_key (k : Key) (ks : list Key) : list Key :=
  match ks with
  | [] => [k]
  | k' :: ks' =>
      match key_compare k k' with
      | Eq => ks
      | Lt => k :: ks
      | Gt => k' :: insert_key k ks'
      end
  end.

(** The group keys: the keys that occur, without repetition, ascending.
    Rows without a key (a missing value in a key column) belong to no
    group: [dropna=True] is the default of [groupby]. *)
Definition group_keys (rows : list Row) : list Key :=
  fold_right insert_key []
    (flat_map (fun r => match key r with Some k => [k] | None => [] end) rows).

Definition rows_of (k : Key) (rows : list Row) : list Row :=
  filter (has_key k) rows.

(** [df.groupby(keys)], iterated: the groups in key order, the rows of a
    group in frame order. *)
Definition groupby (rows : list Row) : list (Key * list Row) :=
  map (fun k => (k, rows_of k rows)) (group_keys rows).

(** [df.groupby(keys).filter(func)]: the rows of the groups that pass, in
    frame order. *)
Definition groupby_filter (func : list Row -> bool) (rows : list Row) : list Row :=
  filter (fun r => match key r with
                   | Some k => func (rows_of k rows)
                   | None => false
                   end) rows.

End Frames.

(** [series.value_counts()]: the values with their counts, most frequent
    first; among values of equal count the one met first comes first. *)
Fixpoint count_occ (x : text) (xs : list text) : nat :=
  match xs with
  | [] => O
  | y :: xs' => (if text_eqb x y then 1 else 0) + count_occ x xs'
  end.

Fixpoint unique (xs : list text) : list text :=
  match xs with
  | [] => []
  | x :: xs' => x :: filter (fun y => negb (text_eqb x y)) (unique xs')
  end.

Fixpoint insert_count (p : text * nat) (ps : list (text * nat)) : list (text * nat) :=
  match ps with
  | [] => [p]
  | q :: ps' => if (snd q <=? snd p)%nat then p :: ps else q :: insert_count p ps'
  end.

Definition value_counts (xs : list text) : list (text * nat) :=
  fold_right insert_count [] (map (fun x => (x, count_occ x xs)) (unique xs)).

End Pandas.

(** ** The duplicate detector *)

Inductive duplicate : Type :=
| Exact_content_match (Files : list text) (fingerprint : text)
| Same_date_amount_and_type (Files : list text) (date amount type_ : text).

Fixpoint text_compare (a b : text) : comparison :=
  match a, b with
  | [], [] => Eq
  | [], _ :: _ => Lt
  | _ :: _, [] => Gt
  | x :: a', y :: b' =>
      match x ?= y with
      | Eq => text_compare a' b'
      | c => c
      end
  end.

Definition triple : Type := text * text * text.

Definition triple_compare (k k' : triple) : comparison :=
  let '(d, a, t) := k in
  let '(d', a', t') := k' in
  match text_compare d d' with
  | Eq => match text_compare a a' with
          | Eq => text_compare t t'
          | c => c
          end
  | c => c
  end.

(** The columns ['Date', 'Amount', 'Type'] of a row; a missing value in one
    of them leaves the row without a group key. *)
Definition date_amount_type (r : BillRecord) : option triple :=
  match Date r, Amount r, Type_ r with
  | Some d, Some a, Some t => Some (d, a, t)
  | _, _, _ => None
  end.

(** [set(...)] of a column *)
Definition distinct (xs : list text) : list text := Pandas.unique xs.

(** The first loop: fingerprints that occur more than once. *)
Definition exact_content_pass (df : list BillRecord) : list duplicate :=
  let fingerprint_counts := Pandas.value_counts (map Fingerprint df) in
  let duplicate_fingerprints :=
    map fst (filter (fun p => (1 <? snd p)%nat) fingerprint_counts) in
  map (fun fingerprint =>
         let matching_files :=
           map Filename (filter (fun r => text_eqb (Fingerprint r) fingerprint) df) in
         Exact_content_match matching_files fingerprint)
      duplicate_fingerprints.

(** The second loop: groups of equal date, amount and type with different
    fingerprints. *)
Definition same_date_amount_type_pass (df : list BillRecord) : list duplicate :=
  let potential_dupes :=
    Pandas.groupby_filter triple_compare date_amount_type
      (fun x => (1 <? length x)%nat) df in
  flat_map
    (fun '((d, a, t), group) =>
       if (1 <? length group)%nat && (1 <? length (distinct (map Fingerprint group)))%nat
       then [Same_date_amount_and_type (map Filename group) d a t]
       else [])
    (Pandas.groupby triple_compare date_amount_type potential_dupes).

(** A frame built from no record has no column, and selecting
    ['Fingerprint'] raises; a frame of records has every column. *)
Definition identify_duplicates (bill_data : list BillRecord) : result (list duplicate) :=
  match bill_data with
  | [] => Raised (KeyError (str "Fingerprint"))
  | _ :: _ => Ok (exact_content_pass bill_data ++ same_date_amount_type_pass bill_data)
  end.

(** ** Notions the statements are written with *)

(** The records of the documents whose extraction does not fail. *)
Definition successful_records (folder : list dir_entry) : list BillRecord :=
  flat_map (fun e => if is_image e
                     then match try_block e with
                          | Ok record => [record]
                          | Raised _ => []
                          end
                     else []) folder.

(** A document fails when its [try] block raises. *)
Definition fails (e : dir_entry) : Prop :=
  is_image e = true /\ exists err, try_block e = Raised err.

(** The line that reports a document: that it was processed, or the error
    of its extraction. *)
Definition report (e : dir_entry) : line :=
  match try_block e with
  | Ok _ => Processed (entry_name e)
  | Raised err => Error_processing (entry_name e) err
  end.

(** The console prints the report of every image file of the folder. *)
Definition prints_reports (print : console) (folder : list dir_entry) : Prop :=
  forall e, In e folder -> is_image e = true -> print (report e) = None.

(** The file a printed line is about. *)
Definition line_name (l : line) : text :=
  match l with
  | Processed filename => filename
  | Error_processing filename _ => filename
  end.

(** The records of a frame whose date, amount and type are all present and
    equal to the given ones. *)
Definition with_triple (d a t : text) (r : BillRecord) : bool :=
  match Date r, Amount r, Type_ r with
  | Some d', Some a', Some t' => text_eqb d' d && text_eqb a' a && text_eqb t' t
  | _, _, _ => false
  end.

(** A group of files with a date, an amount and a type is made of all the
    records that carry the three, at least two of them, two of them with
    different fingerprints. *)
Definition group_of_different_scans (bill_data : list BillRecord) (files : list text)
           (d a t : text) : Prop :=
  exists members,
    members = filter (with_triple d a t) bill_data
    /\ files = map Filename members
    /\ (2 <= length members)%nat
    /\ Forall (fun r => Date r = Some d /\ Amount r = Some a /\ Type_ r = Some t) members
    /\ (exists r1 r2, In r1 members /\ In r2 members
                      /\ Fingerprint r1 <> Fingerprint r2)
    /\ ~ (exists fingerprint, Forall (fun r => Fingerprint r = fingerprint) members).

Definition absent_field (r : BillRecord) : Prop :=
  Date r = None \/ Amount r = None \/ Type_ r = None.

(** Two characters that are one letter in either case: they have the same
    lower-case form. *)
Definition same_letter (c c' : char) : Prop := lower_full c = lower_full c'.

(** The capital sigma, whose lower-case form depends on its neighbours. *)
Definition capital_sigma : char := 0x3A3.

(** Two texts that differ only in letter case and in white space: letters
    may change case, white-space characters may be put in, taken out or
    exchanged for other ones anywhere. *)
Inductive differ_in_case_and_space_only : text -> text -> Prop :=
| both_end : differ_in_case_and_space_only [] []
| same_char c t t' :
    differ_in_case_and_space_only t t' ->
    differ_in_case_and_space_only (c :: t) (c :: t')
| other_case c c' t t' :
    same_letter c c' ->
    differ_in_case_and_space_only t t' ->
    differ_in_case_and_space_only (c :: t) (c' :: t')
| space_left c t t' :
    is_space c = true ->
    differ_in_case_and_space_only t t' ->
    differ_in_case_and_space_only (c :: t) t'
| space_right c t t' :
    is_space c = true ->
    differ_in_case_and_space_only t t' ->
    differ_in_case_and_space_only t (c :: t').

(** Every maximal run of white space replaced by [repl]. *)
Fixpoint replace_space_runs (repl : text) (t : text) : text :=
  match t with
  | [] => []
  | c :: t' =>
      if is_space c then
        match t' with
        | c' :: _ => if is_space c' then replace_space_runs repl t'
                     else repl ++ replace_space_runs repl t'
        | [] => repl
        end
      else c :: replace_space_runs repl t'
  end.

Fixpoint drop_while (p : char -> bool) (s : text) : text :=
  match s with
  | c :: s' => if p c then drop_while p s' else s
  | [] => []
  end.

(** What the star loops compute when the body is one character of a class:
    the longest run first for the greedy loop, the shortest first for the
    lazy one. *)
Fixpoint greedy_class {A} (p : char -> bool) (k : text -> groups -> option A)
         (s : text) (g : groups) : option A :=
  match s with
  | c :: s' => if p c then or_else (greedy_class p k s' g) (k s g) else k s g
  | [] => k s g
  end.

Fixpoint lazy_class {A} (p : char -> bool) (k : text -> groups -> option A)
         (s : text) (g : groups) : option A :=
  match s with
  | c :: s' => or_else (k s g) (if p c then lazy_class p k s' g else None)
  | [] => k s g
  end.

(** The matches of a pattern, declaratively: [Matches fl r s g s' g'] when
    [r] can match at the front of [s] leaving [s'], taking the groups from
    [g] to [g']. *)
Inductive Matches (fl : flags) : regex -> text -> groups -> text -> groups -> Prop :=
| M_Eps s g : Matches fl Eps s g s g
| M_Lit x c s g : lit_ok fl x c = true -> Matches fl (Lit x) (c :: s) g s g
| M_Dot c s g : dot_ok fl c = true -> Matches fl Dot (c :: s) g s g
| M_Set items c s g : set_ok fl items c = true -> Matches fl (Set_ items) (c :: s) g s g
| M_Cat r1 r2 s g s1 g1 s2 g2 :
    Matches fl r1 s g s1 g1 -> Matches fl r2 s1 g1 s2 g2 ->
    Matches fl (Cat r1 r2) s g s2 g2
| M_Alt_l r1 r2 s g s' g' : Matches fl r1 s g s' g' -> Matches fl (Alt r1 r2) s g s' g'
| M_Alt_r r1 r2 s g s' g' : Matches fl r2 s g s' g' -> Matches fl (Alt r1 r2) s g s' g'
| M_Star_0 r s g : Matches fl (Star r) s g s g
| M_Star_S r s g s1 g1 s2 g2 :
    Matches fl r s g s1 g1 -> Matches fl (Star r) s1 g1 s2 g2 ->
    Matches fl (Star r) s g s2 g2
| M_Lazy_0 r s g : Matches fl (LazyStar r) s g s g
| M_Lazy_S r s g s1 g1 s2 g2 :
    Matches fl r s g s1 g1 -> Matches fl (LazyStar r) s1 g1 s2 g2 ->
    Matches fl (LazyStar r) s g s2 g2
| M_Group n r s g s1 g1 :
    Matches fl r s g s1 g1 ->
    Matches fl (Group n r) s g s1 ((n, consumed s s1) :: g1)
| M_Dollar s g : s = [] \/ s = [10] -> Matches fl Dollar s g s g.

(** A matching function finds only matches of the pattern [r]. *)
Definition sound_body (A : Type) (fl : flags) (r : regex)
           (body : text -> groups -> (text -> groups -> option A) -> option A) : Prop :=
  forall s g k x,
    body s g k = Some x ->
    exists s' g', Matches fl r s g s' g' /\ k s' g' = Some x.

(** The continuation that accepts what is left. *)
Definition accept : text -> groups -> option (text * groups) := fun s g => Some (s, g).

(** The numbers of the groups of a pattern. *)
Fixpoint groups_of (r : regex) : list nat :=
  match r with
  | Cat r1 r2 | Alt r1 r2 => groups_of r1 ++ groups_of r2
  | Star r1 | LazyStar r1 => groups_of r1
  | Group n r1 => n :: groups_of r1
  | _ => []
  end.


(** [v] occurs in [t]. *)
Definition occurs_in (v t : text) : Prop :=
  exists before after, t = before ++ v ++ after.

(** A pattern matches somewhere in a text; its first match in document
    order, the one at the leftmost position that has a match, reports [v]
    for its group. *)
Definition matches_somewhere (r : regex) (t : text) : Prop :=
  exists before s, t = before ++ s /\ match_at I r false s <> None.

Definition first_match (r : regex) (t v : text) : Prop :=
  exists before s s' g,
    t = before ++ s
    /\ match_at I r false s = Some (s', g)
    /\ v = group_text 1 g
    /\ forall before' s2,
        t = before' ++ s2 -> (length before' < length before)%nat ->
        match_at I r false s2 = None.

(** The extractor's answer is the first match of the first pattern of the
    list that matches anywhere. *)
Definition first_match_of_first_pattern (patterns : list regex) (t : text)
           (answer : option text) : Prop :=
  exists earlier pattern later v,
    patterns = earlier ++ pattern :: later
    /\ (forall p, In p earlier -> ~ matches_somewhere p t)
    /\ first_match pattern t v
    /\ answer = Some v.

(** A character in its lower-case form: the lower-case mapping leaves it
    as it is. *)
Definition lowered_char (d : char) : bool :=
  (Unicode.tolower d =? d) && negb (d =? 0x130) && negb (d =? 0x3A3).

(** The characters whose lower-case form is [d]. *)
Definition lower_preimage (d : char) : list char :=
  (if Unicode.tolower d =? d then [d] else [])
  ++ map fst (filter (fun p => snd p =? d) Unicode.lowercase_pairs).

(** The forms of a small letter of the Basic Latin block when letter case
    is ignored: the small and the capital letter, and the other characters
    with the same capital or small letter, which are the long s for s, the
    capital i with a dot and the dotless i for i, the Kelvin sign for k. *)
Definition letter_forms (x : char) : list char :=
  [x; x - 32]
  ++ (if x =? 115 then [0x17F]
      else if x =? 105 then [0x130; 0x131]
      else if x =? 107 then [0x212A]
      else []).

Definition case_forms (x : char) : list char :=
  if is_lower x then letter_forms x
  else if is_upper x then letter_forms (x + 32)
  else [x].

(** [c] is the character [x] of a word when letter case is ignored. *)
Definition same_ignoring_case (x c : char) : bool := among (case_forms x) c.

(** A word of the Basic Latin block. *)
Definition basic_latin (w : text) : Prop := Forall (fun x => x < 128) w.

(** One list holds every character of the other. *)
Definition included (l1 l2 : list char) : bool := forallb (among l2) l1.

(** The matcher and the forms of a character agree on a pattern
    character. *)
Definition forms_agree (x : char) : bool :=
  if Unicode.iscased x
  then included (flat_map lower_preimage (lowered x)) (case_forms x)
       && included (case_forms x) (flat_map lower_preimage (lowered x))
  else text_eqb (case_forms x) [x].

(** [mid] spells the word [w] in some letter case. *)
Fixpoint spells (w mid : text) : bool :=
  match w, mid with
  | [], [] => true
  | x :: w', c :: mid' => same_ignoring_case x c && spells w' mid'
  | _, _ => false
  end.

(** [w] occurs in [t] in some mixture of upper and lower case. *)
Definition contains_ci (w t : text) : Prop :=
  exists before mid after, t = before ++ mid ++ after /\ spells w mid = true.

(** [s] begins with [w] in some mixture of upper and lower case. *)
Fixpoint starts_with_ci (w s : text) : bool :=
  match w, s with
  | [], _ => true
  | x :: w', c :: s' => same_ignoring_case x c && starts_with_ci w' s'
  | _ :: _, [] => false
  end.

(** What follows the name in a tariff pattern. *)
Definition after_tariff_name : regex :=
  sequence [Star Space; Lit 40; Star Space; Group 2 date_pattern_part; Star Space;
            Lit 45; Star Space; Group 3 date_pattern_part; Star Space; Lit 41].

(** *** The address, in the words of the specification *)

(** The text after a label that stands at the front of [s]: "Supply", white
    space, "Address" for the first pattern, "Address" for the second. *)
Definition supply_address_label (s : text) : option text :=
  if starts_with_ci (str "Supply") s then
    match skipn 6 s with
    | c :: s1 =>
        if is_space c && starts_with_ci (str "Address") (lstrip s1)
        then Some (skipn 7 (lstrip s1))
        else None
    | [] => None
    end
  else None.

Definition address_label (s : text) : option text :=
  if starts_with_ci (str "Address") s then Some (skipn 7 s) else None.

(** The first place of the text, from the left, where a label stands. *)
Fixpoint find_label (label : text -> option text) (t : text) : option text :=
  match label t with
  | Some rest => Some rest
  | None =>
      match t with
      | [] => None
      | _ :: t' => find_label label t'
      end
  end.

Definition skip_colon (s : text) : text :=
  match s with
  | c :: s' => if c =? 58 then s' else s
  | [] => []
  end.

(** The text before the first "Postcode", all of it when there is none. *)
Fixpoint up_to_first_postcode (s : text) : text :=
  if starts_with_ci (str "Postcode") s then []
  else match s with
       | [] => []
       | c :: s' => c :: up_to_first_postcode s'
       end.

(** The text before the last "Postcode", all of it when there is none: the
    longest capture that a "Postcode" follows. *)
Fixpoint has_postcode (s : text) : bool :=
  starts_with_ci (str "Postcode") s
  || match s with
     | [] => false
     | _ :: s' => has_postcode s'
     end.

Fixpoint up_to_last_postcode (s : text) : text :=
  match s with
  | [] => []
  | c :: s' =>
      if has_postcode s' then c :: up_to_last_postcode s'
      else if starts_with_ci (str "Postcode") s then []
           else c :: up_to_last_postcode s'
  end.

(** The address as the specification words it, for a way to capture the
    text after the label: the first pattern's label if the text has one,
    else the second's; an optional colon and white space are skipped, the
    capture is trimmed and its white-space runs become one space each. *)
Definition address_with (capture : text -> text) (t : text) : option text :=
  let address_of rest :=
    replace_space_runs [32] (strip (capture (lstrip (skip_colon rest)))) in
  match find_label supply_address_label t with
  | Some rest => Some (address_of rest)
  | None => option_map address_of (find_label address_label t)
  end.

(** As claimed: a greedy capture up to "Postcode". *)
Definition address_as_claimed : text -> option text :=
  address_with up_to_last_postcode.

(** As the code has it: the shortest capture, up to the first "Postcode". *)
Definition address_as_amended : text -> option text :=
  address_with up_to_first_postcode.

(** Where the lazy capture of the address patterns stops, what it has
    taken by then and what the match leaves. *)
Definition capture_stop (s : text) : bool :=
  starts_with_ci (str "Postcode") s || at_end s.

Fixpoint captured (s : text) : text :=
  if capture_stop s then []
  else match s with
       | [] => []
       | c :: s' => c :: captured s'
       end.

Fixpoint after_capture (s : text) : text :=
  if capture_stop s
  then if starts_with_ci (str "Postcode") s then skipn 8 s else s
  else match s with
       | [] => []
       | _ :: s' => after_capture s'
       end.

(** [:?\s*(.*?)(?:Postcode|$)], the end of both address patterns. *)
Definition address_tail : regex :=
  sequence ([opt colon; Star Space] ++ address_body).

(** *** Examples *)

Definition good_entry : dir_entry :=
  {| entry_name := str "may.PNG"; entry_isfile := true;
     entry_ocr := Ok (str "Gas bill 12/05/2025 Total: £50.00") |}.

Definition bad_entry : dir_entry :=
  {| entry_name := str "torn.jpg"; entry_isfile := true;
     entry_ocr := Raised (Exception (str "cannot identify image file")) |}.

(** A console that prints every line, and one that raises on a line
    about a file whose name UTF-8 cannot encode. *)
Definition terminal : console := fun _ => None.

Definition strict_terminal : console :=
  fun l => match encode (line_name l) with
           | Some _ => None
           | None => Some UnicodeEncodeError
           end.

(** A file whose name holds a byte that the file system could not decode,
    which [os.listdir] hands over as a lone surrogate. *)
Definition undecodable_entry : dir_entry :=
  {| entry_name := str "caf" ++ [0xDCE9] ++ str ".jpg"; entry_isfile := true;
     entry_ocr := Raised (Exception (str "cannot identify image file")) |}.

Definition example_record (filename : string) (date : option string)
           (amount type_ fingerprint : string) : BillRecord :=
  {| Filename := str filename; Date := option_map str date; Tariff := None;
     Start_Date := None; End_Date := None; Amount := Some (str amount);
     Type_ := Some (str type_); Account_Number := None; Meter_Number := None;
     Address := None; Fingerprint := str fingerprint |}.

Definition scan_a : BillRecord :=
  example_record "a.png" (Some "12 May 2025"%string) "50.00" "Unknown" "0f5c6c4e".
Definition scan_b : BillRecord :=
  example_record "b.png" (Some "12 May 2025"%string) "50.00" "Unknown" "900150983".
Definition scan_undated : BillRecord :=
  example_record "c.png" None "50.00" "Unknown" "d41d8cd9".

Definition example_batch : list BillRecord := [scan_a; scan_undated; scan_b].

Definition example_group : duplicate :=
  Same_date_amount_and_type [str "a.png"; str "b.png"]
    (str "12 May 2025") (str "50.00") (str "Unknown").


(** ** Notions of the further properties *)

(** The fingerprints and the triples that a list of duplicate groups
    reports. *)
Definition reported_fingerprints (dups : list duplicate) : list text :=
  flat_map (fun d => match d with
                     | Exact_content_match _ fingerprint => [fingerprint]
                     | Same_date_amount_and_type _ _ _ _ => []
                     end) dups.

Definition reported_triples (dups : list duplicate) : list triple :=
  flat_map (fun d => match d with
                     | Exact_content_match _ _ => []
                     | Same_date_amount_and_type _ d a t => [(d, a, t)]
                     end) dups.

(** The records of a frame with the given fingerprint. *)
Definition with_fingerprint (fingerprint : text) (r : BillRecord) : bool :=
  text_eqb (Fingerprint r) fingerprint.

(** A list of keys in strictly ascending order of a comparison. *)
Fixpoint ascending {K : Type} (cmp : K -> K -> comparison) (l : list K) : Prop :=
  match l with
  | [] => True
  | k :: l' => Forall (fun k' => cmp k k' = Lt) l' /\ ascending cmp l'
  end.

(** The comparison of pairs, first components first. *)
Definition pair_compare {A B : Type} (cmpA : A -> A -> comparison)
           (cmpB : B -> B -> comparison) (p q : A * B) : comparison :=
  match cmpA (fst p) (fst q) with
  | Eq => cmpB (snd p) (snd q)
  | c => c
  end.

(** What makes a comparison a strict total order. *)
Definition is_order {K : Type} (cmp : K -> K -> comparison) : Prop :=
  (forall a b, cmp a b = Eq <-> a = b)
  /\ (forall a b, cmp b a = CompOpp (cmp a b))
  /\ (forall a b c, cmp a b = Lt -> cmp b c = Lt -> cmp a c = Lt).

(** The line that is printed for an image file when the loop goes on:
    "Processed", or the error of the extraction, or the error of printing
    "Processed". *)
Definition printed_line (print : console) (e : dir_entry) : line :=
  match try_block e with
  | Ok _ => match print (Processed (entry_name e)) with
            | None => Processed (entry_name e)
            | Some err => Error_processing (entry_name e) err
            end
  | Raised err => Error_processing (entry_name e) err
  end.

(** What stops the loop at an entry: the exception that the console raises
    on the error line of an image file. *)
Definition stops_at (print : console) (e : dir_entry) : option exception :=
  if is_image e
  then match printed_line print e with
       | Processed _ => None
       | Error_processing _ _ => print (printed_line print e)
       end
  else None.

(** A stem that is more than dots. *)
Definition proper_stem (root : text) : bool :=
  existsb (fun c => negb (c =? 46)) root.

(** The digits of [hexdigest]. *)
Definition hex_char (c : char) : bool :=
  is_digit c || ((97 <=? c) && (c <=? 102)).

(** Code points UTF-8 has no encoding for: the surrogates, and what lies
    beyond the last code point. *)
Definition unencodable (c : char) : Prop :=
  55296 <= c <= 57343 \/ 1114112 <= c.

(** The bodies of the groups numbered [n] in a pattern. *)
Fixpoint group_bodies (n : nat) (r : regex) : list regex :=
  match r with
  | Cat r1 r2 | Alt r1 r2 => group_bodies n r1 ++ group_bodies n r2
  | Star r1 | LazyStar r1 => group_bodies n r1
  | Group i r1 => (if Nat.eqb i n then [r1] else []) ++ group_bodies n r1
  | _ => []
  end.

(** Group [n] takes part in every match of the pattern. *)
Fixpoint always_sets (n : nat) (r : regex) : bool :=
  match r with
  | Cat r1 r2 => always_sets n r1 || always_sets n r2
  | Alt r1 r2 => always_sets n r1 && always_sets n r2
  | Group i r1 => Nat.eqb i n || always_sets n r1
  | _ => false
  end.

(** A pattern list answers with the first match of its first pattern that
    matches anywhere, and with nothing when no pattern matches anywhere. *)
Definition first_pattern_rule (patterns : list regex) (t : text)
           (answer : option text) : Prop :=
  (answer = None <-> forall p, In p patterns -> ~ matches_somewhere p t)
  /\ ((exists p, In p patterns /\ matches_somewhere p t) ->
      first_match_of_first_pattern patterns t answer).

(** The texts of the Latin-1 range: their only cased letters that the
    patterns match and their only decimal digits are those of the Basic
    Latin block. *)
Definition latin1 (t : text) : Prop := Forall (fun c => c < 256) t.

Definition is_alnum (c : char) : bool := is_digit c || is_upper c || is_lower c.

(** The characters of an account number: letters, digits, a hyphen or
    white space. *)
Definition account_char (c : char) : bool := is_alnum c || (c =? 45) || is_space c.

(** The words of [month]. *)
Definition month_names : list text :=
  [str "Jan"; str "Feb"; str "Mar"; str "Apr"; str "May"; str "Jun";
   str "Jul"; str "Aug"; str "Sep"; str "Oct"; str "Nov"; str "Dec"].

Definition starts_alnum (w : text) : bool :=
  match w with
  | c :: _ => is_alnum c
  | [] => false
  end.

(** A date as the patterns take it from the text: from a letter or a
    digit to a digit. *)
Definition raw_date (v : text) : Prop :=
  exists c w d, v = c :: w ++ [d] /\ is_alnum c = true /\ is_digit d = true.

(** What the tariff loop answers for a list of names: nothing at all, and
    then the pattern of no name matches; or a tariff and two dates, and
    then they belong to the first name of the list whose pattern matches
    somewhere: the tariff spells that name in some letter case, the dates
    have the shape of a date, and the three stand in the text in this
    order. *)
Definition tariff_answer (names : list text) (t : text)
           (answer : option text * option text * option text) : Prop :=
  match answer with
  | (None, None, None) =>
      forall name, In name names -> ~ matches_somewhere (tariff_pattern name) t
  | (Some tariff, Some start_date, Some end_date) =>
      exists earlier name later,
        names = earlier ++ name :: later
        /\ (forall n, In n earlier -> ~ matches_somewhere (tariff_pattern n) t)
        /\ matches_somewhere (tariff_pattern name) t
        /\ spells name tariff = true
        /\ raw_date start_date /\ raw_date end_date
        /\ exists before gap1 gap2 after,
            t = before ++ tariff ++ gap1 ++ start_date ++ gap2 ++ end_date ++ after
  | _ => False
  end.

(** No white-space character is followed by another one. *)
Fixpoint spaced_once (a : text) : Prop :=
  match a with
  | c1 :: ((c2 :: _) as rest) =>
      (is_space c1 = true -> is_space c2 = false) /\ spaced_once rest
  | _ => True
  end.

(** No white space at either end. *)
Definition trimmed (a : text) : Prop :=
  lstrip a = a /\ lstrip (rev a) = rev a.

(** *** Examples *)

Definition scan_a_copy : BillRecord :=
  example_record "a-copy.png" (Some "12 May 2025"%string) "50.00" "Unknown" "0f5c6c4e".

Definition copied_batch : list BillRecord := [scan_a; scan_a_copy; scan_b].

Definition copied_groups : list duplicate :=
  [Exact_content_match [str "a.png"; str "a-copy.png"] (str "0f5c6c4e");
   Same_date_amount_and_type [str "a.png"; str "a-copy.png"; str "b.png"]
     (str "12 May 2025") (str "50.00") (str "Unknown")].

Definition lone_surrogate : char := 55296.

Definition example_bill : text :=
  str "Electricity bill 12 May 2025
Cosy OCTOPUS (1st April 2025 - 30th April 2025)
Account Number: 1234-5678
Meter Number: 17K0160497
Supply Address: 1 High Street
   Leeds   Postcode LS1 4AP
Total: £50.00".


(** * Properties *)

(** ** The batch loop *)

Lemma successful_records_app (l1 l2 : list dir_entry) :
  successful_records (l1 ++ l2) = successful_records l1 ++ successful_records l2.
Proof. apply flat_map_app. Qed.

Lemma for_loop_reports (print : console) (folder : list dir_entry) (st : batch_state) :
  prints_reports print folder ->
  for_loop print folder st
  = Ok {| bill_data := bill_data st ++ successful_records folder;
          stdout := stdout st ++ map report (filter is_image folder) |}.
Proof.
  revert st. induction folder as [|e folder IH]; intros st Hp.
  - simpl. rewrite !app_nil_r. now destruct st.
  - assert (Hrest : prints_reports print folder).
    { intros e' He'. apply Hp. now right. }
    specialize (Hp e (or_introl eq_refl)). unfold report in Hp.
    cbn [for_loop successful_records flat_map filter]. unfold process_entry.
    destruct (is_image e).
    + specialize (Hp eq_refl). unfold except_clause. cbn [map].
      assert (E : report e = match try_block e with
                             | Ok _ => Processed (entry_name e)
                             | Raised err => Error_processing (entry_name e) err
                             end) by reflexivity.
      destruct (try_block e) as [record|err]; rewrite Hp, E, (IH _ Hrest);
        cbn [bill_data stdout]; rewrite <- ?app_assoc; reflexivity.
    + now rewrite (IH _ Hrest).
Qed.

Lemma process_bill_images_successful (print : console) (folder : list dir_entry) :
  prints_reports print folder ->
  process_bill_images print folder = Ok (successful_records folder).
Proof.
  intros Hp. unfold process_bill_images, process_bill_images_state.
  now rewrite (for_loop_reports _ Hp).
Qed.

(** C6, as the code has it: as long as the console prints the report of
    every file, the batch returns exactly the records of the documents whose processing
    succeeds, in the order of the enumeration; a failing document adds no
    record and the documents after it are processed as if it had not been
    there. *)
Theorem process_bill_images_isolates_failures (print : console) :
  (forall folder,
      prints_reports print folder ->
      process_bill_images print folder = Ok (successful_records folder))
  /\ (forall before e after,
        prints_reports print (before ++ e :: after) ->
        fails e ->
        process_bill_images print (before ++ e :: after)
        = Ok (successful_records before ++ successful_records after)).
Proof.
  split; [apply process_bill_images_successful|].
  intros before e after Hp [Himg [err Herr]].
  rewrite (process_bill_images_successful Hp).
  change (e :: after) with ([e] ++ after).
  rewrite !successful_records_app. simpl.
  now rewrite Himg, Herr.
Qed.

Lemma process_bill_images_isolates_failures_witness :
  prints_reports terminal ([good_entry] ++ bad_entry :: [good_entry])
  /\ fails bad_entry
  /\ process_bill_images terminal ([good_entry] ++ bad_entry :: [good_entry])
     = Ok (successful_records [good_entry] ++ successful_records [good_entry]).
Proof.
  assert (Hp : prints_reports terminal ([good_entry] ++ bad_entry :: [good_entry]))
    by (intros e _ _; reflexivity).
  assert (H : fails bad_entry).
  { split; [vm_compute; reflexivity|]. eexists; reflexivity. }
  split; [exact Hp|]. split; [exact H|].
  exact (proj2 (process_bill_images_isolates_failures terminal)
               [good_entry] bad_entry [good_entry] Hp H).
Defined.

(** On a console that cannot print the name of a failing file, the error
    report raises in its turn and the batch is aborted: the record of the
    good file is not returned. *)
Lemma process_bill_images_aborts_counterexample :
  fails undecodable_entry
  /\ successful_records [undecodable_entry; good_entry] <> []
  /\ process_bill_images strict_terminal [undecodable_entry; good_entry]
     = Raised UnicodeEncodeError.
Proof.
  split; [|split].
  - split; [vm_compute; reflexivity|]. eexists; reflexivity.
  - vm_compute. discriminate.
  - vm_compute. reflexivity.
Qed.

(** ** Grouping *)

Lemma text_eqb_eq (a b : text) : text_eqb a b = true <-> a = b.
Proof.
  revert b; induction a as [|x a IH]; intros [|y b]; simpl; try easy.
  rewrite andb_true_iff, N.eqb_eq, IH. split.
  - now intros [-> ->].
  - intros H; injection H; auto.
Qed.

Lemma text_eqb_refl (a : text) : text_eqb a a = true.
Proof. now apply text_eqb_eq. Qed.

Lemma text_compare_eq (a b : text) : text_compare a b = Eq <-> a = b.
Proof.
  revert b; induction a as [|x a IH]; intros [|y b]; simpl; try easy.
  destruct (x ?= y) eqn:E.
  - apply N.compare_eq_iff in E; subst. rewrite IH. split; [now intros ->|].
    intros H; injection H; auto.
  - split; [easy|]. intros H; injection H; intros _ ->.
    rewrite N.compare_refl in E; discriminate.
  - split; [easy|]. intros H; injection H; intros _ ->.
    rewrite N.compare_refl in E; discriminate.
Qed.

Lemma triple_compare_eq (k k' : triple) : triple_compare k k' = Eq <-> k = k'.
Proof.
  destruct k as [[d a] t], k' as [[d' a'] t']; simpl.
  destruct (text_compare d d') eqn:Ed.
  - destruct (text_compare a a') eqn:Ea.
    + apply text_compare_eq in Ed, Ea; subst. rewrite text_compare_eq.
      split; [now intros ->|]. intros H; injection H; auto.
    + split; [easy|]. intros H; injection H; intros _ <- _.
      rewrite (proj2 (text_compare_eq a a) eq_refl) in Ea; discriminate.
    + split; [easy|]. intros H; injection H; intros _ <- _.
      rewrite (proj2 (text_compare_eq a a) eq_refl) in Ea; discriminate.
  - split; [easy|]. intros H; injection H; intros _ _ <-.
    rewrite (proj2 (text_compare_eq d d) eq_refl) in Ed; discriminate.
  - split; [easy|]. intros H; injection H; intros _ _ <-.
    rewrite (proj2 (text_compare_eq d d) eq_refl) in Ed; discriminate.
Qed.

Section GroupingFacts.

Variables Row Key : Type.
Variable key_compare : Key -> Key -> comparison.
Variable key : Row -> option Key.
Hypothesis key_compare_eq : forall k k', key_compare k k' = Eq <-> k = k'.

Local Abbreviation has_key := (Pandas.has_key key_compare key).
Local Abbreviation rows_of := (Pandas.rows_of key_compare key).
Local Abbreviation group_keys := (Pandas.group_keys key_compare key).
Local Abbreviation groupby := (Pandas.groupby key_compare key).
Local Abbreviation groupby_filter := (Pandas.groupby_filter key_compare key).

Lemma has_key_iff (k : Key) (r : Row) : has_key k r = true <-> key r = Some k.
Proof.
  unfold Pandas.has_key. destruct (key r) as [k'|]; [|easy].
  destruct (key_compare k' k) eqn:E.
  - apply key_compare_eq in E; subst; easy.
  - split; [easy|]. intros H; injection H; intros ->.
    rewrite (proj2 (key_compare_eq k k) eq_refl) in E; discriminate.
  - split; [easy|]. intros H; injection H; intros ->.
    rewrite (proj2 (key_compare_eq k k) eq_refl) in E; discriminate.
Qed.

Lemma in_insert_key (k x : Key) (ks : list Key) :
  In x (Pandas.insert_key key_compare k ks) <-> x = k \/ In x ks.
Proof.
  induction ks as [|k' ks IH]; simpl.
  - intuition.
  - destruct (key_compare k k') eqn:E; simpl.
    + apply key_compare_eq in E; subst. intuition.
    + intuition.
    + rewrite IH. intuition.
Qed.

Lemma in_group_keys (k : Key) (rows : list Row) :
  In k (group_keys rows) <-> exists r, In r rows /\ key r = Some k.
Proof.
  unfold Pandas.group_keys.
  induction rows as [|r rows IH]; simpl.
  - split; [easy|]. now intros [r [[] _]].
  - destruct (key r) as [k'|] eqn:Ek; simpl.
    + rewrite in_insert_key, IH. split.
      * intros [->|[r' [Hin Hk]]]; [exists r; auto|exists r'; auto].
      * intros [r' [[<-|Hin] Hk]]; [left; congruence|right; exists r'; auto].
    + rewrite IH. split.
      * intros [r' [Hin Hk]]; exists r'; auto.
      * intros [r' [[<-|Hin] Hk]]; [congruence|exists r'; auto].
  Qed.

Lemma in_rows_of (k : Key) (r : Row) (rows : list Row) :
  In r (rows_of k rows) <-> In r rows /\ key r = Some k.
Proof. unfold Pandas.rows_of. now rewrite filter_In, has_key_iff. Qed.

Lemma in_groupby (k : Key) (rs rows : list Row) :
  In (k, rs) (groupby rows)
  <-> rs = rows_of k rows /\ exists r, In r rows /\ key r = Some k.
Proof.
  unfold Pandas.groupby. rewrite in_map_iff. split.
  - intros [k' [H Hin]]. injection H; intros <- <-.
    now rewrite <- in_group_keys.
  - intros [-> H]. exists k. now rewrite in_group_keys.
Qed.

(** A group that passed the size filter is found unchanged when the kept
    rows are grouped again. *)
Lemma rows_of_groupby_filter (func : list Row -> bool) (k : Key) (rows : list Row) :
  rows_of k (groupby_filter func rows)
  = if func (rows_of k rows) then rows_of k rows else [].
Proof.
  unfold Pandas.groupby_filter, Pandas.rows_of at 1.
  set (all := rows_of k rows).
  assert (E : forall l,
    filter (has_key k)
      (filter (fun r => match key r with
                        | Some accept => func (rows_of accept rows)
                        | None => false
                        end) l)
    = if func all then filter (has_key k) l else []).
  { induction l as [|r l IH]; simpl; [now destruct (func all)|].
    destruct (has_key k r) eqn:Hk.
    - pose proof (proj1 (has_key_iff k r) Hk) as Ek. rewrite Ek. fold all.
      destruct (func all) eqn:Hf; simpl; [now rewrite Hk, IH|apply IH].
    - destruct (match key r with Some accept => func (rows_of accept rows) | None => false end);
        simpl; [rewrite Hk|]; apply IH. }
  apply E.
Qed.

(** A row without a key takes no part in grouping. *)
Lemma rows_of_skip (k : Key) (r : Row) (l1 l2 : list Row) :
  key r = None -> rows_of k (l1 ++ r :: l2) = rows_of k (l1 ++ l2).
Proof.
  intros Hr. unfold Pandas.rows_of. rewrite !filter_app. simpl.
  unfold Pandas.has_key at 2. now rewrite Hr.
Qed.

Lemma groupby_filter_skip (func : list Row -> bool) (r : Row) (l1 l2 : list Row) :
  key r = None ->
  groupby_filter func (l1 ++ r :: l2) = groupby_filter func (l1 ++ l2).
Proof.
  intros Hr. unfold Pandas.groupby_filter.
  rewrite (filter_ext
             (fun r0 => match key r0 with
                        | Some k => func (rows_of k (l1 ++ r :: l2))
                        | None => false
                        end)
             (fun r0 => match key r0 with
                        | Some k => func (rows_of k (l1 ++ l2))
                        | None => false
                        end)).
  - rewrite !filter_app. simpl. now rewrite Hr.
  - intros r0. destruct (key r0); [|easy]. now rewrite rows_of_skip.
Qed.

End GroupingFacts.

(** ** The duplicate detector *)

Local Abbreviation rows_with := (Pandas.rows_of triple_compare date_amount_type).

Lemma date_amount_type_with_triple (d a t : text) (r : BillRecord) :
  date_amount_type r = Some (d, a, t) <-> with_triple d a t r = true.
Proof.
  unfold date_amount_type, with_triple.
  destruct (Date r), (Amount r), (Type_ r); try easy.
  rewrite !andb_true_iff, !text_eqb_eq. split.
  - intros H; injection H; auto.
  - now intros [[-> ->] ->].
Qed.

Lemma rows_with_triple (d a t : text) (df : list BillRecord) :
  rows_with (d, a, t) df = filter (with_triple d a t) df.
Proof.
  unfold Pandas.rows_of. apply filter_ext. intros r.
  apply eq_true_iff_eq.
  now rewrite (has_key_iff _ _ triple_compare_eq), date_amount_type_with_triple.
Qed.

Lemma two_members {X : Type} (x y : X) (l : list X) :
  In x l -> In y l -> x <> y -> (2 <= length l)%nat.
Proof.
  destruct l as [|a [|b l]]; simpl; try easy; [|lia].
  intros [<-|[]] [<-|[]]; congruence.
Qed.

Lemma in_unique (x : text) (xs : list text) : In x (Pandas.unique xs) <-> In x xs.
Proof.
  induction xs as [|y xs IH]; simpl; [easy|].
  rewrite filter_In, IH, negb_true_iff.
  destruct (text_eqb y x) eqn:E.
  - apply text_eqb_eq in E. intuition congruence.
  - intuition.
Qed.

Lemma unique_two (xs : list text) :
  (1 < length (Pandas.unique xs))%nat ->
  exists x y, In x xs /\ In y xs /\ x <> y.
Proof.
  destruct xs as [|x xs]; simpl; [lia|].
  destruct (filter _ _) as [|y rest] eqn:E; simpl; [lia|]. intros _.
  assert (Hy : In y (filter (fun y => negb (text_eqb x y)) (Pandas.unique xs)))
    by (rewrite E; now left).
  apply filter_In in Hy. destruct Hy as [Hy Hne].
  exists x, y. repeat split; auto.
  - right. now apply in_unique.
  - intros ->. now rewrite text_eqb_refl in Hne.
Qed.

(** What the second loop emits: one group for every triple that at least
    two rows carry with at least two different fingerprints, made of all the
    rows that carry it. *)
Lemma same_date_amount_type_pass_spec (df : list BillRecord) (files : list text)
      (d a t : text) :
  In (Same_date_amount_and_type files d a t) (same_date_amount_type_pass df)
  <-> files = map Filename (filter (with_triple d a t) df)
      /\ (1 < length (filter (with_triple d a t) df))%nat
      /\ (1 < length (distinct (map Fingerprint (filter (with_triple d a t) df))))%nat.
Proof.
  unfold same_date_amount_type_pass. rewrite in_flat_map.
  rewrite <- rows_with_triple.
  set (size := fun x : list BillRecord => (1 <? length x)%nat).
  split.
  - intros [[[[d' a'] t'] group] [Hin Hemit]].
    apply (in_groupby _ _ triple_compare_eq) in Hin.
    destruct Hin as [-> [r [Hr Hk]]].
    rewrite (rows_of_groupby_filter _ _ triple_compare_eq) in Hemit.
    assert (Hr' : In r (rows_with (d', a', t')
                          (Pandas.groupby_filter triple_compare date_amount_type size df)))
      by now apply (in_rows_of _ _ triple_compare_eq).
    rewrite (rows_of_groupby_filter _ _ triple_compare_eq) in Hr'.
    destruct (size (rows_with (d', a', t') df)) eqn:Hsize; [|easy].
    destruct ((1 <? length (rows_with (d', a', t') df))%nat
              && (1 <? length (distinct (map Fingerprint (rows_with (d', a', t') df))))%nat)
      eqn:Hc; [|easy].
    destruct Hemit as [Heq|[]]. injection Heq; intros <- <- <- <-.
    apply andb_true_iff in Hc. destruct Hc as [H1 H2].
    apply Nat.ltb_lt in H1, H2. auto.
  - intros [-> [H1 H2]].
    exists ((d, a, t), rows_with (d, a, t) df).
    assert (Hsize : size (rows_with (d, a, t) df) = true) by now apply Nat.ltb_lt.
    assert (Hpd : rows_with (d, a, t)
                    (Pandas.groupby_filter triple_compare date_amount_type size df)
                  = rows_with (d, a, t) df).
    { rewrite (rows_of_groupby_filter _ _ triple_compare_eq). now rewrite Hsize. }
    split.
    + apply (in_groupby _ _ triple_compare_eq). split; [now rewrite Hpd|].
      destruct (rows_with (d, a, t) df) as [|r rest] eqn:E; [simpl in H1; lia|].
      exists r. apply (in_rows_of _ _ triple_compare_eq). rewrite Hpd; rewrite ?E; now left.
    + apply Nat.ltb_lt in H1, H2. rewrite H1, H2. now left.
Qed.

Lemma identify_duplicates_same (bill_data : list BillRecord) (dups : list duplicate)
      (files : list text) (d a t : text) :
  identify_duplicates bill_data = Ok dups ->
  (In (Same_date_amount_and_type files d a t) dups
   <-> In (Same_date_amount_and_type files d a t) (same_date_amount_type_pass bill_data)).
Proof.
  destruct bill_data as [|r rest]; simpl; [easy|].
  intros H; injection H; intros <-. rewrite in_app_iff. split; [|auto].
  intros [Hin|Hin]; [|exact Hin].
  unfold exact_content_pass in Hin. apply in_map_iff in Hin.
  now destruct Hin as [fp [Hfp _]].
Qed.

(** C2: a group reported as "same date, amount and type" has at least two
    members, records of the batch that all carry the group's date, amount
    and type, and among them two with different fingerprints; records that
    share the triple and one fingerprint are not reported this way. *)
Theorem same_date_amount_type_groups
        (bill_data : list BillRecord) (dups : list duplicate)
        (files : list text) (d a t : text) :
  identify_duplicates bill_data = Ok dups ->
  In (Same_date_amount_and_type files d a t) dups ->
  group_of_different_scans bill_data files d a t.
Proof.
  intros Hrun Hin.
  apply (proj1 (@identify_duplicates_same bill_data dups files d a t Hrun)) in Hin.
  apply same_date_amount_type_pass_spec in Hin. destruct Hin as [-> [H1 H2]].
  exists (filter (with_triple d a t) bill_data).
  assert (Htwo : exists r1 r2,
             In r1 (filter (with_triple d a t) bill_data)
             /\ In r2 (filter (with_triple d a t) bill_data)
             /\ Fingerprint r1 <> Fingerprint r2).
  { destruct (unique_two _ H2) as [x [y [Hx [Hy Hxy]]]].
    apply in_map_iff in Hx, Hy.
    destruct Hx as [r1 [<- Hr1]], Hy as [r2 [<- Hr2]]. now exists r1, r2. }
  repeat split; auto.
  - apply Forall_forall. intros r Hr. apply filter_In in Hr. destruct Hr as [_ Hr].
    apply date_amount_type_with_triple in Hr. unfold date_amount_type in Hr.
    destruct (Date r), (Amount r), (Type_ r); try easy.
    injection Hr; intros -> -> ->; auto.
  - intros [fp Hall]. destruct Htwo as [r1 [r2 [Hr1 [Hr2 Hne]]]].
    rewrite Forall_forall in Hall.
    now rewrite (Hall _ Hr1), (Hall _ Hr2) in Hne.
Qed.

(** C7: the files of a "same date, amount and type" group are those of the
    records whose date, amount and type are all present and equal to the
    group's, so a record with an absent field is in none; leaving such a
    record out of the batch does not change the groups of this pass. *)
Theorem absent_fields_never_grouped :
  (forall bill_data dups files d a t,
      identify_duplicates bill_data = Ok dups ->
      In (Same_date_amount_and_type files d a t) dups ->
      files = map Filename (filter (with_triple d a t) bill_data)
      /\ forall r, absent_field r -> with_triple d a t r = false)
  /\ (forall before r after,
        absent_field r ->
        same_date_amount_type_pass (before ++ r :: after)
        = same_date_amount_type_pass (before ++ after)).
Proof.
  split.
  - intros bill_data dups files d a t Hrun Hin.
    apply (proj1 (@identify_duplicates_same bill_data dups files d a t Hrun)) in Hin.
    apply same_date_amount_type_pass_spec in Hin. split; [easy|].
    intros r [H|[H|H]]; unfold with_triple; rewrite H; try easy.
    + now destruct (Date r).
    + now destruct (Date r), (Amount r).
  - intros before r after Habs. unfold same_date_amount_type_pass.
    rewrite groupby_filter_skip; [reflexivity|].
    unfold date_amount_type.
    destruct Habs as [H|[H|H]]; rewrite H; try easy.
    + now destruct (Date r).
    + now destruct (Date r), (Amount r).
Qed.

(** C9: two records of a batch with the same present date and amount, both
    of type "Unknown", and different fingerprints are reported together in
    a "same date, amount and type" group. *)
Theorem unknown_type_is_a_key
        (bill_data : list BillRecord) (r1 r2 : BillRecord) (d a : text) :
  In r1 bill_data -> In r2 bill_data ->
  Date r1 = Some d -> Date r2 = Some d ->
  Amount r1 = Some a -> Amount r2 = Some a ->
  Type_ r1 = Some (str "Unknown") -> Type_ r2 = Some (str "Unknown") ->
  Fingerprint r1 <> Fingerprint r2 ->
  exists dups files,
    identify_duplicates bill_data = Ok dups
    /\ In (Same_date_amount_and_type files d a (str "Unknown")) dups
    /\ In (Filename r1) files /\ In (Filename r2) files.
Proof.
  intros Hin1 Hin2 Hd1 Hd2 Ha1 Ha2 Ht1 Ht2 Hfp.
  set (t := str "Unknown") in *.
  assert (Hr1 : In r1 (filter (with_triple d a t) bill_data)).
  { apply filter_In. split; [easy|]. unfold with_triple.
    now rewrite Hd1, Ha1, Ht1, !text_eqb_refl. }
  assert (Hr2 : In r2 (filter (with_triple d a t) bill_data)).
  { apply filter_In. split; [easy|]. unfold with_triple.
    now rewrite Hd2, Ha2, Ht2, !text_eqb_refl. }
  destruct bill_data as [|r0 rest] eqn:E; [easy|]. rewrite <- E in *.
  exists (exact_content_pass bill_data ++ same_date_amount_type_pass bill_data),
         (map Filename (filter (with_triple d a t) bill_data)).
  split; [now rewrite E|]. split.
  - apply in_app_iff. right. apply same_date_amount_type_pass_spec.
    split; [reflexivity|]. split.
    + apply two_members with (x := r1) (y := r2); auto. congruence.
    + apply two_members with (x := Fingerprint r1) (y := Fingerprint r2); auto;
        apply in_unique; now apply in_map.
  - split; now apply in_map.
Qed.

(** ** The matcher on one-character loops *)

Section ClassLoops.

Variable A : Type.
Variable fl : flags.
Implicit Types (k : text -> groups -> option A) (p : char -> bool).

Lemma greedy_loop_class p k (fuel : nat) (s : text) (g : groups) :
  (length s <= fuel)%nat ->
  greedy_loop (fun s g k => one p s g k) k fuel s g = greedy_class p k s g.
Proof.
  revert s; induction fuel as [|fuel IH]; intros [|c s] Hlen; simpl in *;
    try reflexivity; try lia.
  unfold shorter. simpl.
  destruct (p c); [|reflexivity].
  replace (length s <? S (length s))%nat with true
    by (symmetry; apply Nat.ltb_lt; lia).
  rewrite IH by lia. reflexivity.
Qed.

Lemma lazy_loop_class p k (fuel : nat) (s : text) (g : groups) :
  (length s <= fuel)%nat ->
  lazy_loop (fun s g k => one p s g k) k fuel s g = lazy_class p k s g.
Proof.
  revert s; induction fuel as [|fuel IH]; intros [|c s] Hlen; simpl in *;
    try reflexivity; try lia.
  - now destruct (k [] g).
  - unfold shorter. simpl.
    destruct (p c); [|reflexivity].
    replace (length s <? S (length s))%nat with true
      by (symmetry; apply Nat.ltb_lt; lia).
    rewrite IH by lia. reflexivity.
Qed.

Lemma m_star_set (items : list set_item) k (s : text) (g : groups) :
  m fl (Star (Set_ items)) s g k = greedy_class (set_ok fl items) k s g.
Proof. simpl. now apply greedy_loop_class. Qed.

Lemma m_lazy_dot k (s : text) (g : groups) :
  m fl (LazyStar Dot) s g k = lazy_class (dot_ok fl) k s g.
Proof. simpl. now apply lazy_loop_class. Qed.

Lemma greedy_class_ext p q k (s : text) (g : groups) :
  (forall c, p c = q c) -> greedy_class p k s g = greedy_class q k s g.
Proof.
  intros E. induction s as [|c s IH]; simpl; [reflexivity|].
  now rewrite E, IH.
Qed.

(** The longest run is tried first ... *)
Lemma greedy_class_longest p k (s : text) (g : groups) :
  k (drop_while p s) g <> None ->
  greedy_class p k s g = k (drop_while p s) g.
Proof.
  induction s as [|c s IH]; simpl; [reflexivity|].
  destruct (p c); [|reflexivity].
  intros H. rewrite IH by assumption.
  destruct (k (drop_while p s) g); [reflexivity|easy].
Qed.

(** ... and is the only one with a chance when what follows cannot start
    with a character of the class. *)
Lemma greedy_class_blocked p k (s : text) (g : groups) :
  (forall c s', p c = true -> k (c :: s') g = None) ->
  greedy_class p k s g = k (drop_while p s) g.
Proof.
  intros Hk. induction s as [|c s IH]; simpl; [reflexivity|].
  destruct (p c) eqn:E; [|reflexivity].
  rewrite IH, (Hk c s E). now destruct (k (drop_while p s) g).
Qed.

End ClassLoops.

Lemma set_ok_space (fl : flags) (c : char) : set_ok fl [SpaceCat] c = is_space c.
Proof. unfold set_ok; destruct (IGNORECASE fl); simpl; apply orb_false_r. Qed.

Lemma set_ok_digit (fl : flags) (c : char) :
  set_ok fl [DigitCat] c = Unicode.is_decimal c.
Proof. unfold set_ok; destruct (IGNORECASE fl); simpl; apply orb_false_r. Qed.

Lemma lstrip_drop_while (s : text) : lstrip s = drop_while is_space s.
Proof. induction s as [|c s IH]; simpl; [reflexivity|]. now rewrite IH. Qed.

Lemma lstrip_length (s : text) : (length (lstrip s) <= length s)%nat.
Proof. induction s as [|c s IH]; simpl; [lia|]. destruct (is_space c); simpl; lia. Qed.

(** ** White-space runs *)

Lemma match_at_space_run (s : text) :
  match_at no_flags (plus Space) false s
  = match s with
    | c :: s' => if is_space c then Some (lstrip s', []) else None
    | [] => None
    end.
Proof.
  unfold match_at, plus, Space.
  change (m no_flags (Cat (Set_ [SpaceCat]) (Star (Set_ [SpaceCat]))) s [] ?k)
    with (one (set_ok no_flags [SpaceCat]) s []
              (fun s1 g1 => m no_flags (Star (Set_ [SpaceCat])) s1 g1 k)).
  destruct s as [|c s]; cbn [one]; [reflexivity|].
  rewrite set_ok_space. destruct (is_space c); [|reflexivity].
  cbn [m]. rewrite greedy_loop_class by (simpl; lia).
  rewrite (greedy_class_ext _ is_space) by apply set_ok_space.
  rewrite greedy_class_longest; now rewrite <- lstrip_drop_while.
Qed.

Lemma replace_space_runs_space (repl : text) (c : char) (s : text) :
  is_space c = true ->
  replace_space_runs repl (c :: s) = repl ++ replace_space_runs repl (lstrip s).
Proof.
  revert c; induction s as [|c' s IH]; intros c Hc.
  - simpl. rewrite Hc. now rewrite app_nil_r.
  - change (replace_space_runs repl (c :: c' :: s))
      with (if is_space c
            then if is_space c' then replace_space_runs repl (c' :: s)
                 else repl ++ replace_space_runs repl (c' :: s)
            else c :: replace_space_runs repl (c' :: s)).
    rewrite Hc. simpl lstrip. destruct (is_space c') eqn:Hc'; [|reflexivity].
    now apply IH.
Qed.

Lemma scan_space_runs (repl : text) (fuel : nat) (s : text) :
  (length s <= fuel)%nat ->
  flat_map (fun p => match p with
                     | Gap c => [c]
                     | Hit _ _ => repl
                     end) (scan no_flags (plus Space) fuel false s)
  = replace_space_runs repl s.
Proof.
  revert s; induction fuel as [|fuel IH]; intros s Hlen.
  - destruct s; [reflexivity|simpl in Hlen; lia].
  - cbn [scan]. rewrite match_at_space_run.
    destruct s as [|c s]; [reflexivity|].
    destruct (is_space c) eqn:Hc.
    + pose proof (lstrip_length s) as Hl. simpl in Hlen.
      replace (length (lstrip s) =? length (c :: s))%nat with false
        by (symmetry; apply Nat.eqb_neq; simpl; lia).
      cbn [flat_map]. rewrite IH by lia.
      now rewrite replace_space_runs_space.
    + cbn [flat_map]. simpl in Hlen. rewrite IH by lia.
      simpl. now rewrite Hc.
Qed.

(** [re.sub(r'\s+', repl, t)] *)
Lemma sub_space_runs (repl t : text) :
  sub no_flags (plus Space) repl t = replace_space_runs repl t.
Proof. unfold sub, finditer. apply scan_space_runs. lia. Qed.

Lemma replace_space_runs_nil (t : text) :
  replace_space_runs [] t = filter (fun c => negb (is_space c)) t.
Proof.
  induction t as [|c t IH]; [reflexivity|].
  cbn [replace_space_runs filter]. destruct (is_space c) eqn:Hc; simpl.
  - destruct t as [|c' t]; [reflexivity|].
    rewrite <- IH. now destruct (is_space c').
  - now rewrite IH.
Qed.

(** ** The character tables *)

Lemma in_run_pairs (c : char) (run : N * N * N * N) :
  Unicode.in_run c run = true ->
  let '(first, _, _, image) := run in
  In (c, image + (c - first)) (Unicode.run_pairs run).
Proof.
  destruct run as [[[first last] step] image]. unfold Unicode.in_run, Unicode.run_pairs.
  rewrite !andb_true_iff, !N.leb_le, N.eqb_eq. intros [[H1 H2] H3].
  apply in_map_iff. exists (N.to_nat ((c - first) / step)).
  assert (E : (c - first) / step * step = c - first).
  { destruct (N.eq_dec step 0) as [->|Hs].
    - rewrite N.mod_0_r in H3. rewrite H3. reflexivity.
    - pose proof (N.div_mod (c - first) step Hs) as Hd. rewrite H3 in Hd. lia. }
  split.
  - rewrite N2Nat.id, E. f_equal. clear E H3. lia.
  - apply in_seq.
    assert (H : (c - first) / step <= (last - first) / step)
      by (apply N.Div0.div_le_mono; lia).
    clear E H3. revert H.
    generalize ((c - first) / step), ((last - first) / step). intros; lia.
Qed.

Lemma tolower_cases (c : char) :
  Unicode.tolower c = c \/ In (c, Unicode.tolower c) Unicode.lowercase_pairs.
Proof.
  unfold Unicode.tolower.
  destruct (find (Unicode.in_run c) Unicode.lowercase_runs) as [run|] eqn:E;
    [|now left].
  apply find_some in E. destruct E as [Hin Hrun]. right.
  apply in_flat_map. exists run. split; [exact Hin|].
  apply in_run_pairs in Hrun. now destruct run as [[[first last] step] image].
Qed.

(** What holds of a character and itself, and of every pair of the table,
    holds of a character and its lower-case form. *)
Lemma tolower_table (check : char -> char -> bool) :
  forallb (fun p => check (fst p) (snd p)) Unicode.lowercase_pairs = true ->
  forall c, Unicode.tolower c = c \/ check c (Unicode.tolower c) = true.
Proof.
  intros Hall c. destruct (tolower_cases c) as [H|H]; [now left|right].
  rewrite forallb_forall in Hall. exact (Hall _ H).
Qed.

Lemma tolower_space (c : char) : is_space (Unicode.tolower c) = is_space c.
Proof.
  destruct (@tolower_table
              (fun k d => negb (is_space k) && negb (is_space d))
              ltac:(vm_compute; reflexivity) c) as [->|H]; [reflexivity|].
  apply andb_true_iff in H. destruct H as [H1 H2].
  apply negb_true_iff in H1, H2. now rewrite H1, H2.
Qed.

Lemma tolower_tolower (c : char) :
  Unicode.tolower (Unicode.tolower c) = Unicode.tolower c.
Proof.
  destruct (@tolower_table (fun _ d => Unicode.tolower d =? d)
              ltac:(vm_compute; reflexivity) c) as [H|H].
  - now rewrite !H.
  - now apply N.eqb_eq in H.
Qed.

Lemma tolower_lowered (c : char) :
  c <> 0x3A3 -> c <> 0x130 -> lowered_char (Unicode.tolower c) = true.
Proof.
  intros H1 H2.
  destruct (@tolower_table (fun _ d => lowered_char d)
              ltac:(vm_compute; reflexivity) c) as [H|H]; [|exact H].
  unfold lowered_char. rewrite !H, N.eqb_refl.
  apply N.eqb_neq in H1, H2. now rewrite H1, H2.
Qed.

Lemma tolower_upper (c : char) : is_upper c = true -> Unicode.tolower c = c + 32.
Proof.
  intros H. unfold Unicode.tolower.
  assert (E : Unicode.lowercase_runs = (65, 90, 1, 97) :: tl Unicode.lowercase_runs)
    by reflexivity.
  rewrite E. cbn [find Unicode.in_run]. unfold is_upper in H. rewrite H, N.mod_1_r.
  cbn [N.eqb andb]. apply andb_true_iff in H. rewrite !N.leb_le in H. lia.
Qed.

Lemma tolower_not_upper (c : char) : is_upper (Unicode.tolower c) = false.
Proof.
  destruct (is_upper c) eqn:E.
  - rewrite (tolower_upper _ E). unfold is_upper in *.
    apply andb_true_iff in E. rewrite !N.leb_le in E.
    apply andb_false_iff. right. apply N.leb_gt. lia.
  - destruct (@tolower_table (fun _ d => negb (is_upper d))
                ltac:(vm_compute; reflexivity) c) as [H|H].
    + now rewrite H.
    + now apply negb_true_iff in H.
Qed.

(** ** The lower-case form of a text *)

Lemma lower_full_space (c : char) : is_space c = true -> lower_full c = [c].
Proof.
  intros Hc. unfold lower_full.
  destruct (N.eqb_spec c 0x130) as [->|_]; [discriminate|].
  pose proof (tolower_space c) as Hs.
  destruct (@tolower_table (fun k _ => negb (is_space k))
              ltac:(vm_compute; reflexivity) c) as [->|H]; [reflexivity|].
  now rewrite Hc in H.
Qed.

Lemma lower_full_not_space (c : char) :
  is_space c = false -> Forall (fun d => is_space d = false) (lower_full c).
Proof.
  intros Hc. unfold lower_full.
  destruct (N.eqb_spec c 0x130) as [->|_]; [now repeat constructor|].
  constructor; [|constructor]. now rewrite tolower_space.
Qed.

Lemma lower_full_lowered (c : char) :
  c <> 0x3A3 -> Forall (fun d => lowered_char d = true) (lower_full c).
Proof.
  intros Hc. unfold lower_full.
  destruct (N.eqb_spec c 0x130) as [->|H]; [now repeat constructor|].
  constructor; [|constructor]. now apply tolower_lowered.
Qed.

Lemma lower_full_not_upper (c : char) :
  Forall (fun d => is_upper d = false) (lower_full c).
Proof.
  unfold lower_full.
  destruct (N.eqb_spec c 0x130) as [->|H]; [now repeat constructor|].
  constructor; [|constructor]. apply tolower_not_upper.
Qed.

(** What holds of the lower-case form of every character on its own and
    of the two small sigmas holds of the lower-case form of a text. *)
Lemma lower_from_Forall (P : char -> Prop) (before : bool) (t : text) :
  (forall c, c <> 0x3A3 -> In c t -> Forall P (lower_full c)) ->
  (In 0x3A3 t -> P 0x3C2 /\ P 0x3C3) ->
  Forall P (lower_from before t).
Proof.
  revert before. induction t as [|c t IH]; intros before Hc Hs; simpl; [constructor|].
  apply Forall_app. split.
  - destruct (N.eqb_spec c 0x3A3) as [->|H].
    + destruct (Hs (or_introl eq_refl)) as [H1 H2].
      constructor; [|constructor]. now destruct (_ && _).
    + apply Hc; [exact H|now left].
  - apply IH.
    + intros c' H1 H2. apply Hc; [exact H1|now right].
    + intros H. apply Hs. now right.
Qed.

Lemma lower_from_no_sigma (before : bool) (t : text) :
  ~ In capital_sigma t -> lower_from before t = flat_map lower_full t.
Proof.
  revert before. induction t as [|c t IH]; intros before H; simpl; [reflexivity|].
  destruct (N.eqb_spec c 0x3A3) as [->|_]; [exfalso; apply H; now left|].
  f_equal. apply IH. intros Hin. apply H. now right.
Qed.

Lemma lower_from_lowered (before : bool) (t : text) :
  Forall (fun d => lowered_char d = true) t -> lower_from before t = t.
Proof.
  revert before. induction t as [|c t IH]; intros before H; simpl; [reflexivity|].
  inversion H as [|? ? Hc Ht]; subst.
  unfold lowered_char in Hc. rewrite !andb_true_iff, !negb_true_iff in Hc.
  destruct Hc as [[H1 H2] H3]. rewrite H3. unfold lower_full. rewrite H2.
  apply N.eqb_eq in H1. rewrite H1. simpl. f_equal. now apply IH.
Qed.

Lemma lower_lowered (t : text) : Forall (fun d => lowered_char d = true) (lower t).
Proof.
  apply lower_from_Forall.
  - intros c Hc _. now apply lower_full_lowered.
  - intros _. split; reflexivity.
Qed.

(** ** The fingerprint *)

Lemma normalized_text_filter (t : text) :
  normalized_text t = filter (fun c => negb (is_space c)) (lower t).
Proof.
  unfold normalized_text. now rewrite sub_space_runs, replace_space_runs_nil.
Qed.

(** What a character leaves in the normalized text. *)
Lemma filter_lower_full (c : char) :
  filter (fun d => negb (is_space d)) (lower_full c)
  = if is_space c then [] else lower_full c.
Proof.
  destruct (is_space c) eqn:Hc.
  - rewrite (lower_full_space _ Hc). simpl. now rewrite Hc.
  - pose proof (lower_full_not_space _ Hc) as H.
    induction H as [|d l Hd _ IH]; simpl; [reflexivity|]. now rewrite Hd, IH.
Qed.

Lemma normalized_text_no_sigma (t : text) :
  ~ In capital_sigma t ->
  normalized_text t = flat_map (fun c => if is_space c then [] else lower_full c) t.
Proof.
  intros H. rewrite normalized_text_filter. unfold lower.
  rewrite (@lower_from_no_sigma false t H). clear H.
  induction t as [|c t IH]; simpl; [reflexivity|].
  now rewrite filter_app, filter_lower_full, IH.
Qed.

Lemma same_letter_space (c c' : char) :
  same_letter c c' -> is_space c = is_space c'.
Proof.
  unfold same_letter. intros H.
  destruct (is_space c) eqn:Hc, (is_space c') eqn:Hc'; try reflexivity.
  - pose proof (lower_full_not_space _ Hc') as Hf.
    rewrite <- H, (lower_full_space _ Hc) in Hf.
    inversion Hf; congruence.
  - pose proof (lower_full_not_space _ Hc) as Hf.
    rewrite H, (lower_full_space _ Hc') in Hf.
    inversion Hf; congruence.
Qed.

Lemma normalized_text_invariant (t t' : text) :
  ~ In capital_sigma t -> ~ In capital_sigma t' ->
  differ_in_case_and_space_only t t' -> normalized_text t = normalized_text t'.
Proof.
  intros Hs Hs' H. rewrite (@normalized_text_no_sigma t Hs), (@normalized_text_no_sigma t' Hs').
  clear Hs Hs'.
  induction H as [|c t t' _ IH|c c' t t' Hc _ IH|c t t' Hc _ IH|c t t' Hc _ IH];
    simpl.
  - reflexivity.
  - now rewrite IH.
  - rewrite <- (same_letter_space Hc). unfold same_letter in Hc. now rewrite Hc, IH.
  - now rewrite Hc.
  - now rewrite Hc.
Qed.

(** The relation holds between a text and itself and between a text and
    the text with a run of white space taken out. *)
Lemma differ_refl (t : text) : differ_in_case_and_space_only t t.
Proof. induction t; constructor; auto. Qed.

Lemma differ_space_run (a ws b : text) :
  Forall (fun c => is_space c = true) ws ->
  differ_in_case_and_space_only (a ++ ws ++ b) (a ++ b).
Proof.
  intros Hws. induction a as [|c a IH]; simpl; [|now constructor].
  induction Hws as [|c ws Hc _ IH]; simpl; [apply differ_refl|].
  now apply space_left.
Qed.

(** C1, as the code has it: two texts without a capital sigma that differ
    only in letter case and in the amount or kind of white space have the
    same fingerprint. *)
Theorem calculate_fingerprint_invariant (t t' : text) :
  ~ In capital_sigma t -> ~ In capital_sigma t' ->
  differ_in_case_and_space_only t t' ->
  calculate_fingerprint t = calculate_fingerprint t'.
Proof.
  intros Hs Hs' H. unfold calculate_fingerprint.
  now rewrite (@normalized_text_invariant t t' Hs Hs' H).
Qed.

(** ** Soundness of the matcher *)

Section Soundness.

Variable A : Type.
Variable fl : flags.
Implicit Types (k : text -> groups -> option A).

Lemma one_sound (p : char -> bool) (s : text) (g : groups) k (x : A) :
  one p s g k = Some x ->
  exists c s', s = c :: s' /\ p c = true /\ k s' g = Some x.
Proof.
  destruct s as [|c s]; simpl; [easy|].
  destruct (p c) eqn:E; [|easy]. intros H. now exists c, s.
Qed.

Lemma or_else_some (x y : option A) (v : A) :
  or_else x y = Some v -> x = Some v \/ (x = None /\ y = Some v).
Proof. destruct x; simpl; auto. Qed.

Lemma greedy_loop_sound (r : regex) body :
  sound_body fl r body ->
  forall fuel s g k x,
    greedy_loop body k fuel s g = Some x ->
    exists s' g', Matches fl (Star r) s g s' g' /\ k s' g' = Some x.
Proof.
  intros Hbody. induction fuel as [|fuel IH]; intros s g k x; simpl.
  - intros H. exists s, g. split; [constructor|easy].
  - intros H. apply or_else_some in H. destruct H as [H|[_ H]].
    + apply Hbody in H. destruct H as [s1 [g1 [Hm H]]].
      unfold shorter in H. destruct (length s1 <? length s)%nat; [|easy].
      apply IH in H. destruct H as [s2 [g2 [Hm2 H]]].
      exists s2, g2. split; [|easy]. now apply M_Star_S with s1 g1.
    + exists s, g. split; [constructor|easy].
Qed.

Lemma lazy_loop_sound (r : regex) body :
  sound_body fl r body ->
  forall fuel s g k x,
    lazy_loop body k fuel s g = Some x ->
    exists s' g', Matches fl (LazyStar r) s g s' g' /\ k s' g' = Some x.
Proof.
  intros Hbody. induction fuel as [|fuel IH]; intros s g k x; simpl.
  - intros H. exists s, g. split; [constructor|easy].
  - intros H. apply or_else_some in H. destruct H as [H|[_ H]].
    + exists s, g. split; [constructor|easy].
    + apply Hbody in H. destruct H as [s1 [g1 [Hm H]]].
      unfold shorter in H. destruct (length s1 <? length s)%nat; [|easy].
      apply IH in H. destruct H as [s2 [g2 [Hm2 H]]].
      exists s2, g2. split; [|easy]. now apply M_Lazy_S with s1 g1.
Qed.

Lemma m_sound (r : regex) : sound_body fl r (m (A:=A) fl r).
Proof.
  induction r as [|x| |items|r1 IH1 r2 IH2|r1 IH1 r2 IH2|r IH|r IH|n r IH|];
    intros s g k v; simpl.
  - intros H. exists s, g. split; [constructor|easy].
  - intros H. apply one_sound in H. destruct H as [c [s' [-> [Hc H]]]].
    exists s', g. split; [now constructor|easy].
  - intros H. apply one_sound in H. destruct H as [c [s' [-> [Hc H]]]].
    exists s', g. split; [now constructor|easy].
  - intros H. apply one_sound in H. destruct H as [c [s' [-> [Hc H]]]].
    exists s', g. split; [now constructor|easy].
  - intros H. apply IH1 in H. destruct H as [s1 [g1 [Hm1 H]]].
    apply IH2 in H. destruct H as [s2 [g2 [Hm2 H]]].
    exists s2, g2. split; [|easy]. now apply M_Cat with s1 g1.
  - intros H. apply or_else_some in H. destruct H as [H|[_ H]].
    + apply IH1 in H. destruct H as [s1 [g1 [Hm H]]].
      exists s1, g1. split; [now apply M_Alt_l|easy].
    + apply IH2 in H. destruct H as [s1 [g1 [Hm H]]].
      exists s1, g1. split; [now apply M_Alt_r|easy].
  - now apply greedy_loop_sound.
  - now apply lazy_loop_sound.
  - intros H. apply IH in H. destruct H as [s1 [g1 [Hm H]]].
    exists s1, ((n, consumed s s1) :: g1). split; [now constructor|easy].
  - destruct (at_end s) eqn:E; [|easy].
    intros H. exists s, g. split; [|easy]. constructor.
    destruct s as [|c [|c' s]]; simpl in E; auto; [|easy].
    apply N.eqb_eq in E. subst. auto.
Qed.

End Soundness.

Lemma match_at_sound (fl : flags) (r : regex) (must_advance : bool)
      (s s' : text) (g : groups) :
  match_at fl r must_advance s = Some (s', g) -> Matches fl r s [] s' g.
Proof.
  unfold match_at. intros H. apply m_sound in H.
  destruct H as [s1 [g1 [Hm H]]].
  destruct (must_advance && (length s1 =? length s)%nat); [easy|].
  now injection H; intros <- <-.
Qed.

(** What a match leaves is the end of what it found. *)
Lemma Matches_suffix (fl : flags) (r : regex) (s s' : text) (g g' : groups) :
  Matches fl r s g s' g' -> exists w, s = w ++ s'.
Proof.
  induction 1;
    repeat match goal with
           | H : exists _, _ |- _ => destruct H as [? ->]
           end;
    try (now exists []); try (now exists [c]);
    try (now eexists); eexists; apply app_assoc.
Qed.

Lemma consumed_app (w s' : text) : consumed (w ++ s') s' = w.
Proof.
  unfold consumed. rewrite length_app.
  replace (length w + length s' - length s')%nat with (length w) by lia.
  rewrite firstn_app, firstn_all, Nat.sub_diag. simpl. apply app_nil_r.
Qed.

Lemma consumed_eq (s w s' : text) : s = w ++ s' -> consumed s s' = w.
Proof. intros ->. apply consumed_app. Qed.

(** A pattern leaves the groups it does not contain as they were. *)
Lemma Matches_other_groups (fl : flags) (n : nat) (r : regex) (s s' : text)
      (g g' : groups) :
  Matches fl r s g s' g' -> ~ In n (groups_of r) -> group n g' = group n g.
Proof.
  induction 1; simpl; intros Hn; try reflexivity;
    try (rewrite in_app_iff in Hn); auto.
  - rewrite IHMatches2, IHMatches1; tauto.
  - rewrite IHMatches2, IHMatches1; tauto.
  - rewrite IHMatches2, IHMatches1; tauto.
  - destruct (Nat.eqb_spec n0 n); [subst; tauto|]. apply IHMatches; tauto.
Qed.

(** ** [search] and [findall] *)

Lemma search_from_some (fl : flags) (r : regex) (s before : text) (mo : match_object) :
  search_from fl r before s = Some mo ->
  exists pre s1,
    s = pre ++ s1
    /\ m_before mo = before ++ pre
    /\ match_at fl r false s1 = Some (m_after mo, m_groups mo)
    /\ m_whole mo = consumed s1 (m_after mo)
    /\ forall pre' s2,
        s = pre' ++ s2 -> (length pre' < length pre)%nat ->
        match_at fl r false s2 = None.
Proof.
  revert before; induction s as [|c s IH]; intros before; simpl.
  - destruct (match_at fl r false []) as [[s' g]|] eqn:E; [|easy].
    intros H; injection H; intros <-. exists [], []. simpl.
    rewrite app_nil_r. repeat split; auto. intros pre' s2 _ Hl. simpl in Hl; lia.
  - destruct (match_at fl r false (c :: s)) as [[s' g]|] eqn:E.
    + intros H; injection H; intros <-. exists [], (c :: s). simpl.
      rewrite app_nil_r. repeat split; auto. intros pre' s2 _ Hl. simpl in Hl; lia.
    + intros H. apply IH in H.
      destruct H as [pre [s1 [-> [Hb [Hm [Hw Hfirst]]]]]].
      exists (c :: pre), s1. rewrite Hb, <- app_assoc. repeat split; auto.
      intros [|c' pre'] s2 Heq Hl; simpl in *.
      * now subst.
      * injection Heq; intros Heq' _. apply (Hfirst pre' s2 Heq'). lia.
Qed.

Lemma search_from_none (fl : flags) (r : regex) (s before : text) :
  search_from fl r before s = None ->
  forall pre s1, s = pre ++ s1 -> match_at fl r false s1 = None.
Proof.
  revert before; induction s as [|c s IH]; intros before; simpl.
  - destruct (match_at fl r false []) as [[s' g]|] eqn:E; [easy|].
    intros _ pre s1 Heq. symmetry in Heq. apply app_eq_nil in Heq.
    now destruct Heq as [_ ->].
  - destruct (match_at fl r false (c :: s)) as [[s' g]|] eqn:E; [easy|].
    intros H [|c' pre] s1 Heq; simpl in Heq.
    + now subst.
    + injection Heq; intros Heq' _. exact (IH _ H pre s1 Heq').
Qed.

(** The first element of [findall] is the group of the match [search]
    finds. *)
Lemma scan_head (fl : flags) (r : regex) (fuel : nat) (s before : text) :
  (length s < fuel)%nat ->
  hd_error (flat_map (fun p => match p with
                               | Gap _ => []
                               | Hit _ g => [group_text 1 g]
                               end) (scan fl r fuel false s))
  = option_map (fun mo => group_text 1 (m_groups mo)) (search_from fl r before s).
Proof.
  revert s before; induction fuel as [|fuel IH]; intros s before Hlen; [lia|].
  destruct s as [|c s]; cbn [scan search_from].
  - now destruct (match_at fl r false []) as [[s' g]|].
  - destruct (match_at fl r false (c :: s)) as [[s' g]|]; [reflexivity|].
    cbn [flat_map app]. apply IH. simpl in Hlen. lia.
Qed.

Lemma findall_head (fl : flags) (r : regex) (t : text) :
  hd_error (findall fl r t)
  = option_map (fun mo => group_text 1 (m_groups mo)) (search fl r t).
Proof. unfold findall, finditer, search. apply scan_head. lia. Qed.

Lemma first_findall_cons (pattern : regex) (rest : list regex) (t : text) :
  first_findall (pattern :: rest) t
  = match search I pattern t with
    | Some mo => Some (group_text 1 (m_groups mo))
    | None => first_findall rest t
    end.
Proof.
  simpl. pose proof (findall_head I pattern t) as H.
  destruct (findall I pattern t), (search I pattern t); simpl in H; congruence.
Qed.

Lemma first_findall_search (patterns : list regex) (t v : text) :
  first_findall patterns t = Some v ->
  exists pattern mo,
    In pattern patterns /\ search I pattern t = Some mo
    /\ v = group_text 1 (m_groups mo).
Proof.
  induction patterns as [|p ps IH]; [easy|].
  rewrite first_findall_cons.
  destruct (search I p t) as [mo|] eqn:E.
  - intros H; injection H; intros <-. exists p, mo. simpl; auto.
  - intros H. destruct (IH H) as [p' [mo [Hin H']]]. exists p', mo. simpl; auto.
Qed.

Lemma search_first_match (r : regex) (t : text) (mo : match_object) :
  search I r t = Some mo -> first_match r t (group_text 1 (m_groups mo)).
Proof.
  intros H. apply search_from_some in H.
  destruct H as [pre [s1 [-> [_ [Hm [_ Hfirst]]]]]].
  exists pre, s1, (m_after mo), (m_groups mo). auto.
Qed.

Lemma search_none_nowhere (r : regex) (t : text) :
  search I r t = None -> ~ matches_somewhere r t.
Proof.
  intros H [before [s [Heq Hm]]]. apply Hm.
  exact (@search_from_none I r t [] H before s Heq).
Qed.

(** ** The priority of the patterns *)

Lemma app_eq_length (X : Type) (a b c d : list X) :
  a ++ b = c ++ d -> length a = length c -> a = c /\ b = d.
Proof.
  revert c; induction a as [|x a IH]; intros [|y c]; simpl; try easy.
  intros H Hl. injection H; intros H' ->.
  destruct (IH c H') as [-> ->]; [lia|easy].
Qed.

(** A text has one first match of a pattern at most. *)
Lemma first_match_unique (r : regex) (t v v' : text) :
  first_match r t v -> first_match r t v' -> v = v'.
Proof.
  intros [b1 [s1 [e1 [g1 [H1 [M1 [-> F1]]]]]]] [b2 [s2 [e2 [g2 [H2 [M2 [-> F2]]]]]]].
  assert (Hlen : length b1 = length b2).
  { destruct (Nat.lt_trichotomy (length b1) (length b2)) as [Hlt|[Heq|Hgt]];
      [|exact Heq|].
    - rewrite (F2 b1 s1 H1 Hlt) in M1. discriminate.
    - rewrite (F1 b2 s2 H2 Hgt) in M2. discriminate. }
  rewrite H1 in H2. destruct (app_eq_length _ _ _ _ H2 Hlen) as [_ <-].
  rewrite M1 in M2. now injection M2; intros <- _.
Qed.

(** C4: when some amount pattern matches, the extractor returns the first
    match, in document order, of the earliest listed pattern that matches
    anywhere in the text. *)
Theorem extract_amount_priority (t : text) :
  (exists p, In p amount_patterns /\ matches_somewhere p t) ->
  first_match_of_first_pattern amount_patterns t (extract_amount t).
Proof.
  unfold extract_amount, first_match_of_first_pattern.
  generalize amount_patterns as patterns.
  induction patterns as [|p ps IH]; intros [q [Hq Hm]]; [easy|].
  rewrite first_findall_cons.
  destruct (search I p t) as [mo|] eqn:E.
  - exists [], p, ps, (group_text 1 (m_groups mo)).
    repeat split; auto. now apply search_first_match.
  - pose proof (search_none_nowhere E) as Hno.
    destruct Hq as [<-|Hq]; [easy|].
    destruct IH as [earlier [pattern [later [v [-> [He [Hf Hv]]]]]]];
      [now exists q|].
    exists (p :: earlier), pattern, later, v. repeat split; auto.
    intros p' [<-|Hin]; auto.
Qed.

(** ** The shape of an amount *)

Ltac inv H := inversion H; subst; clear H.

Ltac inv_matches :=
  repeat match goal with
         | H : Matches _ (Cat _ _) _ _ _ _ |- _ => inv H
         | H : Matches _ (Group _ _) _ _ _ _ |- _ => inv H
         | H : Matches _ (Lit _) _ _ _ _ |- _ => inv H
         | H : Matches _ (Set_ _) _ _ _ _ |- _ => inv H
         | H : Matches _ Eps _ _ _ _ |- _ => inv H
         end.

Lemma Matches_star_set (fl : flags) (items : list set_item) (s s' : text)
      (g g' : groups) :
  Matches fl (Star (Set_ items)) s g s' g' ->
  exists w, s = w ++ s' /\ g' = g /\ Forall (fun c => set_ok fl items c = true) w.
Proof.
  remember (Star (Set_ items)) as r eqn:Er.
  induction 1; try discriminate.
  - now exists [].
  - injection Er; intros ->. inv H.
    destruct (IHMatches2 eq_refl) as [w [-> [-> Hw]]].
    exists (c :: w). repeat split; auto.
Qed.

(** A pattern character without case is matched by itself only. *)
Lemma lit_ok_uncased (fl : flags) (x c : char) :
  Unicode.iscased x = false -> lit_ok fl x c = (c =? x).
Proof. intros H. unfold lit_ok. now rewrite H, andb_false_r. Qed.



Lemma Matches_sequence_last (fl : flags) (r : regex) (pre : list regex)
      (s s' : text) (g g' : groups) :
  Matches fl (sequence (pre ++ [r])) s g s' g' ->
  exists w0 s1 g1, s = w0 ++ s1 /\ Matches fl r s1 g1 s' g'.
Proof.
  revert s g; induction pre as [|a pre IH]; intros s g H.
  - exists [], s, g. auto.
  - assert (E : sequence ((a :: pre) ++ [r]) = Cat a (sequence (pre ++ [r])))
      by (simpl; now destruct pre).
    rewrite E in H. inv H.
    match goal with
    | H1 : Matches _ a _ _ _ _, H2 : Matches _ (sequence _) _ _ _ _ |- _ =>
        destruct (Matches_suffix H1) as [w ->];
        destruct (IH _ _ H2) as [w0 [s2 [g2 [-> Hm]]]]
    end.
    exists (w ++ w0), s2, g2. now rewrite app_assoc.
Qed.





(** ** Letters without their case *)

Lemma among_In (l : list char) (c : char) : among l c = true <-> In c l.
Proof.
  unfold among. rewrite existsb_exists. split.
  - intros [x [H E]]. apply N.eqb_eq in E. now subst.
  - intros H. exists c. split; [exact H|apply N.eqb_refl].
Qed.

Lemma pairs_tolower (c d : char) :
  In (c, d) Unicode.lowercase_pairs -> Unicode.tolower c = d.
Proof.
  intros H.
  assert (Hall : forallb (fun p => Unicode.tolower (fst p) =? snd p)
                         Unicode.lowercase_pairs = true) by (vm_compute; reflexivity).
  rewrite forallb_forall in Hall. apply N.eqb_eq. exact (Hall _ H).
Qed.

Lemma tolower_preimage (c d : char) :
  Unicode.tolower c = d <-> In c (lower_preimage d).
Proof.
  unfold lower_preimage. rewrite in_app_iff, in_map_iff. split.
  - intros H. destruct (tolower_cases c) as [E|E].
    + left. subst d. rewrite tolower_tolower, N.eqb_refl, E. now left.
    + right. exists (c, d). split; [reflexivity|]. apply filter_In.
      split; [now rewrite <- H|]. simpl. apply N.eqb_refl.
  - intros [H|[[c' d'] [E H]]].
    + destruct (Unicode.tolower d =? d) eqn:Ed; [|easy].
      destruct H as [<-|[]]. now apply N.eqb_eq.
    + simpl in E. subst c'. apply filter_In in H. destruct H as [H Hd].
      simpl in Hd. apply N.eqb_eq in Hd. subst d'. now apply pairs_tolower.
Qed.

Lemma lit_ok_cased (x c : char) :
  Unicode.iscased x = true ->
  lit_ok I x c = true <-> In c (flat_map lower_preimage (lowered x)).
Proof.
  intros H. unfold lit_ok. cbn [IGNORECASE I]. rewrite H. cbn [andb].
  rewrite among_In, in_flat_map. split.
  - intros Hin. exists (Unicode.tolower c). split; [exact Hin|].
    now apply tolower_preimage.
  - intros [l [Hl Hc]]. apply tolower_preimage in Hc. now rewrite Hc.
Qed.

Lemma forms_agree_ok (x c : char) :
  forms_agree x = true -> lit_ok I x c = same_ignoring_case x c.
Proof.
  unfold forms_agree. destruct (Unicode.iscased x) eqn:E.
  - rewrite andb_true_iff. intros [H1 H2]. apply eq_true_iff_eq.
    rewrite (@lit_ok_cased x c E). unfold same_ignoring_case. rewrite among_In.
    unfold included in *. rewrite forallb_forall in H1, H2.
    split; intros H; [apply among_In, H1|apply among_In, H2]; exact H.
  - intros H. apply text_eqb_eq in H. rewrite (@lit_ok_uncased I x c E).
    unfold same_ignoring_case. rewrite H. simpl. now rewrite orb_false_r.
Qed.

(** A pattern character of the Basic Latin block is matched, when case is
    ignored, by its forms and by nothing else. *)
Lemma lit_ok_basic_latin (x c : char) :
  x < 128 -> lit_ok I x c = same_ignoring_case x c.
Proof.
  intros Hx. apply forms_agree_ok.
  assert (Hall : forallb forms_agree (char_range 0 127) = true)
    by (vm_compute; reflexivity).
  rewrite forallb_forall in Hall. apply Hall.
  unfold char_range. apply in_map_iff. exists (N.to_nat x).
  split; [lia|]. apply in_seq. change (N.to_nat (127 + 1 - 0)) with 128%nat. lia.
Qed.

Lemma lit_ok_ignorecase (fl : flags) (x c : char) :
  IGNORECASE fl = true -> lit_ok fl x c = lit_ok I x c.
Proof. intros H. unfold lit_ok. now rewrite H. Qed.

Ltac latin := vm_compute; repeat constructor.

(** ** Literal words *)

Lemma m_lit_text (A : Type) (w s : text) (g : groups) (k : text -> groups -> option A)
      (fl : flags) :
  basic_latin w ->
  IGNORECASE fl = true ->
  m fl (lit_text w) s g k
  = if starts_with_ci w s then k (skipn (length w) s) g else None.
Proof.
  intros Hw Hfl. revert s; induction Hw as [|x w Hx _ IH]; intros s; [reflexivity|].
  cbn [lit_text m]. destruct s as [|c s]; [reflexivity|].
  cbn [one starts_with_ci length skipn].
  rewrite (@lit_ok_ignorecase fl x c Hfl), (@lit_ok_basic_latin x c Hx).
  destruct (same_ignoring_case x c); [apply IH|reflexivity].
Qed.

Lemma starts_with_ci_iff (w s : text) :
  starts_with_ci w s = true
  <-> exists mid rest, s = mid ++ rest /\ spells w mid = true.
Proof.
  revert s; induction w as [|x w IH]; intros s; simpl.
  - split; [|easy]. intros _. now exists [], s.
  - destruct s as [|c s].
    + split; [easy|]. intros [mid [rest [Hs Hl]]].
      symmetry in Hs. apply app_eq_nil in Hs. destruct Hs as [-> _]. easy.
    + rewrite andb_true_iff, IH. split.
      * intros [Hc [mid [rest [-> Hl]]]]. exists (c :: mid), rest.
        simpl. now rewrite Hc, Hl.
      * intros [[|c' mid] [rest [Hs Hl]]]; [easy|].
        simpl in Hs, Hl. injection Hs; intros -> ->.
        apply andb_true_iff in Hl. destruct Hl as [Hc Hl].
        split; [easy|]. now exists mid, rest.
Qed.

Lemma found_search (r : regex) (t : text) (fl : flags) :
  found (search fl r t) = true
  <-> exists before s, t = before ++ s /\ match_at fl r false s <> None.
Proof.
  destruct (search fl r t) as [mo|] eqn:E; simpl.
  - split; [intros _|easy]. apply search_from_some in E.
    destruct E as [pre [s1 [-> [_ [Hm _]]]]]. exists pre, s1. now rewrite Hm.
  - split; [easy|]. intros [before [s [Heq Hm]]].
    now rewrite (@search_from_none fl r t [] E before s Heq) in Hm.
Qed.

Lemma match_at_lit_text (w s : text) :
  basic_latin w ->
  match_at I (lit_text w) false s <> None <-> starts_with_ci w s = true.
Proof.
  intros Hw. unfold match_at. rewrite (@m_lit_text _ w s [] _ I Hw) by reflexivity.
  now destruct (starts_with_ci w s).
Qed.

Lemma found_search_lit (w t : text) :
  basic_latin w ->
  found (search I (lit_text w) t) = true <-> contains_ci w t.
Proof.
  intros Hw. pose proof (fun s => @match_at_lit_text w s Hw) as match_at_lit_text'.
  rewrite found_search. unfold contains_ci. split.
  - intros [before [s [-> H]]]. apply match_at_lit_text', starts_with_ci_iff in H.
    destruct H as [mid [rest [-> Hl]]]. now exists before, mid, rest.
  - intros [before [mid [rest [-> Hl]]]]. exists before, (mid ++ rest).
    split; [reflexivity|]. apply match_at_lit_text', starts_with_ci_iff.
    now exists mid, rest.
Qed.

Lemma found_search_alt (w1 w2 t : text) :
  basic_latin w1 -> basic_latin w2 ->
  found (search I (Alt (lit_text w1) (lit_text w2)) t) = true
  <-> contains_ci w1 t \/ contains_ci w2 t.
Proof.
  intros Hw1 Hw2. rewrite found_search.
  assert (E : forall s,
             match_at I (Alt (lit_text w1) (lit_text w2)) false s <> None
             <-> starts_with_ci w1 s = true \/ starts_with_ci w2 s = true).
  { intros s. unfold match_at. cbn [m].
    rewrite (@m_lit_text _ w1 s [] _ I Hw1), (@m_lit_text _ w2 s [] _ I Hw2)
      by reflexivity.
    destruct (starts_with_ci w1 s), (starts_with_ci w2 s); simpl; intuition easy. }
  unfold contains_ci. split.
  - intros [before [s [-> H]]]. apply E in H.
    destruct H as [H|H]; apply starts_with_ci_iff in H;
      destruct H as [mid [rest [-> Hl]]]; [left|right]; now exists before, mid, rest.
  - intros [H|H]; destruct H as [before [mid [rest [-> Hl]]]];
      exists before, (mid ++ rest); (split; [reflexivity|]); apply E; [left|right];
      apply starts_with_ci_iff; now exists mid, rest.
Qed.

Lemma not_found {X : Type} (x : option X) (P : Prop) :
  (found x = true <-> P) -> ~ P -> found x = false.
Proof. destruct (found x); intuition. Qed.

(** C5: a text that contains "gas" in any letter case is classified
    "Gas", also when it contains "electric" or "electricity"; without
    "gas", one that contains "electric" or "electricity" is classified
    "Electric"; any other text is classified "Unknown". *)
Theorem extract_bill_type_policy (t : text) :
  (contains_ci (str "gas") t -> extract_bill_type t = str "Gas")
  /\ (~ contains_ci (str "gas") t ->
      contains_ci (str "electric") t \/ contains_ci (str "electricity") t ->
      extract_bill_type t = str "Electric")
  /\ (~ contains_ci (str "gas") t ->
      ~ contains_ci (str "electric") t ->
      ~ contains_ci (str "electricity") t ->
      extract_bill_type t = str "Unknown").
Proof.
  unfold extract_bill_type, lit.
  assert (Hgas : found (search I (lit_text (str "gas")) t) = true
                 <-> contains_ci (str "gas") t)
    by (apply found_search_lit; latin).
  assert (Hel : found (search I (Alt (lit_text (str "electric"))
                                     (lit_text (str "electricity"))) t) = true
                <-> contains_ci (str "electric") t \/ contains_ci (str "electricity") t)
    by (apply found_search_alt; latin).
  repeat split.
  - intros H. apply Hgas in H. now rewrite H.
  - intros Hno H. rewrite (not_found _ Hgas Hno). apply Hel in H. now rewrite H.
  - intros Hno H1 H2. rewrite (not_found _ Hgas Hno).
    rewrite (not_found _ Hel); [reflexivity|tauto].
Qed.

(** ** The tariff name *)

Lemma in_char_range (lo hi x : char) : lo <= x <= hi -> In x (char_range lo hi).
Proof.
  intros H. unfold char_range. apply in_map_iff. exists (N.to_nat (x - lo)).
  split; [lia|]. apply in_seq. lia.
Qed.

Lemma same_ignoring_case_space (x c : char) :
  same_ignoring_case x c = true -> is_space c = is_space x.
Proof.
  unfold same_ignoring_case. rewrite among_In. intros H.
  destruct (N.ltb_spec x 128) as [Hx|Hx].
  - assert (Hall : forallb (fun x => forallb (fun c => Bool.eqb (is_space c) (is_space x))
                                             (case_forms x))
                           (char_range 0 127) = true) by (vm_compute; reflexivity).
    rewrite forallb_forall in Hall.
    pose proof (Hall x (@in_char_range 0 127 x ltac:(lia))) as Hx'.
    rewrite forallb_forall in Hx'. apply Bool.eqb_prop. now apply Hx'.
  - unfold case_forms, is_lower, is_upper in H.
    destruct (N.leb_spec x 122); [lia|]. destruct (N.leb_spec x 90); [lia|].
    rewrite !andb_false_r in H. destruct H as [<-|[]]. reflexivity.
Qed.

Lemma spells_length (w mid : text) : spells w mid = true -> length mid = length w.
Proof.
  revert mid; induction w as [|x w IH]; intros [|c mid]; simpl; try easy.
  rewrite andb_true_iff. intros [_ H]. now rewrite (IH _ H).
Qed.

Lemma spells_app (w1 w2 m1 m2 : text) :
  spells w1 m1 = true -> spells w2 m2 = true -> spells (w1 ++ w2) (m1 ++ m2) = true.
Proof.
  revert m1; induction w1 as [|x w1 IH]; intros [|c m1]; simpl; try easy.
  rewrite !andb_true_iff. intros [H1 H2] H3. split; [exact H1|now apply IH].
Qed.

Lemma spells_rev (w mid : text) : spells w mid = true -> spells (rev w) (rev mid) = true.
Proof.
  revert mid; induction w as [|x w IH]; intros [|c mid]; simpl; try easy.
  rewrite andb_true_iff. intros [H1 H2].
  apply spells_app; [now apply IH|]. simpl. now rewrite H1.
Qed.

Lemma Matches_lit_text (fl : flags) (w s s' : text) (g g' : groups) :
  basic_latin w ->
  IGNORECASE fl = true ->
  Matches fl (lit_text w) s g s' g' ->
  exists mid, s = mid ++ s' /\ g' = g /\ spells w mid = true.
Proof.
  intros Hw Hfl. revert s g; induction Hw as [|x w Hx _ IH]; intros s g H; simpl in H.
  - inv H. now exists [].
  - inv H. inv_matches.
    match goal with
    | H : Matches _ (lit_text _) _ _ _ _ |- _ =>
        destruct (IH _ _ H) as [mid [-> [-> Hl]]]
    end.
    match goal with
    | H : lit_ok _ _ ?c = true |- _ =>
        rewrite (@lit_ok_ignorecase fl x c Hfl), (@lit_ok_basic_latin x c Hx) in H;
        exists (c :: mid); simpl; now rewrite H, Hl
    end.
Qed.

Lemma tariff_pattern_name (name s s' : text) (g : groups) :
  basic_latin name ->
  Matches I (tariff_pattern name) s [] s' g ->
  exists mid rest, s = mid ++ rest /\ group 1 g = Some mid /\ spells name mid = true.
Proof.
  change (tariff_pattern name) with (Cat (Group 1 (lit_text name)) after_tariff_name).
  intros Hname H. inv H.
  match goal with
  | H1 : Matches _ (Group _ _) _ _ _ _, H2 : Matches _ after_tariff_name _ _ _ _ |- _ =>
      inv H1; apply (Matches_other_groups 1) in H2;
        [|vm_compute; intuition discriminate]
  end.
  match goal with
  | H : Matches _ (lit_text _) _ _ _ _ |- _ =>
      apply Matches_lit_text in H; [|exact Hname|reflexivity];
      destruct H as [mid [-> [-> Hl]]]
  end.
  exists mid, s1. rewrite consumed_app in *. simpl in *. auto.
Qed.

Lemma lstrip_fixed (a b : text) :
  spells b a = true -> lstrip b = b -> lstrip a = a.
Proof.
  destruct a as [|c a], b as [|x b]; simpl; try easy.
  rewrite andb_true_iff. intros [Hc _] Hb.
  assert (Hx : is_space x = false).
  { destruct (is_space x); [|reflexivity].
    pose proof (lstrip_length b) as Hlen. rewrite Hb in Hlen. simpl in Hlen. lia. }
  now rewrite (same_ignoring_case_space _ _ Hc), Hx.
Qed.

Lemma strip_fixed (a b : text) :
  spells b a = true -> lstrip b = b -> lstrip (rev b) = rev b -> strip a = a.
Proof.
  intros Hl H1 H2. unfold strip, rstrip.
  rewrite (@lstrip_fixed a b Hl H1).
  rewrite (@lstrip_fixed (rev a) (rev b)); [apply rev_involutive| |exact H2].
  now apply spells_rev.
Qed.

Lemma tariff_names_basic_latin (name : text) :
  In name tariff_names -> basic_latin name.
Proof. simpl. intros [<-|[<-|[<-|[]]]]; latin. Qed.

Lemma tariff_names_trimmed (name : text) :
  In name tariff_names -> lstrip name = name /\ lstrip (rev name) = rev name.
Proof.
  simpl. intros [<-|[<-|[<-|[]]]]; split; reflexivity.
Qed.

Lemma tariff_loop_some (names : list text) (t tariff : text)
      (start_date end_date : option text) :
  tariff_loop names t = (Some tariff, start_date, end_date) ->
  exists name mo,
    In name names /\ search I (tariff_pattern name) t = Some mo
    /\ tariff = strip (group_text 1 (m_groups mo)).
Proof.
  induction names as [|name names IH]; simpl; [easy|].
  destruct (search I (tariff_pattern name) t) as [mo|] eqn:E.
  - intros H; injection H; intros _ _ <-. exists name, mo. auto.
  - intros H. destruct (IH H) as [name' [mo [Hin H']]]. exists name', mo. auto.
Qed.

(** C10: the tariff that is returned is a part of the text, spelled as the
    text spells it, and it spells a known tariff name in some letter case;
    for the text of the example it is "cosy octopus". *)
Theorem tariff_as_spelled_in_text :
  (forall t tariff start_date end_date,
      extract_tariff_and_billing_period t = (Some tariff, start_date, end_date) ->
      occurs_in tariff t
      /\ exists name, In name tariff_names /\ spells name tariff = true)
  /\ extract_tariff_and_billing_period
       (str "cosy octopus (12th May 2025 - 24th May 2025)")
     = (Some (str "cosy octopus"), Some (str "12th May 2025"),
        Some (str "24th May 2025")).
Proof.
  split; [|vm_compute; reflexivity].
  intros t tariff start_date end_date H.
  apply tariff_loop_some in H. destruct H as [name [mo [Hin [Hs ->]]]].
  apply search_from_some in Hs. destruct Hs as [pre [s1 [-> [_ [Hm _]]]]].
  apply match_at_sound, tariff_pattern_name in Hm;
    [|now apply tariff_names_basic_latin].
  destruct Hm as [mid [rest [-> [Hg Hl]]]].
  unfold group_text. rewrite Hg.
  destruct (@tariff_names_trimmed name Hin) as [H1 H2].
  rewrite (@strip_fixed mid name Hl H1 H2). split.
  - now exists pre, rest.
  - now exists name.
Qed.

(** ** The address *)

Lemma m_postcode_or_end (s : text) (g : groups) :
  m I_S (Alt (lit "Postcode") Dollar) s g accept
  = if capture_stop s
    then Some (if starts_with_ci (str "Postcode") s then skipn 8 s else s, g)
    else None.
Proof.
  cbn [m]. unfold lit. rewrite m_lit_text by (first [reflexivity | latin]).
  unfold capture_stop, accept.
  destruct (starts_with_ci (str "Postcode") s); simpl; [reflexivity|].
  now destruct (at_end s).
Qed.

Lemma dot_ok_dotall (c : char) : dot_ok I_S c = true.
Proof. reflexivity. Qed.

Lemma lazy_capture (whole taken s : text) (g : groups) :
  whole = taken ++ s ->
  lazy_class (dot_ok I_S)
    (fun s1 g1 => m I_S (Alt (lit "Postcode") Dollar) s1
                    ((1%nat, consumed whole s1) :: g1) accept) s g
  = Some (after_capture s, (1%nat, taken ++ captured s) :: g).
Proof.
  revert taken; induction s as [|c s IH]; intros taken Hw.
  - cbn [lazy_class]. rewrite m_postcode_or_end.
    rewrite (@consumed_eq whole taken [] Hw).
    change (captured []) with (@nil char). now rewrite app_nil_r.
  - cbn [lazy_class]. rewrite m_postcode_or_end.
    cbn [captured after_capture].
    destruct (capture_stop (c :: s)) eqn:E.
    + rewrite (@consumed_eq whole taken (c :: s) Hw). simpl.
      now rewrite app_nil_r.
    + cbn [or_else]. rewrite dot_ok_dotall.
      rewrite (IH (taken ++ [c])) by (now rewrite <- app_assoc).
      now rewrite <- app_assoc.
Qed.

Lemma lit_ok_colon (c : char) : lit_ok I_S 58 c = (c =? 58).
Proof. now rewrite (@lit_ok_uncased I_S 58 c) by reflexivity. Qed.

(** The end of an address pattern never fails: it takes the colon and the
    white space that are there, then the shortest text that "Postcode" or
    the end of the text follows. *)
Lemma m_address_tail (s : text) (g : groups) :
  m I_S address_tail s g accept
  = Some (after_capture (lstrip (skip_colon s)),
          (1%nat, captured (lstrip (skip_colon s))) :: g).
Proof.
  assert (Hgroup : forall x g,
             m I_S (Cat (Group 1 (LazyStar Dot)) (Alt (lit "Postcode") Dollar)) x g accept
             = Some (after_capture x, (1%nat, captured x) :: g)).
  { intros x g'.
    change (m I_S (LazyStar Dot) x g'
              (fun s1 g1 => m I_S (Alt (lit "Postcode") Dollar) s1
                              ((1%nat, consumed x s1) :: g1) accept)
            = Some (after_capture x, (1%nat, captured x) :: g')).
    rewrite m_lazy_dot. now rewrite (@lazy_capture x [] x g' eq_refl). }
  assert (Hspace : forall x g,
             m I_S (Cat (Star Space)
                        (Cat (Group 1 (LazyStar Dot)) (Alt (lit "Postcode") Dollar)))
               x g accept
             = Some (after_capture (lstrip x), (1%nat, captured (lstrip x)) :: g)).
  { intros x g'.
    change (m I_S (Star (Set_ [SpaceCat])) x g'
              (fun s1 g1 =>
                 m I_S (Cat (Group 1 (LazyStar Dot)) (Alt (lit "Postcode") Dollar))
                   s1 g1 accept)
            = Some (after_capture (lstrip x), (1%nat, captured (lstrip x)) :: g')).
    rewrite m_star_set.
    rewrite (greedy_class_ext _ is_space) by apply set_ok_space.
    rewrite lstrip_drop_while.
    rewrite greedy_class_longest; now rewrite Hgroup. }
  change (or_else
            (one (lit_ok I_S 58) s g
               (fun s1 g1 =>
                  m I_S (Cat (Star Space)
                             (Cat (Group 1 (LazyStar Dot))
                                  (Alt (lit "Postcode") Dollar))) s1 g1 accept))
            (m I_S (Cat (Star Space)
                        (Cat (Group 1 (LazyStar Dot)) (Alt (lit "Postcode") Dollar)))
               s g accept)
          = Some (after_capture (lstrip (skip_colon s)),
                  (1%nat, captured (lstrip (skip_colon s))) :: g)).
  destruct s as [|c s]; cbn [one skip_colon].
  - cbn [or_else]. apply Hspace.
  - rewrite lit_ok_colon. destruct (c =? 58).
    + now rewrite Hspace.
    + cbn [or_else]. apply Hspace.
Qed.

(** The second pattern at the front of [s]. *)
Lemma match_at_address (s : text) :
  match_at I_S (sequence ([lit "Address"; opt colon; Star Space] ++ address_body))
           false s
  = option_map (fun rest => (after_capture (lstrip (skip_colon rest)),
                             [(1%nat, captured (lstrip (skip_colon rest)))]))
               (address_label s).
Proof.
  unfold match_at.
  change (m I_S (lit_text (str "Address")) s []
            (fun s1 g1 => m I_S address_tail s1 g1 accept)
          = option_map (fun rest => (after_capture (lstrip (skip_colon rest)),
                                     [(1%nat, captured (lstrip (skip_colon rest)))]))
                       (address_label s)).
  rewrite m_lit_text by (first [reflexivity | latin]). unfold address_label.
  destruct (starts_with_ci (str "Address") s); [|reflexivity].
  apply m_address_tail.
Qed.

(** The first pattern at the front of [s]. *)
Lemma match_at_supply_address (s : text) :
  match_at I_S
           (sequence ([lit "Supply"; plus Space; lit "Address"; opt colon; Star Space]
                      ++ address_body)) false s
  = option_map (fun rest => (after_capture (lstrip (skip_colon rest)),
                             [(1%nat, captured (lstrip (skip_colon rest)))]))
               (supply_address_label s).
Proof.
  unfold match_at.
  change (m I_S (lit_text (str "Supply")) s []
            (fun s1 g1 =>
               one (set_ok I_S [SpaceCat]) s1 g1
                   (fun s2 g2 =>
                      m I_S (Star (Set_ [SpaceCat])) s2 g2
                        (fun s3 g3 =>
                           m I_S (lit_text (str "Address")) s3 g3
                             (fun s4 g4 => m I_S address_tail s4 g4 accept))))
          = option_map (fun rest => (after_capture (lstrip (skip_colon rest)),
                                     [(1%nat, captured (lstrip (skip_colon rest)))]))
                       (supply_address_label s)).
  rewrite m_lit_text by (first [reflexivity | latin]). unfold supply_address_label.
  destruct (starts_with_ci (str "Supply") s); [|reflexivity].
  change (length (str "Supply")) with 6%nat.
  destruct (skipn 6 s) as [|c s1]; [reflexivity|].
  cbn [one]. rewrite set_ok_space.
  destruct (is_space c); [|reflexivity]. cbn [andb].
  rewrite m_star_set.
  rewrite (greedy_class_ext _ is_space) by apply set_ok_space.
  rewrite greedy_class_blocked.
  - rewrite <- lstrip_drop_while. rewrite m_lit_text by (first [reflexivity | latin]).
    destruct (starts_with_ci (str "Address") (lstrip s1)); [|reflexivity].
    apply m_address_tail.
  - intros c' s' Hc'. rewrite m_lit_text by (first [reflexivity | latin]).
    change (str "Address") with (65 :: str "ddress").
    cbn [starts_with_ci].
    destruct (same_ignoring_case 65 c') eqn:E; [|reflexivity].
    apply same_ignoring_case_space in E. rewrite Hc' in E. discriminate.
Qed.


Lemma search_find_label (fl : flags) (r : regex) (label : text -> option text)
      (F : text -> text * groups) (t before : text) :
  (forall s, match_at fl r false s = option_map F (label s)) ->
  option_map m_groups (search_from fl r before t)
  = option_map (fun rest => snd (F rest)) (find_label label t).
Proof.
  intros Hm. revert before; induction t as [|c t IH]; intros before;
    cbn [search_from find_label]; rewrite Hm.
  - destruct (label []) as [rest|]; simpl; [|reflexivity]. now destruct (F rest).
  - destruct (label (c :: t)) as [rest|]; simpl; [|apply IH]. now destruct (F rest).
Qed.

(** A final newline, before which [$] matches, is trimmed anyway. *)
Lemma strip_snoc_space (u : text) (c : char) :
  is_space c = true -> strip (u ++ [c]) = strip u.
Proof.
  intros Hc. unfold strip. induction u as [|x u IH]; simpl.
  - now rewrite Hc.
  - destruct (is_space x); [exact IH|].
    unfold rstrip. change (x :: u ++ [c]) with ((x :: u) ++ [c]).
    rewrite rev_unit. simpl. now rewrite Hc.
Qed.

Lemma captured_or_newline (s : text) :
  captured s = up_to_first_postcode s
  \/ up_to_first_postcode s = captured s ++ [10].
Proof.
  induction s as [|c s IH]; [left; reflexivity|].
  cbn [captured up_to_first_postcode]. unfold capture_stop.
  destruct (starts_with_ci (str "Postcode") (c :: s)); [left; reflexivity|].
  cbn [orb]. destruct (at_end (c :: s)) eqn:E.
  - right. destruct s as [|c' s]; [|discriminate].
    simpl in E. apply N.eqb_eq in E. now subst.
  - destruct IH as [-> | ->]; [left|right]; reflexivity.
Qed.

Lemma strip_captured (s : text) : strip (captured s) = strip (up_to_first_postcode s).
Proof.
  destruct (captured_or_newline s) as [-> | ->]; [reflexivity|].
  now rewrite strip_snoc_space.
Qed.

Lemma address_of_search (r : regex) (label : text -> option text) (t : text)
      (otherwise : option text) :
  (forall s,
      match_at I_S r false s
      = option_map (fun rest => (after_capture (lstrip (skip_colon rest)),
                                 [(1%nat, captured (lstrip (skip_colon rest)))]))
                   (label s)) ->
  match search I_S r t with
  | Some matches =>
      Some (sub no_flags (plus Space) [32] (strip (group_text 1 (m_groups matches))))
  | None => otherwise
  end
  = match find_label label t with
    | Some rest =>
        Some (replace_space_runs [32]
                (strip (up_to_first_postcode (lstrip (skip_colon rest)))))
    | None => otherwise
    end.
Proof.
  intros Hm. pose proof (@search_find_label I_S r label _ t [] Hm) as H.
  fold (search I_S r t) in H.
  destruct (search I_S r t) as [mo|], (find_label label t) as [rest|];
    simpl in H; try discriminate; [|reflexivity].
  injection H; intros ->. cbn [group_text group Nat.eqb].
  now rewrite sub_space_runs, strip_captured.
Qed.

(** C8, as the code has it: the address is what follows the first label
    "Supply", white space, "Address" or, when the text has none, the first
    "Address", in any case; an optional colon and white space are skipped
    and the capture is the shortest one: it ends before the first
    "Postcode", in any case, or at the end of the text, and may span lines;
    it is returned trimmed, every run of white space made one space.
    Without a label nothing is returned. *)
Theorem extract_address_shortest_capture (t : text) :
  extract_address t = address_as_amended t.
Proof.
  unfold extract_address, address_patterns, address_as_amended, address_with.
  cbn [address_loop].
  rewrite (@address_of_search _ supply_address_label t _ match_at_supply_address).
  destruct (find_label supply_address_label t) as [rest|]; [reflexivity|].
  rewrite (@address_of_search _ address_label t None match_at_address).
  now destruct (find_label address_label t).
Qed.

(** The capture is not greedy: with two "Postcode" in the text it ends at
    the first. *)
Lemma extract_address_greedy_counterexample :
  extract_address (str "Address: 1 High St Postcode AB1 2CD Postcode")
  = Some (str "1 High St")
  /\ address_as_claimed (str "Address: 1 High St Postcode AB1 2CD Postcode")
     = Some (str "1 High St Postcode AB1 2CD")
  /\ extract_address (str "Address: 1 High St Postcode AB1 2CD Postcode")
     <> address_as_claimed (str "Address: 1 High St Postcode AB1 2CD Postcode").
Proof.
  split; [vm_compute; reflexivity|].
  split; [vm_compute; reflexivity|].
  vm_compute. discriminate.
Qed.

(** ** The theorems at work on examples *)

Ltac differ :=
  first [ apply both_end
        | apply same_char; differ
        | apply space_left; [reflexivity|differ]
        | apply space_right; [reflexivity|differ]
        | apply other_case; [vm_compute; reflexivity|differ] ].

Lemma not_among (l : list char) (c : char) : among l c = false -> ~ In c l.
Proof. intros H Hin. apply among_In in Hin. congruence. Qed.

Lemma calculate_fingerprint_invariant_witness :
  ~ In capital_sigma (str "Total:  £50.00
 Gas")
  /\ ~ In capital_sigma (str "TOTAL: £50.00 gas ")
  /\ differ_in_case_and_space_only (str "Total:  £50.00
 Gas") (str "TOTAL: £50.00 gas ")
  /\ calculate_fingerprint (str "Total:  £50.00
 Gas")
     = calculate_fingerprint (str "TOTAL: £50.00 gas ").
Proof.
  assert (H1 : ~ In capital_sigma (str "Total:  £50.00
 Gas")) by (apply not_among; vm_compute; reflexivity).
  assert (H2 : ~ In capital_sigma (str "TOTAL: £50.00 gas "))
    by (apply not_among; vm_compute; reflexivity).
  assert (H : differ_in_case_and_space_only (str "Total:  £50.00
 Gas") (str "TOTAL: £50.00 gas ")).
  { vm_compute. differ. }
  split; [exact H1|]. split; [exact H2|].
  split; [exact H|exact (calculate_fingerprint_invariant H1 H2 H)].
Defined.

(** A capital sigma is lowered to the final small sigma at the end of a
    word and to the other small sigma inside one: taking out the space
    after it changes the fingerprint. *)
Lemma calculate_fingerprint_sigma_counterexample :
  differ_in_case_and_space_only (str "aΣ b") (str "aΣb")
  /\ calculate_fingerprint (str "aΣ b") = Some (str "f5eb19ce36d7f4e1fa117c95e4ebae65")
  /\ calculate_fingerprint (str "aΣb") = Some (str "e5f59413ffbab67419112ae44261abbc")
  /\ calculate_fingerprint (str "aΣ b") <> calculate_fingerprint (str "aΣb").
Proof.
  split; [vm_compute; differ|].
  split; [vm_compute; reflexivity|]. split; [vm_compute; reflexivity|].
  vm_compute. discriminate.
Qed.

Lemma same_date_amount_type_groups_witness :
  identify_duplicates example_batch = Ok [example_group]
  /\ In example_group [example_group]
  /\ group_of_different_scans example_batch [str "a.png"; str "b.png"]
       (str "12 May 2025") (str "50.00") (str "Unknown").
Proof.
  assert (H1 : identify_duplicates example_batch = Ok [example_group])
    by (vm_compute; reflexivity).
  assert (H2 : In example_group [example_group]) by (left; reflexivity).
  split; [exact H1|]. split; [exact H2|].
  exact (@same_date_amount_type_groups example_batch [example_group] _ _ _ _ H1 H2).
Defined.


Lemma extract_amount_priority_witness :
  (exists p, In p amount_patterns
             /\ matches_somewhere p (str "Total: 99.99 of which VAT £5.00"))
  /\ first_match_of_first_pattern amount_patterns
       (str "Total: 99.99 of which VAT £5.00")
       (extract_amount (str "Total: 99.99 of which VAT £5.00"))
  /\ extract_amount (str "Total: 99.99 of which VAT £5.00") = Some (str "5.00").
Proof.
  assert (H : exists p, In p amount_patterns
                        /\ matches_somewhere p (str "Total: 99.99 of which VAT £5.00")).
  { exists (sequence [lit "Total"; opt colon; Star Space; opt currency; two_decimals]).
    split; [do 3 right; left; reflexivity|].
    exists [], (str "Total: 99.99 of which VAT £5.00").
    split; [vm_compute; reflexivity|]. vm_compute. discriminate. }
  split; [exact H|]. split; [exact (extract_amount_priority H)|].
  vm_compute. reflexivity.
Defined.

Lemma extract_bill_type_policy_witness :
  (contains_ci (str "gas") (str "Gas and electricity bill")
   /\ extract_bill_type (str "Gas and electricity bill") = str "Gas")
  /\ (~ contains_ci (str "gas") (str "ELECTRICITY statement")
      /\ (contains_ci (str "electric") (str "ELECTRICITY statement")
          \/ contains_ci (str "electricity") (str "ELECTRICITY statement"))
      /\ extract_bill_type (str "ELECTRICITY statement") = str "Electric")
  /\ (~ contains_ci (str "gas") (str "Water")
      /\ ~ contains_ci (str "electric") (str "Water")
      /\ ~ contains_ci (str "electricity") (str "Water")
      /\ extract_bill_type (str "Water") = str "Unknown").
Proof.
  assert (G1 : contains_ci (str "gas") (str "Gas and electricity bill")).
  { exists [], (str "Gas"), (str " and electricity bill").
    split; vm_compute; reflexivity. }
  assert (N2 : ~ contains_ci (str "gas") (str "ELECTRICITY statement")).
  { intros H. apply found_search_lit in H; [|latin]. vm_compute in H. discriminate. }
  assert (E2 : contains_ci (str "electric") (str "ELECTRICITY statement")
               \/ contains_ci (str "electricity") (str "ELECTRICITY statement")).
  { left. exists [], (str "ELECTRIC"), (str "ITY statement").
    split; vm_compute; reflexivity. }
  assert (N3 : ~ contains_ci (str "gas") (str "Water")).
  { intros H. apply found_search_lit in H; [|latin]. vm_compute in H. discriminate. }
  assert (N4 : ~ contains_ci (str "electric") (str "Water")).
  { intros H. apply found_search_lit in H; [|latin]. vm_compute in H. discriminate. }
  assert (N5 : ~ contains_ci (str "electricity") (str "Water")).
  { intros H. apply found_search_lit in H; [|latin]. vm_compute in H. discriminate. }
  split; [split; [exact G1|]|split; [split; [exact N2|split; [exact E2|]]|]].
  - exact (proj1 (extract_bill_type_policy _) G1).
  - exact (proj1 (proj2 (extract_bill_type_policy _)) N2 E2).
  - split; [exact N3|]. split; [exact N4|]. split; [exact N5|].
    exact (proj2 (proj2 (extract_bill_type_policy _)) N3 N4 N5).
Defined.

Lemma absent_fields_never_grouped_witness :
  identify_duplicates example_batch = Ok [example_group]
  /\ absent_field scan_undated
  /\ [str "a.png"; str "b.png"]
     = map Filename
         (filter (with_triple (str "12 May 2025") (str "50.00") (str "Unknown"))
                 example_batch)
  /\ with_triple (str "12 May 2025") (str "50.00") (str "Unknown") scan_undated = false
  /\ same_date_amount_type_pass ([scan_a] ++ scan_undated :: [scan_b])
     = same_date_amount_type_pass ([scan_a] ++ [scan_b]).
Proof.
  assert (H1 : identify_duplicates example_batch = Ok [example_group])
    by (vm_compute; reflexivity).
  assert (H2 : In example_group [example_group]) by (left; reflexivity).
  assert (H3 : absent_field scan_undated) by (left; reflexivity).
  destruct (proj1 absent_fields_never_grouped example_batch _ _ _ _ _ H1 H2)
    as [Hfiles Habsent].
  split; [exact H1|]. split; [exact H3|]. split; [exact Hfiles|].
  split; [exact (Habsent scan_undated H3)|].
  exact (proj2 absent_fields_never_grouped [scan_a] scan_undated [scan_b] H3).
Defined.

Lemma unknown_type_is_a_key_witness :
  In scan_a example_batch /\ In scan_b example_batch
  /\ Fingerprint scan_a <> Fingerprint scan_b
  /\ exists dups files,
      identify_duplicates example_batch = Ok dups
      /\ In (Same_date_amount_and_type files (str "12 May 2025") (str "50.00")
               (str "Unknown")) dups
      /\ In (Filename scan_a) files /\ In (Filename scan_b) files.
Proof.
  assert (H1 : In scan_a example_batch) by (left; reflexivity).
  assert (H2 : In scan_b example_batch) by (do 2 right; left; reflexivity).
  assert (H3 : Fingerprint scan_a <> Fingerprint scan_b)
    by (vm_compute; discriminate).
  split; [exact H1|]. split; [exact H2|]. split; [exact H3|].
  exact (@unknown_type_is_a_key example_batch scan_a scan_b
           (str "12 May 2025") (str "50.00")
           H1 H2 eq_refl eq_refl eq_refl eq_refl eq_refl eq_refl H3).
Defined.

Lemma tariff_as_spelled_in_text_witness :
  extract_tariff_and_billing_period
    (str "Tariff: AGILE octopus (1st Jan 2025 - 31st Jan 2025)")
  = (Some (str "AGILE octopus"), Some (str "1st Jan 2025"), Some (str "31st Jan 2025"))
  /\ occurs_in (str "AGILE octopus")
       (str "Tariff: AGILE octopus (1st Jan 2025 - 31st Jan 2025)")
  /\ exists name, In name tariff_names /\ spells name (str "AGILE octopus") = true.
Proof.
  assert (H : extract_tariff_and_billing_period
                (str "Tariff: AGILE octopus (1st Jan 2025 - 31st Jan 2025)")
              = (Some (str "AGILE octopus"), Some (str "1st Jan 2025"),
                 Some (str "31st Jan 2025")))
    by (vm_compute; reflexivity).
  split; [exact H|].
  exact (proj1 tariff_as_spelled_in_text _ _ _ _ H).
Defined.

(** ** The examples of the specification *)

Example md5_of_the_empty_message :
  Hashlib.md5_hexdigest [] = str "d41d8cd98f00b204e9800998ecf8427e".
Proof. vm_compute. reflexivity. Qed.

Example md5_of_abc :
  Hashlib.md5_hexdigest [97; 98; 99] = str "900150983cd24fb0d6963f7d28e17f72".
Proof. vm_compute. reflexivity. Qed.

Example md5_of_two_blocks :
  Hashlib.md5_hexdigest (repeat 97 70) = str "0f5c6c4e740bfcc08c3c26ccb2673d46".
Proof. vm_compute. reflexivity. Qed.

Example amount_after_total :
  extract_amount (str "Total: £123.45") = Some (str "123.45").
Proof. vm_compute. reflexivity. Qed.

Example tariff_and_period :
  extract_tariff_and_billing_period (str "Cosy Octopus (12th May 2025 - 24th May 2025)")
  = (Some (str "Cosy Octopus"), Some (str "12th May 2025"), Some (str "24th May 2025")).
Proof. vm_compute. reflexivity. Qed.

Example address_over_lines :
  extract_address (str "Supply Address: 12 High St
   Exeter
Postcode EX1 1AA")
  = Some (str "12 High St Exeter").
Proof. vm_compute. reflexivity. Qed.

Example two_scans_of_one_text :
  match process_bill_images terminal
          [ {| entry_name := str "a.png"; entry_isfile := true;
               entry_ocr := Ok (str "Gas TOTAL: £5.00") |};
            {| entry_name := str "b.png"; entry_isfile := true;
               entry_ocr := Ok (str "gas  total:
£5.00") |} ]
  with
  | Ok bill_data => identify_duplicates bill_data
  | Raised err => Raised err
  end
  = Ok [Exact_content_match [str "a.png"; str "b.png"]
          (str "874feecb823bd164f002ea1c79a752f2")].
Proof. vm_compute. reflexivity. Qed.

Example no_record_no_frame :
  identify_duplicates [] = Raised (KeyError (str "Fingerprint")).
Proof. reflexivity. Qed.

(** * Further properties *)

(** ** The exact-content pass *)

Lemma in_insert_count (p q : text * nat) (ps : list (text * nat)) :
  In p (Pandas.insert_count q ps) <-> p = q \/ In p ps.
Proof.
  induction ps as [|x ps IH]; simpl; [intuition|].
  destruct (snd x <=? snd q)%nat; simpl; [intuition|].
  rewrite IH. intuition.
Qed.

Lemma in_fold_insert_count (p : text * nat) (ps : list (text * nat)) :
  In p (fold_right Pandas.insert_count [] ps) <-> In p ps.
Proof.
  induction ps as [|q ps IH]; simpl; [easy|].
  rewrite in_insert_count, IH. intuition.
Qed.

Lemma in_value_counts (x : text) (n : nat) (xs : list text) :
  In (x, n) (Pandas.value_counts xs) <-> In x xs /\ n = Pandas.count_occ x xs.
Proof.
  unfold Pandas.value_counts. rewrite in_fold_insert_count, in_map_iff. split.
  - intros [y [H Hy]]. injection H; intros <- <-. now rewrite <- in_unique.
  - intros [Hx ->]. exists x. now rewrite in_unique.
Qed.

Lemma NoDup_unique (xs : list text) : NoDup (Pandas.unique xs).
Proof.
  induction xs as [|x xs IH]; simpl; constructor.
  - rewrite filter_In, text_eqb_refl. now intros [_ H].
  - now apply NoDup_filter.
Qed.

Lemma map_fst_insert_count (q : text * nat) (ps : list (text * nat)) (x : text) :
  In x (map fst (Pandas.insert_count q ps)) <-> x = fst q \/ In x (map fst ps).
Proof.
  rewrite !in_map_iff. split.
  - intros [p [<- H]]. apply in_insert_count in H.
    destruct H as [->|H]; [now left|right; now exists p].
  - intros [->|[p [<- H]]]; [exists q|exists p]; rewrite in_insert_count; auto.
Qed.

Lemma NoDup_insert_count (q : text * nat) (ps : list (text * nat)) :
  ~ In (fst q) (map fst ps) -> NoDup (map fst ps) ->
  NoDup (map fst (Pandas.insert_count q ps)).
Proof.
  induction ps as [|x ps IH]; simpl; intros Hq Hnd.
  - constructor; [easy|constructor].
  - destruct (snd x <=? snd q)%nat; simpl.
    + constructor; assumption.
    + inversion Hnd as [|? ? Hx Hps]; subst. constructor.
      * rewrite map_fst_insert_count. intros [E|H]; [|easy].
        apply Hq. left. now symmetry.
      * apply IH; [tauto|assumption].
Qed.

Lemma NoDup_value_counts (xs : list text) : NoDup (map fst (Pandas.value_counts xs)).
Proof.
  unfold Pandas.value_counts.
  pose proof (NoDup_unique xs) as Hnd.
  induction (Pandas.unique xs) as [|x l IH]; simpl; [constructor|].
  inversion Hnd as [|? ? Hx Hl]; subst.
  apply NoDup_insert_count; [|now apply IH].
  simpl. intros H. apply in_map_iff in H. destruct H as [[y n] [E H]].
  simpl in E; subst. apply in_fold_insert_count, in_map_iff in H.
  destruct H as [z [E Hz]]. injection E; intros _ ->. contradiction.
Qed.

Lemma count_occ_fingerprint (fingerprint : text) (df : list BillRecord) :
  Pandas.count_occ fingerprint (map Fingerprint df)
  = length (filter (with_fingerprint fingerprint) df).
Proof.
  induction df as [|r df IH]; simpl; [reflexivity|].
  unfold with_fingerprint at 1.
  replace (text_eqb fingerprint (Fingerprint r))
    with (text_eqb (Fingerprint r) fingerprint).
  - destruct (text_eqb (Fingerprint r) fingerprint); simpl; now rewrite IH.
  - apply eq_true_iff_eq. rewrite !text_eqb_eq. split; congruence.
Qed.

Lemma exact_content_pass_spec (df : list BillRecord) (files : list text)
      (fingerprint : text) :
  In (Exact_content_match files fingerprint) (exact_content_pass df)
  <-> files = map Filename (filter (with_fingerprint fingerprint) df)
      /\ (2 <= length files)%nat.
Proof.
  unfold exact_content_pass. rewrite in_map_iff. split.
  - intros [fp [H Hfp]]. injection H; intros -> <-.
    apply in_map_iff in Hfp. destruct Hfp as [[fp' n] [E Hin]].
    simpl in E; subst. apply filter_In in Hin. destruct Hin as [Hin Hn].
    apply in_value_counts in Hin. destruct Hin as [_ ->].
    simpl in Hn. apply Nat.ltb_lt in Hn.
    rewrite count_occ_fingerprint in Hn. split; [reflexivity|].
    rewrite length_map. exact Hn.
  - intros [-> Hlen]. rewrite length_map in Hlen.
    exists fingerprint. split; [reflexivity|].
    apply in_map_iff.
    exists (fingerprint, Pandas.count_occ fingerprint (map Fingerprint df)).
    split; [reflexivity|]. apply filter_In. split.
    + apply in_value_counts. split; [|reflexivity].
      destruct (filter (with_fingerprint fingerprint) df) as [|r l] eqn:E;
        [simpl in Hlen; lia|].
      assert (Hr : In r (filter (with_fingerprint fingerprint) df))
        by (rewrite E; now left).
      apply filter_In in Hr. destruct Hr as [Hr Hfp].
      apply text_eqb_eq in Hfp. subst. now apply in_map.
    + simpl. apply Nat.ltb_lt. now rewrite count_occ_fingerprint.
Qed.

Lemma identify_duplicates_exact (bill_data : list BillRecord) (dups : list duplicate)
      (files : list text) (fingerprint : text) :
  identify_duplicates bill_data = Ok dups ->
  (In (Exact_content_match files fingerprint) dups
   <-> In (Exact_content_match files fingerprint) (exact_content_pass bill_data)).
Proof.
  destruct bill_data as [|r rest]; simpl; [easy|].
  intros H; injection H; intros <-. rewrite in_app_iff. split; [|auto].
  intros [Hin|Hin]; [exact Hin|].
  unfold same_date_amount_type_pass in Hin. apply in_flat_map in Hin.
  destruct Hin as [[[[d a] t] group] [_ Hin]].
  destruct (_ && _); [destruct Hin as [Hin|[]]; discriminate|easy].
Qed.

(** X1: a fingerprint is reported as an exact content match when at least
    two records of the batch have it, and only then, with the file names
    of all the records that have it, in the order of the batch. *)
Theorem exact_content_match_groups
        (bill_data : list BillRecord) (dups : list duplicate)
        (files : list text) (fingerprint : text) :
  identify_duplicates bill_data = Ok dups ->
  (In (Exact_content_match files fingerprint) dups
   <-> files = map Filename (filter (with_fingerprint fingerprint) bill_data)
       /\ (2 <= length files)%nat).
Proof.
  intros Hrun.
  rewrite (@identify_duplicates_exact bill_data dups files fingerprint Hrun).
  apply exact_content_pass_spec.
Qed.

(** ** The order of the group keys *)

Lemma pair_compare_order (A B : Type) (cmpA : A -> A -> comparison)
      (cmpB : B -> B -> comparison) :
  is_order cmpA -> is_order cmpB -> is_order (pair_compare cmpA cmpB).
Proof.
  intros [EA [SA TA]] [EB [SB TB]]. unfold pair_compare. repeat split.
  - destruct a as [a1 b1], b as [a2 b2]; simpl.
    destruct (cmpA a1 a2) eqn:E; try discriminate.
    apply EA in E. subst. intros H. apply EB in H. now subst.
  - intros <-. destruct a as [a1 b1]; simpl.
    rewrite (proj2 (EA a1 a1) eq_refl). now apply EB.
  - intros [a1 b1] [a2 b2]; simpl. rewrite (SA a1 a2).
    destruct (cmpA a1 a2); simpl; auto.
  - intros [a1 b1] [a2 b2] [a3 b3]; simpl.
    destruct (cmpA a1 a2) eqn:E12; try discriminate;
      destruct (cmpA a2 a3) eqn:E23; try discriminate; intros H1 H2.
    + apply EA in E12, E23. subst. rewrite (proj2 (EA a3 a3) eq_refl).
      now apply TB with b2.
    + apply EA in E12. subst. now rewrite E23.
    + apply EA in E23. subst. now rewrite E12.
    + now rewrite (TA _ _ _ E12 E23).
Qed.

Lemma text_compare_order : is_order text_compare.
Proof.
  repeat split.
  - apply text_compare_eq.
  - apply text_compare_eq.
  - intros a; induction a as [|x a IH]; intros [|y b]; simpl; try reflexivity.
    rewrite (N.compare_antisym x y).
    destruct (x ?= y); simpl; auto.
  - intros a; induction a as [|x a IH]; intros [|y b] [|z c]; simpl; try easy.
    destruct (x ?= y) eqn:E12; try discriminate;
      destruct (y ?= z) eqn:E23; try discriminate; intros H1 H2.
    + apply N.compare_eq_iff in E12, E23. subst. rewrite N.compare_refl.
      now apply IH with b.
    + apply N.compare_eq_iff in E12. subst. now rewrite E23.
    + apply N.compare_eq_iff in E23. subst. now rewrite E12.
    + rewrite N.compare_lt_iff in *. replace (x ?= z) with Lt; [reflexivity|].
      symmetry. apply N.compare_lt_iff. lia.
Qed.

Lemma triple_compare_pair (k k' : triple) :
  triple_compare k k'
  = pair_compare (pair_compare text_compare text_compare) text_compare k k'.
Proof.
  destruct k as [[d a] t], k' as [[d' a'] t']. unfold pair_compare; simpl.
  destruct (text_compare d d'); [destruct (text_compare a a')|..]; reflexivity.
Qed.

Lemma triple_compare_order : is_order triple_compare.
Proof.
  pose proof (pair_compare_order
                (pair_compare_order text_compare_order text_compare_order)
                text_compare_order) as [E [S T]].
  repeat split; intros; rewrite ?triple_compare_pair in *.
  - now apply E.
  - now apply E.
  - apply S.
  - now apply T with b.
Qed.

Section AscendingKeys.

Variables Row Key : Type.
Variable key_compare : Key -> Key -> comparison.
Variable key : Row -> option Key.
Hypothesis key_order : is_order key_compare.

Lemma insert_key_ascending (k : Key) (ks : list Key) :
  ascending key_compare ks ->
  ascending key_compare (Pandas.insert_key key_compare k ks).
Proof.
  destruct key_order as [E [S T]].
  induction ks as [|k' ks IH]; simpl; [auto|]. intros [Hall Hks].
  destruct (key_compare k k') eqn:C; simpl.
  - auto.
  - repeat split; auto. constructor; [exact C|].
    rewrite Forall_forall in *. intros x Hx. apply T with k'; auto.
  - split; [|now apply IH].
    apply Forall_forall. intros x Hx.
    apply (in_insert_key _ E) in Hx. destruct Hx as [->|Hx].
    + rewrite (S k k'), C. reflexivity.
    + rewrite Forall_forall in Hall. auto.
Qed.

Lemma group_keys_ascending (rows : list Row) :
  ascending key_compare (Pandas.group_keys key_compare key rows).
Proof.
  unfold Pandas.group_keys.
  induction (flat_map _ rows) as [|k l IH]; simpl; [exact Logic.I|].
  now apply insert_key_ascending.
Qed.

Lemma ascending_NoDup (l : list Key) : ascending key_compare l -> NoDup l.
Proof.
  destruct key_order as [E _].
  induction l as [|k l IH]; simpl; [constructor|]. intros [Hall Hl].
  constructor; [|now apply IH].
  intros Hin. rewrite Forall_forall in Hall. specialize (Hall k Hin).
  rewrite (proj2 (E k k) eq_refl) in Hall. discriminate.
Qed.

End AscendingKeys.

Lemma NoDup_map_fst_filter (X Y : Type) (f : X * Y -> bool) (l : list (X * Y)) :
  NoDup (map fst l) -> NoDup (map fst (filter f l)).
Proof.
  induction l as [|p l IH]; simpl; [auto|]. intros H.
  inversion H as [|? ? Hp Hl]; subst.
  destruct (f p); simpl; [|now apply IH].
  constructor; [|now apply IH].
  intros Hin. apply Hp. apply in_map_iff in Hin. destruct Hin as [q [Hq Hin]].
  apply filter_In in Hin. apply in_map_iff. exists q. tauto.
Qed.

Lemma reported_fingerprints_app (l1 l2 : list duplicate) :
  reported_fingerprints (l1 ++ l2) = reported_fingerprints l1 ++ reported_fingerprints l2.
Proof. apply flat_map_app. Qed.

Lemma reported_triples_app (l1 l2 : list duplicate) :
  reported_triples (l1 ++ l2) = reported_triples l1 ++ reported_triples l2.
Proof. apply flat_map_app. Qed.

Lemma reported_by_exact_content_pass (df : list BillRecord) :
  reported_triples (exact_content_pass df) = []
  /\ NoDup (reported_fingerprints (exact_content_pass df)).
Proof.
  unfold exact_content_pass.
  set (fps := map fst (filter _ (Pandas.value_counts (map Fingerprint df)))).
  assert (Hnd : NoDup fps)
    by (apply NoDup_map_fst_filter, NoDup_value_counts).
  split.
  - clear Hnd. induction fps as [|fp l IH]; simpl; auto.
  - assert (E : forall l,
               reported_fingerprints
                 (map (fun fingerprint =>
                         Exact_content_match
                           (map Filename
                              (filter (fun r => text_eqb (Fingerprint r) fingerprint) df))
                           fingerprint) l) = l).
    { induction l as [|fp l IH]; simpl; [reflexivity|]. now rewrite IH. }
    now rewrite E.
Qed.

Lemma reported_by_same_pass (df : list BillRecord) :
  reported_fingerprints (same_date_amount_type_pass df) = []
  /\ NoDup (reported_triples (same_date_amount_type_pass df)).
Proof.
  unfold same_date_amount_type_pass, Pandas.groupby.
  set (pd := Pandas.groupby_filter _ _ _ df).
  pose proof (@ascending_NoDup _ _ triple_compare_order _
                (@group_keys_ascending _ _ _ date_amount_type
                   triple_compare_order pd)) as Hnd.
  induction (Pandas.group_keys triple_compare date_amount_type pd) as [|k l IH].
  - split; [reflexivity|constructor].
  - inversion Hnd as [|? ? Hk Hl]; subst. destruct (IH Hl) as [IH1 IH2].
    destruct k as [[d a] t]. cbn [map flat_map].
    destruct (_ && _).
    + rewrite reported_fingerprints_app, reported_triples_app. simpl.
      split; [exact IH1|]. constructor; [|exact IH2].
      intros Hin. apply Hk. clear - Hin.
      induction l as [|[[d' a'] t'] l IH]; [easy|].
      cbn [map flat_map] in Hin. rewrite reported_triples_app in Hin.
      apply in_app_iff in Hin. destruct Hin as [Hin|Hin]; [|right; now apply IH].
      destruct (_ && _); simpl in Hin; [|easy].
      destruct Hin as [Hin|[]]. now left.
    + simpl. now split.
Qed.

(** X2: no fingerprint is reported by two exact-content groups and no
    date, amount and type by two groups of the other kind. *)
Theorem no_group_reported_twice (bill_data : list BillRecord) (dups : list duplicate) :
  identify_duplicates bill_data = Ok dups ->
  NoDup (reported_fingerprints dups) /\ NoDup (reported_triples dups).
Proof.
  destruct bill_data as [|r rest] eqn:E; [easy|].
  intros H. injection H; intros <-. rewrite <- E. clear E.
  rewrite reported_fingerprints_app, reported_triples_app.
  destruct (reported_by_exact_content_pass bill_data) as [H1 H2].
  destruct (reported_by_same_pass bill_data) as [H3 H4].
  rewrite H1, H3, app_nil_r. now split.
Qed.

(** ** What the batch loop prints *)

Lemma bill_record_filename (filename t : text) (record : BillRecord) :
  bill_record filename t = Ok record -> Filename record = filename.
Proof.
  unfold bill_record.
  destruct (extract_tariff_and_billing_period t) as [[tariff start_date] end_date].
  destruct (calculate_fingerprint t); [|discriminate].
  intros H. injection H; intros <-. reflexivity.
Qed.

Lemma for_loop_goes_on (print : console) (folder : list dir_entry) (st : batch_state) :
  Forall (fun e => stops_at print e = None) folder ->
  for_loop print folder st
  = Ok {| bill_data := bill_data st ++ successful_records folder;
          stdout := stdout st ++ map (printed_line print) (filter is_image folder) |}.
Proof.
  intros H. revert st. induction H as [|e folder He _ IH]; intros st.
  - simpl. rewrite !app_nil_r. now destruct st.
  - cbn [for_loop successful_records flat_map filter]. unfold process_entry.
    unfold stops_at in He. destruct (is_image e); [|apply IH].
    cbn [map].
    assert (E : printed_line print e
                = match try_block e with
                  | Ok _ => match print (Processed (entry_name e)) with
                            | None => Processed (entry_name e)
                            | Some err => Error_processing (entry_name e) err
                            end
                  | Raised err => Error_processing (entry_name e) err
                  end) by reflexivity.
    rewrite E in He. rewrite E. unfold except_clause.
    destruct (try_block e) as [record|err];
      [destruct (print (Processed (entry_name e))) as [err|]|];
      rewrite ?He, IH; cbn [bill_data stdout]; rewrite <- ?app_assoc; reflexivity.
Qed.

Lemma for_loop_stops (print : console) (before : list dir_entry) (e : dir_entry)
      (after : list dir_entry) (err : exception) (st : batch_state) :
  Forall (fun e' => stops_at print e' = None) before ->
  stops_at print e = Some err ->
  for_loop print (before ++ e :: after) st = Raised err.
Proof.
  intros H He. revert st. induction H as [|e' before He' _ IH]; intros st.
  - cbn [app for_loop]. unfold process_entry. unfold stops_at, printed_line in He.
    destruct (is_image e); [|discriminate]. unfold except_clause.
    destruct (try_block e) as [record|err0];
      [destruct (print (Processed (entry_name e))) as [err0|]; [|discriminate]|];
      now rewrite He.
  - cbn [app for_loop].
    pose proof (@for_loop_goes_on print [e'] st (Forall_cons _ He' (Forall_nil _))) as H1.
    cbn [for_loop] in H1. destruct (process_entry print st e') as [st'|err']; [|discriminate].
    apply IH.
Qed.

(** X3: when the console refuses the error line of no image file, the
    loop returns, having printed one line for every image file, in the
    order of the folder: "Processed", or the error of the extraction, or
    the error of printing "Processed"; the records are those of all the
    files whose extraction succeeded, the ones of the last kind among
    them.  At the first image file whose error line the console refuses
    the loop raises what the console raises. *)
Theorem process_bill_images_prints (print : console) (folder : list dir_entry) :
  (Forall (fun e => stops_at print e = None) folder ->
   process_bill_images_state print folder
   = Ok {| bill_data := successful_records folder;
           stdout := map (printed_line print) (filter is_image folder) |})
  /\ (forall before e after err,
        folder = before ++ e :: after ->
        Forall (fun e' => stops_at print e' = None) before ->
        stops_at print e = Some err ->
        process_bill_images_state print folder = Raised err).
Proof.
  unfold process_bill_images_state. split.
  - intros H. now rewrite (@for_loop_goes_on print folder _ H).
  - intros before e after err -> H He. now apply for_loop_stops.
Qed.


(** ** Which files are images *)

Lemma last_dot_none (p : text) : last_dot p = None <-> ~ In 46 p.
Proof.
  induction p as [|c p IH]; simpl; [tauto|].
  destruct (last_dot p) as [[root ext]|].
  - split; [easy|]. intros H. exfalso. apply H. right.
    destruct (in_dec N.eq_dec 46 p) as [Hin|Hin]; [exact Hin|].
    apply IH in Hin. discriminate.
  - destruct (N.eqb_spec c 46) as [->|Hc].
    + split; [easy|]. intros H. exfalso. apply H. now left.
    + split; [|easy]. intros _ [E|Hin]; [congruence|].
      now apply (proj1 IH).
Qed.

Lemma last_dot_app (root ext : text) :
  ~ In 46 ext -> last_dot (root ++ 46 :: ext) = Some (root, 46 :: ext).
Proof.
  intros Hext. induction root as [|c root IH]; simpl.
  - now rewrite (proj2 (last_dot_none ext) Hext).
  - now rewrite IH.
Qed.

Lemma last_dot_some (p root ext : text) :
  last_dot p = Some (root, ext) ->
  p = root ++ ext /\ exists ext', ext = 46 :: ext' /\ ~ In 46 ext'.
Proof.
  revert root; induction p as [|c p IH]; intros root; simpl; [easy|].
  destruct (last_dot p) as [[root' ext0]|] eqn:E.
  - intros H. injection H; intros <- <-.
    destruct (IH root' eq_refl) as [-> Hext]. now split.
  - destruct (N.eqb_spec c 46) as [->|Hc]; [|easy].
    intros H. injection H; intros <- <-. split; [reflexivity|].
    exists p. split; [reflexivity|]. now apply last_dot_none.
Qed.

Lemma all_dots_not_proper (root : text) :
  forallb (N.eqb 46) root = negb (proper_stem root).
Proof.
  unfold proper_stem. induction root as [|c root IH]; [reflexivity|].
  cbn [forallb existsb].
  rewrite IH, negb_orb, negb_involutive. now rewrite (N.eqb_sym 46 c).
Qed.

(** [os.path.splitext]: the extension starts at the last dot of the name,
    and a name that is only dots before its last dot has none. *)
Lemma splitext_ext_app (root ext : text) :
  ~ In 46 ext ->
  splitext_ext (root ++ 46 :: ext) = if proper_stem root then 46 :: ext else [].
Proof.
  intros Hext. unfold splitext_ext.
  rewrite (@last_dot_app root ext Hext), all_dots_not_proper.
  now destruct (proper_stem root).
Qed.

Lemma lower_full_dot (c : char) : In 46 (lower_full c) <-> c = 46.
Proof.
  unfold lower_full. destruct (N.eqb_spec c 0x130) as [->|_].
  - split; [|discriminate]. simpl. intros [H|[H|[]]]; discriminate.
  - split.
    + intros [H|[]]. apply (proj1 (tolower_preimage c 46)) in H.
      vm_compute in H. destruct H as [H|[]]. now symmetry.
    + intros ->. now left.
Qed.

(** The piece that one character of a text gives to its lower-case form. *)
Lemma lower_from_cons (before : bool) (c : char) (t : text) :
  exists piece before',
    lower_from before (c :: t) = piece ++ lower_from before' t
    /\ piece <> []
    /\ (In 46 piece <-> c = 46).
Proof.
  cbn [lower_from]. do 2 eexists. split; [reflexivity|].
  destruct (N.eqb_spec c 0x3A3) as [->|_].
  - split; [discriminate|]. split; [|discriminate].
    intros [H|[]]. now destruct (_ && _).
  - split; [|apply lower_full_dot]. unfold lower_full. now destruct (c =? 0x130).
Qed.

Lemma in_lower_from_dot (before : bool) (t : text) :
  In 46 (lower_from before t) <-> In 46 t.
Proof.
  revert before. induction t as [|c t IH]; intros before; [reflexivity|].
  destruct (lower_from_cons before c t) as [piece [before' [-> [_ Hdot]]]].
  rewrite in_app_iff, IH, Hdot. simpl. intuition.
Qed.

Lemma image_extension_shape (x : text) :
  In x image_extensions -> exists x', x = 46 :: x' /\ ~ In 46 x'.
Proof.
  simpl. intros [<-|[<-|[<-|[<-|[<-|[]]]]]]; eexists; (split; [reflexivity|]);
    vm_compute; intuition discriminate.
Qed.

(** X5: an entry of the folder is processed when it is a regular file whose
    name ends in one of the five image extensions, in any letter case,
    after a stem that is not made of dots only; and only then. *)
Theorem is_image_extension (e : dir_entry) :
  is_image e = true
  <-> entry_isfile e = true
      /\ exists root ext,
          entry_name e = root ++ ext
          /\ proper_stem root = true
          /\ In (lower ext) image_extensions.
Proof.
  unfold is_image. rewrite andb_true_iff, existsb_exists.
  split; intros [Hfile H]; (split; [exact Hfile|]).
  - destruct H as [x [Hx Heq]]. apply text_eqb_eq in Heq. subst x.
    unfold splitext_ext in Hx.
    destruct (last_dot (entry_name e)) as [[root ext]|] eqn:E;
      [|apply image_extension_shape in Hx; now destruct Hx as [x' [Hx _]]].
    rewrite all_dots_not_proper in Hx.
    destruct (proper_stem root) eqn:Hroot; simpl in Hx;
      [|apply image_extension_shape in Hx; now destruct Hx as [x' [Hx _]]].
    apply last_dot_some in E. destruct E as [E _].
    now exists root, ext.
  - destruct H as [root [ext [Hname [Hroot Hin]]]].
    exists (lower ext). split; [exact Hin|]. apply text_eqb_eq.
    destruct (@image_extension_shape _ Hin) as [x' [Hx Hdot]].
    destruct ext as [|c ext']; [discriminate|].
    unfold lower in Hx.
    destruct (lower_from_cons false c ext') as [piece [before' [E [Hne Hc]]]].
    rewrite E in Hx. destruct piece as [|d piece]; [easy|].
    simpl in Hx. injection Hx; intros Hx' Hd. subst d.
    assert (c = 46) by (apply Hc; now left). subst c.
    rewrite Hname, splitext_ext_app, Hroot; [reflexivity|].
    intros Hin'. apply Hdot. rewrite <- Hx'. apply in_or_app. right.
    now apply in_lower_from_dot.
Qed.

(** ** The fingerprint as a value *)

Lemma le_bytes_spec (n : nat) (x : N) :
  length (Hashlib.le_bytes n x) = n
  /\ Forall (fun b => b < 256) (Hashlib.le_bytes n x).
Proof.
  revert x; induction n as [|n IH]; intros x; simpl; [split; constructor|].
  destruct (IH (x / 256)) as [Hl Hb]. split; [now rewrite Hl|].
  constructor; [|exact Hb]. apply N.mod_lt. lia.
Qed.

Lemma digest_spec (msg : list N) :
  length (Hashlib.digest msg) = 16%nat
  /\ Forall (fun b => b < 256) (Hashlib.digest msg).
Proof.
  unfold Hashlib.digest.
  destruct (Hashlib.blocks _ _ _) as [[[a b] c] d].
  destruct (le_bytes_spec 4 a) as [La Ba], (le_bytes_spec 4 b) as [Lb Bb],
    (le_bytes_spec 4 c) as [Lc Bc], (le_bytes_spec 4 d) as [Ld Bd].
  split.
  - rewrite !length_app, La, Lb, Lc, Ld. reflexivity.
  - repeat (apply Forall_app; split); assumption.
Qed.

Lemma hex_digit_hex_char (x : N) : x < 16 -> hex_char (Hashlib.hex_digit x) = true.
Proof.
  intros Hx. unfold Hashlib.hex_digit, hex_char, is_digit.
  destruct (N.ltb_spec x 10).
  - replace (48 <=? 48 + x) with true by (symmetry; apply N.leb_le; lia).
    replace (48 + x <=? 57) with true by (symmetry; apply N.leb_le; lia).
    reflexivity.
  - replace (97 <=? 87 + x) with true by (symmetry; apply N.leb_le; lia).
    replace (87 + x <=? 102) with true by (symmetry; apply N.leb_le; lia).
    apply orb_true_r.
Qed.

Lemma md5_hexdigest_spec (msg : list N) :
  length (Hashlib.md5_hexdigest msg) = 32%nat
  /\ Forall (fun c => hex_char c = true) (Hashlib.md5_hexdigest msg).
Proof.
  unfold Hashlib.md5_hexdigest.
  destruct (digest_spec msg) as [Hl Hb].
  assert (H : forall l,
             Forall (fun b => b < 256) l ->
             length (flat_map (fun b => [Hashlib.hex_digit (b / 16);
                                         Hashlib.hex_digit (b mod 16)]) l)
             = (2 * length l)%nat
             /\ Forall (fun c => hex_char c = true)
                  (flat_map (fun b => [Hashlib.hex_digit (b / 16);
                                       Hashlib.hex_digit (b mod 16)]) l)).
  { induction 1 as [|b l Hb' _ [IH1 IH2]]; simpl; [split; constructor|].
    split; [rewrite IH1; lia|].
    constructor; [apply hex_digit_hex_char, N.Div0.div_lt_upper_bound; lia|].
    constructor; [apply hex_digit_hex_char, N.mod_lt; lia|exact IH2]. }
  destruct (H _ Hb) as [H1 H2]. rewrite H1, Hl. now split.
Qed.

(** X6: a fingerprint is a string of 32 hexadecimal digits, the letters in
    lower case. *)
Theorem calculate_fingerprint_format (t fingerprint : text) :
  calculate_fingerprint t = Some fingerprint ->
  length fingerprint = 32%nat /\ Forall (fun c => hex_char c = true) fingerprint.
Proof.
  unfold calculate_fingerprint.
  destruct (encode (normalized_text t)) as [bytes|]; [|discriminate].
  intros H. injection H; intros <-. apply md5_hexdigest_spec.
Qed.

(** ** When the fingerprint cannot be computed *)

Lemma encode_char_none (c : char) : encode_char c = None <-> unencodable c.
Proof.
  unfold encode_char, unencodable.
  destruct (N.ltb_spec c 128); [split; [easy|lia]|].
  destruct (N.ltb_spec c 2048); [split; [easy|lia]|].
  destruct (N.ltb_spec c 65536).
  - destruct (N.leb_spec 55296 c); destruct (N.leb_spec c 57343); simpl;
      split; try easy; lia.
  - destruct (N.ltb_spec c 1114112); split; try easy; lia.
Qed.

Lemma encode_none (t : text) :
  encode t = None <-> exists c, In c t /\ encode_char c = None.
Proof.
  induction t as [|c t IH]; simpl.
  - split; [easy|]. now intros [c [[] _]].
  - destruct (encode_char c) as [bs|] eqn:Ec.
    + destruct (encode t) as [bs'|].
      * split; [easy|]. intros [c' [[<-|Hin] Hc']]; [congruence|].
        assert (H : Some bs' = None) by (apply IH; now exists c').
        discriminate.
      * split; [|easy]. intros _.
        destruct (proj1 IH eq_refl) as [c' [Hin Hc']]. exists c'. auto.
    + split; [|easy]. intros _. exists c. auto.
Qed.

Lemma unencodable_not_space (c : char) : unencodable c -> is_space c = false.
Proof.
  unfold unencodable, is_space. intros H.
  repeat match goal with
         | |- context [?a <=? ?b] => destruct (N.leb_spec a b); try lia
         | |- context [?a =? ?b] => destruct (N.eqb_spec a b); try lia
         end; reflexivity.
Qed.

(** The lower-case mapping leaves what cannot be encoded as it is, and
    gives nothing that cannot be encoded for what can. *)
Lemma tolower_unencodable (c : char) :
  unencodable (Unicode.tolower c) -> Unicode.tolower c = c.
Proof.
  intros Hu.
  destruct (@tolower_table
              (fun _ d => match encode_char d with Some _ => true | None => false end)
              ltac:(vm_compute; reflexivity) c) as [H|H]; [exact H|].
  apply encode_char_none in Hu. now rewrite Hu in H.
Qed.

Lemma unencodable_tolower (c : char) : unencodable c -> Unicode.tolower c = c.
Proof.
  intros Hu.
  destruct (@tolower_table
              (fun k _ => match encode_char k with Some _ => true | None => false end)
              ltac:(vm_compute; reflexivity) c) as [H|H]; [exact H|].
  apply encode_char_none in Hu. now rewrite Hu in H.
Qed.

Lemma unencodable_lower_full (c : char) :
  unencodable c -> c <> 0x3A3 /\ lower_full c = [c].
Proof.
  intros Hu. split.
  - intros ->. unfold unencodable in Hu. lia.
  - unfold lower_full. destruct (N.eqb_spec c 0x130) as [->|_].
    + unfold unencodable in Hu. lia.
    + now rewrite (unencodable_tolower Hu).
Qed.

Lemma lower_full_unencodable (c d : char) :
  In d (lower_full c) -> unencodable d -> d = c.
Proof.
  unfold lower_full. destruct (N.eqb_spec c 0x130) as [->|_].
  - intros [<-|[<-|[]]] Hu; unfold unencodable in Hu; lia.
  - intros [<-|[]] Hu. now apply tolower_unencodable.
Qed.

Lemma in_lower_from_self (before : bool) (c : char) (t : text) :
  In c t -> c <> 0x3A3 -> lower_full c = [c] -> In c (lower_from before t).
Proof.
  intros Hin Hs Hc. revert before. induction t as [|x t IH]; intros before; [easy|].
  cbn [lower_from]. apply in_or_app. destruct Hin as [->|Hin].
  - left. destruct (N.eqb_spec c 0x3A3); [contradiction|]. rewrite Hc. now left.
  - right. now apply IH.
Qed.

Lemma calculate_fingerprint_none (t : text) :
  calculate_fingerprint t = None <-> exists c, In c t /\ unencodable c.
Proof.
  unfold calculate_fingerprint.
  destruct (encode (normalized_text t)) as [bs|] eqn:E; simpl.
  - split; [easy|]. intros [c [Hin Hc]].
    assert (Hn : encode (normalized_text t) = None); [|congruence].
    apply encode_none. exists c. split; [|now apply encode_char_none].
    rewrite normalized_text_filter. apply filter_In. split.
    + destruct (unencodable_lower_full Hc) as [H1 H2].
      now apply in_lower_from_self.
    + now rewrite (unencodable_not_space Hc).
  - split; [|easy]. intros _. apply encode_none in E.
    destruct E as [c' [Hin Hc']]. rewrite normalized_text_filter in Hin.
    apply filter_In in Hin. destruct Hin as [Hin _].
    apply encode_char_none in Hc'.
    assert (H : Forall (fun d => unencodable d -> exists c, In c t /\ unencodable c)
                       (lower t)).
    { apply lower_from_Forall.
      - intros c _ Hc. apply Forall_forall. intros d Hd Hu.
        exists c. split; [exact Hc|].
        now rewrite <- (lower_full_unencodable _ Hd Hu).
      - intros _. split; intros Hu; unfold unencodable in Hu; lia. }
    rewrite Forall_forall in H. exact (H _ Hin Hc').
Qed.

(** X7: building the record of a text raises [UnicodeEncodeError], and no
    other exception, exactly when the text has a code point that UTF-8
    cannot encode, a lone surrogate; for every other text a record with the
    file name, a type and a fingerprint is returned. *)
Theorem bill_record_raises (filename t : text) :
  ((exists c, In c t /\ unencodable c) ->
   bill_record filename t = Raised UnicodeEncodeError)
  /\ (~ (exists c, In c t /\ unencodable c) ->
      exists record,
        bill_record filename t = Ok record
        /\ Filename record = filename
        /\ Type_ record = Some (extract_bill_type t)
        /\ Some (Fingerprint record) = calculate_fingerprint t)
  /\ (forall e, bill_record filename t = Raised e -> e = UnicodeEncodeError).
Proof.
  pose proof (calculate_fingerprint_none t) as Hnone.
  unfold bill_record.
  destruct (extract_tariff_and_billing_period t) as [[tariff start_date] end_date].
  destruct (calculate_fingerprint t) as [fingerprint|].
  - repeat split.
    + intros H. apply Hnone in H. discriminate.
    + intros _. eexists. repeat split.
    + intros e H. discriminate.
  - repeat split.
    + intros H. exfalso. apply H. now apply Hnone.
    + intros e H. now injection H.
Qed.

(** ** The normalized text *)

Lemma filter_all (X : Type) (f : X -> bool) (l : list X) :
  Forall (fun x => f x = true) l -> filter f l = l.
Proof. induction 1 as [|x l Hx _ IH]; simpl; [reflexivity|]. now rewrite Hx, IH. Qed.

Lemma Forall_filter (X : Type) (P : X -> Prop) (f : X -> bool) (l : list X) :
  Forall P l -> Forall P (filter f l).
Proof.
  induction 1 as [|x l Hx _ IH]; simpl; [constructor|].
  destruct (f x); [now constructor|exact IH].
Qed.

(** X8: the text that is hashed has no white space and no capital letter
    of the Latin alphabet left, and normalizing it once more changes
    nothing: a text and its normalized form have the same fingerprint. *)
Theorem normalized_text_normal (t : text) :
  Forall (fun c => is_space c = false /\ is_upper c = false) (normalized_text t)
  /\ normalized_text (normalized_text t) = normalized_text t
  /\ calculate_fingerprint (normalized_text t) = calculate_fingerprint t.
Proof.
  assert (Hspace : Forall (fun c => negb (is_space c) = true) (normalized_text t)).
  { rewrite normalized_text_filter. apply Forall_forall. intros c Hc.
    apply filter_In in Hc. tauto. }
  assert (Hidem : normalized_text (normalized_text t) = normalized_text t).
  { rewrite (normalized_text_filter (normalized_text t)). unfold lower.
    rewrite lower_from_lowered.
    - now apply filter_all.
    - rewrite normalized_text_filter. apply Forall_filter, lower_lowered. }
  split; [|split; [exact Hidem|unfold calculate_fingerprint; now rewrite Hidem]].
  assert (Hup : Forall (fun c => is_upper c = false) (normalized_text t)).
  { rewrite normalized_text_filter. apply Forall_filter. apply lower_from_Forall.
    - intros c _ _. apply lower_full_not_upper.
    - intros _. split; reflexivity. }
  rewrite Forall_forall in *. intros c Hc. split; [|now apply Hup].
  apply negb_true_iff. now apply Hspace.
Qed.

(** ** Where the groups of a match come from *)

Lemma Matches_group_origin (fl : flags) (n : nat) (r : regex) (s s' : text)
      (g g' : groups) :
  Matches fl r s g s' g' ->
  forall w, group n g' = Some w ->
    group n g = Some w
    \/ exists body pre s1 s2 g1 g2,
        In body (group_bodies n r) /\ s = pre ++ s1
        /\ Matches fl body s1 g1 s2 g2 /\ w = consumed s1 s2.
Proof.
  induction 1; intros w Hw; simpl; auto.
  - destruct (IHMatches2 w Hw) as [Hg|[body [pre [x1 [x2 [y1 [y2 [Hin [-> [Hm ->]]]]]]]]]].
    + destruct (IHMatches1 w Hg) as [Hg'|[body [pre [x1 [x2 [y1 [y2 [Hin [-> [Hm ->]]]]]]]]]];
        [now left|right].
      exists body, pre, x1, x2, y1, y2. rewrite in_app_iff. auto.
    + right. destruct (Matches_suffix H) as [w0 ->].
      exists body, (w0 ++ pre), x1, x2, y1, y2.
      rewrite in_app_iff, <- app_assoc. auto.
  - destruct (IHMatches w Hw) as [Hg|[body [pre [x1 [x2 [y1 [y2 [Hin [-> [Hm ->]]]]]]]]]];
      [now left|right].
    exists body, pre, x1, x2, y1, y2. rewrite in_app_iff. auto.
  - destruct (IHMatches w Hw) as [Hg|[body [pre [x1 [x2 [y1 [y2 [Hin [-> [Hm ->]]]]]]]]]];
      [now left|right].
    exists body, pre, x1, x2, y1, y2. rewrite in_app_iff. auto.
  - destruct (IHMatches2 w Hw) as [Hg|[body [pre [x1 [x2 [y1 [y2 [Hin [-> [Hm ->]]]]]]]]]].
    + destruct (IHMatches1 w Hg) as [Hg'|[body [pre [x1 [x2 [y1 [y2 [Hin [-> [Hm ->]]]]]]]]]];
        [now left|right].
      exists body, pre, x1, x2, y1, y2. auto.
    + right. destruct (Matches_suffix H) as [w0 ->].
      exists body, (w0 ++ pre), x1, x2, y1, y2. rewrite <- app_assoc. auto.
  - destruct (IHMatches2 w Hw) as [Hg|[body [pre [x1 [x2 [y1 [y2 [Hin [-> [Hm ->]]]]]]]]]].
    + destruct (IHMatches1 w Hg) as [Hg'|[body [pre [x1 [x2 [y1 [y2 [Hin [-> [Hm ->]]]]]]]]]];
        [now left|right].
      exists body, pre, x1, x2, y1, y2. auto.
    + right. destruct (Matches_suffix H) as [w0 ->].
      exists body, (w0 ++ pre), x1, x2, y1, y2. rewrite <- app_assoc. auto.
  - simpl in Hw. destruct (Nat.eqb n0 n) eqn:E.
    + right. injection Hw; intros <-.
      exists r, [], s, s1, g, g1. simpl. auto.
    + destruct (IHMatches w Hw) as [Hg|[body [pre [x1 [x2 [y1 [y2 [Hin [-> [Hm ->]]]]]]]]]];
        [now left|right].
      exists body, pre, x1, x2, y1, y2. auto.
Qed.

Lemma Matches_keeps_groups (fl : flags) (n : nat) (r : regex) (s s' : text)
      (g g' : groups) :
  Matches fl r s g s' g' -> group n g <> None -> group n g' <> None.
Proof.
  induction 1; auto. simpl. destruct (Nat.eqb n0 n); [easy|auto].
Qed.

Lemma Matches_always_sets (fl : flags) (n : nat) (r : regex) (s s' : text)
      (g g' : groups) :
  Matches fl r s g s' g' -> always_sets n r = true -> group n g' <> None.
Proof.
  induction 1; simpl; try discriminate.
  - rewrite orb_true_iff. intros [Hr|Hr]; auto.
    apply (Matches_keeps_groups n H0). auto.
  - rewrite andb_true_iff. tauto.
  - rewrite andb_true_iff. tauto.
  - destruct (Nat.eqb n0 n); [easy|auto].
Qed.

Lemma Matches_consumed (fl : flags) (r : regex) (s s' : text) (g g' : groups) :
  Matches fl r s g s' g' -> s = consumed s s' ++ s'.
Proof.
  intros H. destruct (Matches_suffix H) as [w ->]. now rewrite consumed_app.
Qed.

(** What group 1 holds after a match at the front of [s]: the text one of
    its bodies matched somewhere in [s]. *)
Lemma match_at_group (fl : flags) (r : regex) (ma : bool) (s s' : text) (g : groups)
      (w : text) :
  match_at fl r ma s = Some (s', g) -> group 1 g = Some w ->
  exists body pre s1 s2 g1 g2,
    In body (group_bodies 1 r) /\ s = pre ++ s1
    /\ Matches fl body s1 g1 s2 g2 /\ s1 = w ++ s2.
Proof.
  intros Hm Hg. apply match_at_sound in Hm.
  destruct (Matches_group_origin 1 Hm Hg)
    as [Hnone|[body [pre [s1 [s2 [g1 [g2 [Hin [-> [Hb ->]]]]]]]]]]; [discriminate|].
  exists body, pre, s1, s2, g1, g2. repeat split; auto.
  now apply Matches_consumed in Hb.
Qed.

(** ** The extractors that take the first match of the first pattern *)

Lemma first_findall_none (patterns : list regex) (t : text) :
  first_findall patterns t = None
  <-> forall p, In p patterns -> ~ matches_somewhere p t.
Proof.
  induction patterns as [|p ps IH]; [simpl; tauto|].
  rewrite first_findall_cons.
  destruct (search I p t) as [mo|] eqn:E.
  - split; [easy|]. intros H. exfalso. apply (H p); [now left|].
    apply search_from_some in E. destruct E as [pre [s1 [-> [_ [Hm _]]]]].
    exists pre, s1. split; [reflexivity|]. now rewrite Hm.
  - rewrite IH. split.
    + intros H q [<-|Hq]; [now apply search_none_nowhere|auto].
    + intros H q Hq. apply H. now right.
Qed.

Lemma first_findall_rule (patterns : list regex) (t : text) :
  first_pattern_rule patterns t (first_findall patterns t).
Proof.
  split; [apply first_findall_none|].
  unfold first_match_of_first_pattern.
  induction patterns as [|p ps IH]; intros [q [Hq Hm]]; [easy|].
  rewrite first_findall_cons.
  destruct (search I p t) as [mo|] eqn:E.
  - exists [], p, ps, (group_text 1 (m_groups mo)).
    repeat split; auto. now apply search_first_match.
  - pose proof (search_none_nowhere E) as Hno.
    destruct Hq as [<-|Hq]; [easy|].
    destruct IH as [earlier [pattern [later [v [-> [He [Hf Hv]]]]]]];
      [now exists q|].
    exists (p :: earlier), pattern, later, v. repeat split; auto.
    intros p' [<-|Hin]; auto.
Qed.

(** X9: the date, the account number and the meter number are found as
    the amount is: each extractor returns nothing exactly when none of its
    patterns matches anywhere in the text, and otherwise the first match, in
    document order, of the earliest listed pattern that matches anywhere;
    the amount extractor as well returns nothing only when no pattern
    matches. *)
Theorem extractors_first_pattern_rule (t : text) :
  first_pattern_rule date_patterns t (extract_date t)
  /\ first_pattern_rule account_patterns t (extract_account_number t)
  /\ first_pattern_rule meter_patterns t (extract_meter_number t)
  /\ (extract_amount t = None
      <-> forall p, In p amount_patterns -> ~ matches_somewhere p t).
Proof.
  repeat split; try apply first_findall_rule; apply first_findall_none.
Qed.

Ltac inv_all :=
  repeat match goal with
         | H : Matches _ (Cat _ _) _ _ _ _ |- _ => inv H
         | H : Matches _ (Alt _ _) _ _ _ _ |- _ => inv H
         | H : Matches _ (Lit _) _ _ _ _ |- _ => inv H
         | H : Matches _ (Set_ _) _ _ _ _ |- _ => inv H
         | H : Matches _ Eps _ _ _ _ |- _ => inv H
         end.

Lemma first_findall_body (patterns : list regex) (t v : text) :
  (forall p, In p patterns -> always_sets 1 p = true) ->
  first_findall patterns t = Some v ->
  exists p body pre s1 s2 g1 g2,
    In p patterns /\ In body (group_bodies 1 p)
    /\ t = pre ++ s1 /\ Matches I body s1 g1 s2 g2 /\ s1 = v ++ s2.
Proof.
  intros Hsets H. apply first_findall_search in H.
  destruct H as [p [mo [Hin [Hs ->]]]].
  apply search_from_some in Hs. destruct Hs as [pre0 [s0 [-> [_ [Hm _]]]]].
  pose proof (Matches_always_sets 1 (match_at_sound _ _ _ _ Hm) (Hsets p Hin)) as Hg.
  unfold group_text. destruct (group 1 (m_groups mo)) as [w|] eqn:E; [|easy].
  destruct (match_at_group _ _ _ _ Hm E)
    as [body [pre [s1 [s2 [g1 [g2 [Hb [-> [Hbody ->]]]]]]]]].
  exists p, body, (pre0 ++ pre), (w ++ s2), s2, g1, g2.
  rewrite <- app_assoc. auto.
Qed.

Lemma occurs_in_middle (v pre s2 : text) : occurs_in v (pre ++ v ++ s2).
Proof. now exists pre, s2. Qed.

Lemma Matches_plus_set (fl : flags) (items : list set_item) (s s' : text)
      (g g' : groups) :
  Matches fl (plus (Set_ items)) s g s' g' ->
  exists c w, s = (c :: w) ++ s' /\ g' = g
              /\ Forall (fun c => set_ok fl items c = true) (c :: w).
Proof.
  unfold plus. intros H. inv H. inv_all.
  match goal with
  | H : Matches _ (Star _) _ _ _ _ |- _ =>
      apply Matches_star_set in H; destruct H as [w [-> [-> Hw]]]
  end.
  eexists _, w. repeat split; auto.
Qed.

(** What holds of the 256 characters of the Latin-1 range, by
    inspection. *)
Lemma latin1_check (f : char -> bool) :
  forallb f (char_range 0 255) = true -> forall c, c < 256 -> f c = true.
Proof.
  intros H c Hc. rewrite forallb_forall in H. apply H. apply in_char_range. lia.
Qed.

Lemma latin1_app (a b : text) : latin1 (a ++ b) <-> latin1 a /\ latin1 b.
Proof. apply Forall_app. Qed.

Lemma set_ok_alnum (c : char) :
  c < 256 -> set_ok I [Range 65 90; Range 48 57] c = true -> is_alnum c = true.
Proof.
  intros Hc H.
  pose proof (@latin1_check
                (fun c => implb (set_ok I [Range 65 90; Range 48 57] c) (is_alnum c))
                ltac:(vm_compute; reflexivity) c Hc) as E.
  cbv beta in E. now rewrite H in E.
Qed.

Lemma decimal_latin1 (c : char) :
  c < 256 -> Unicode.is_decimal c = true -> is_digit c = true.
Proof.
  intros Hc H.
  pose proof (@latin1_check (fun c => implb (Unicode.is_decimal c) (is_digit c))
                ltac:(vm_compute; reflexivity) c Hc) as E.
  cbv beta in E. now rewrite H in E.
Qed.

Lemma Matches_alnum_run (s s' : text) (g g' : groups) :
  latin1 s ->
  Matches I (plus A_Z0_9) s g s' g' ->
  exists v, s = v ++ s' /\ v <> [] /\ Forall (fun c => is_alnum c = true) v.
Proof.
  intros Hl H. apply Matches_plus_set in H. destruct H as [c [w [-> [_ Hw]]]].
  apply latin1_app in Hl. destruct Hl as [Hl _].
  exists (c :: w). repeat split; [easy|].
  unfold latin1 in Hl. rewrite Forall_forall in *. intros x Hx.
  apply set_ok_alnum; auto.
Qed.

(** X10: in a text of the Latin-1 range, a meter number that is returned is
    not empty, is made of letters and digits only, and stands in the text as
    it is returned. *)
Theorem extract_meter_number_shape (t v : text) :
  latin1 t ->
  extract_meter_number t = Some v ->
  v <> [] /\ Forall (fun c => is_alnum c = true) v /\ occurs_in v t.
Proof.
  intros Hl H. apply first_findall_body in H.
  - destruct H as [p [body [pre [s1 [s2 [g1 [g2 [Hp [Hb [-> [Hm ->]]]]]]]]]]].
    apply latin1_app in Hl. destruct Hl as [_ Hl].
    assert (Hbody : body = plus A_Z0_9).
    { simpl in Hp. destruct Hp as [<-|[<-|[]]]; vm_compute in Hb;
        destruct Hb as [<-|[]]; reflexivity. }
    subst body. apply Matches_alnum_run in Hm; [|exact Hl].
    destruct Hm as [v' [E [Hne Hall]]]. apply app_inv_tail in E. subst v'.
    repeat split; auto. apply occurs_in_middle.
  - simpl. intros p [<-|[<-|[]]]; reflexivity.
Qed.

Lemma set_ok_separator (c : char) :
  c < 256 -> set_ok I [One 45; SpaceCat] c = true -> account_char c = true.
Proof.
  intros Hc H.
  pose proof (@latin1_check
                (fun c => implb (set_ok I [One 45; SpaceCat] c) (account_char c))
                ltac:(vm_compute; reflexivity) c Hc) as E.
  cbv beta in E. now rewrite H in E.
Qed.

Lemma set_ok_digit_latin1 (c : char) :
  c < 256 -> set_ok I [DigitCat] c = true -> is_digit c = true.
Proof. intros Hc H. rewrite set_ok_digit in H. now apply decimal_latin1. Qed.

Lemma Matches_digits_sep_digits (s s' : text) (g g' : groups) :
  latin1 s ->
  Matches I (sequence [plus Digit; opt (Set_ [One 45; SpaceCat]); plus Digit]) s g s' g' ->
  exists v, s = v ++ s' /\ starts_alnum v = true
            /\ Forall (fun c => account_char c = true) v.
Proof.
  change (sequence [plus Digit; opt (Set_ [One 45; SpaceCat]); plus Digit])
    with (Cat (plus (Set_ [DigitCat]))
              (Cat (Alt (Set_ [One 45; SpaceCat]) Eps) (plus (Set_ [DigitCat])))).
  intros Hl H. inv H.
  match goal with
  | H1 : Matches _ (plus _) _ _ _ _, H2 : Matches _ (Cat _ _) _ _ _ _ |- _ =>
      apply Matches_plus_set in H1; destruct H1 as [c1 [w1 [-> [-> Hw1]]]]; inv H2
  end.
  match goal with
  | H : Matches _ (plus _) _ _ _ _ |- _ =>
      apply Matches_plus_set in H; destruct H as [c2 [w2 [-> [-> Hw2]]]]
  end.
  assert (Hd : forall l, latin1 l -> Forall (fun c => set_ok I [DigitCat] c = true) l ->
                         Forall (fun c => account_char c = true) l).
  { intros l Hlat Hlist. unfold latin1 in Hlat. rewrite Forall_forall in *.
    intros x Hx. unfold account_char, is_alnum.
    now rewrite (set_ok_digit_latin1 (Hlat x Hx) (Hlist x Hx)). }
  apply latin1_app in Hl. destruct Hl as [Hl1 Hl].
  assert (Hc1 : is_alnum c1 = true).
  { inversion Hw1 as [|? ? Hc _]; subst. inversion Hl1 as [|? ? Hlc _]; subst.
    unfold is_alnum. now rewrite (set_ok_digit_latin1 Hlc Hc). }
  match goal with
  | H : Matches _ (Alt _ _) _ _ _ _ |- _ => inv H
  end; inv_all.
  - inversion Hl as [|? ? Hlc Hl']; subst.
    apply (proj1 (latin1_app (c2 :: w2) s')) in Hl'. destruct Hl' as [Hl2 _].
    match goal with
    | H : set_ok I [One 45; SpaceCat] ?c = true |- _ =>
        exists ((c1 :: w1) ++ c :: (c2 :: w2));
        pose proof (set_ok_separator Hlc H) as Hsep
    end.
    split; [now rewrite <- app_assoc|]. split; [exact Hc1|].
    apply Forall_app. split; [now apply Hd|]. constructor; [exact Hsep|now apply Hd].
  - apply (proj1 (latin1_app (c2 :: w2) s')) in Hl. destruct Hl as [Hl2 _].
    exists ((c1 :: w1) ++ (c2 :: w2)).
    split; [now rewrite <- app_assoc|]. split; [exact Hc1|].
    apply Forall_app. split; now apply Hd.
Qed.

(** X11: in a text of the Latin-1 range, an account number that is
    returned begins with a letter or a digit, is made of letters, digits,
    hyphens and white space only, and stands in the text as it is
    returned. *)
Theorem extract_account_number_shape (t v : text) :
  latin1 t ->
  extract_account_number t = Some v ->
  starts_alnum v = true /\ Forall (fun c => account_char c = true) v
  /\ occurs_in v t.
Proof.
  intros Hl H. apply first_findall_body in H.
  - destruct H as [p [body [pre [s1 [s2 [g1 [g2 [Hp [Hb [-> [Hm ->]]]]]]]]]]].
    apply latin1_app in Hl. destruct Hl as [_ Hl].
    assert (Hbody : body = sequence [plus Digit; opt (Set_ [One 45; SpaceCat]); plus Digit]
                    \/ body = plus A_Z0_9).
    { simpl in Hp. destruct Hp as [<-|[<-|[<-|[]]]]; vm_compute in Hb;
        destruct Hb as [<-|[]]; [left|right|right]; reflexivity. }
    destruct Hbody as [-> | ->].
    + apply Matches_digits_sep_digits in Hm; [|exact Hl].
      destruct Hm as [v' [E [Hs Hall]]]. apply app_inv_tail in E. subst v'.
      repeat split; auto. apply occurs_in_middle.
    + apply Matches_alnum_run in Hm; [|exact Hl].
      destruct Hm as [v' [E [Hne Hall]]]. apply app_inv_tail in E. subst v'.
      repeat split.
      * destruct v as [|c v]; [easy|]. now inversion Hall.
      * apply Forall_forall. intros x Hx. rewrite Forall_forall in Hall.
        unfold account_char. now rewrite (Hall x Hx).
      * apply occurs_in_middle.
  - simpl. intros p [<-|[<-|[<-|[]]]]; reflexivity.
Qed.

(** ** The shape of a date *)

Lemma Matches_alt_lits (fl : flags) (ws : list text) (s s' : text) (g g' : groups) :
  Forall basic_latin ws ->
  IGNORECASE fl = true -> ws <> [] ->
  Matches fl (alt (map lit_text ws)) s g s' g' ->
  exists w mid, In w ws /\ s = mid ++ s' /\ g' = g /\ spells w mid = true.
Proof.
  intros Hws Hfl. induction Hws as [|w1 ws Hw1 Hws IH]; [easy|]. intros _ H.
  destruct ws as [|w2 ws].
  - simpl in H. apply Matches_lit_text in H; [|exact Hw1|exact Hfl].
    destruct H as [mid [-> [-> Hl]]]. exists w1, mid. simpl; auto.
  - change (alt (map lit_text (w1 :: w2 :: ws)))
      with (Alt (lit_text w1) (alt (map lit_text (w2 :: ws)))) in H.
    inv H.
    + match goal with
      | H : Matches _ (lit_text _) _ _ _ _ |- _ =>
          apply Matches_lit_text in H; [|exact Hw1|exact Hfl];
            destruct H as [mid [-> [-> Hl]]]
      end.
      exists w1, mid. simpl; auto.
    + match goal with
      | H : Matches _ _ s g s' g' |- _ =>
          destruct (IH ltac:(easy) H) as [w [mid [Hin [-> [-> Hl]]]]]
      end.
      exists w, mid. simpl; auto.
Qed.

(** In the Latin-1 range a letter or a digit is spelled by letters and
    digits only. *)
Lemma same_ignoring_case_alnum (x c : char) :
  c < 256 -> is_alnum x = true -> same_ignoring_case x c = true -> is_alnum c = true.
Proof.
  intros Hc Hx H. unfold same_ignoring_case in H. apply among_In in H.
  assert (Hx' : x < 128).
  { unfold is_alnum, is_digit, is_upper, is_lower in Hx.
    rewrite !orb_true_iff, !andb_true_iff, !N.leb_le in Hx. lia. }
  assert (Hall : forallb (fun x => implb (is_alnum x)
                                    (forallb (fun c => implb (c <? 256) (is_alnum c))
                                             (case_forms x)))
                         (char_range 0 127) = true) by (vm_compute; reflexivity).
  rewrite forallb_forall in Hall.
  pose proof (Hall x (@in_char_range 0 127 x ltac:(lia))) as E. cbv beta in E.
  rewrite Hx in E. cbn [implb] in E. rewrite forallb_forall in E.
  specialize (E c H). apply N.ltb_lt in Hc. now rewrite Hc in E.
Qed.

Lemma month_names_basic_latin : Forall basic_latin month_names.
Proof. repeat constructor. Qed.

Lemma Matches_month (s s' : text) (g g' : groups) :
  latin1 s ->
  Matches I month s g s' g' ->
  exists v, s = v ++ s' /\ starts_alnum v = true.
Proof.
  change month with (alt (map lit_text month_names)).
  intros Hlat H.
  apply Matches_alt_lits in H; [|exact month_names_basic_latin|reflexivity|easy].
  destruct H as [w [mid [Hin [-> [_ Hl]]]]]. exists mid. split; [reflexivity|].
  assert (Hw : starts_alnum w = true).
  { assert (Hall : forallb starts_alnum month_names = true) by reflexivity.
    rewrite forallb_forall in Hall. now apply Hall. }
  destruct w as [|x w]; [discriminate|]. destruct mid as [|c mid]; [discriminate|].
  simpl in Hl, Hw. apply andb_true_iff in Hl. destruct Hl as [Hc _].
  inversion Hlat; subst. simpl. now apply same_ignoring_case_alnum with x.
Qed.

(** The digits of the Latin-1 range that a pattern has read. *)
Ltac latin_digits :=
  unfold latin1 in *;
  repeat match goal with
         | H : Forall _ (_ :: _) |- _ => inversion H; subst; clear H
         end;
  repeat match goal with
         | H1 : set_ok I [DigitCat] ?a = true, H2 : ?a < 256 |- _ =>
             apply (set_ok_digit_latin1 H2) in H1
         end.

Lemma Matches_one_or_two_digits (s s' : text) (g g' : groups) :
  latin1 s ->
  Matches I (rep_range 1 2 Digit) s g s' g' ->
  exists v, s = v ++ s' /\ starts_alnum v = true.
Proof.
  cbv [rep_range rep upto opt Digit Nat.sub]. intros Hl H. inv_all; latin_digits;
    match goal with
    | |- exists _, ?a :: ?b :: s' = _ /\ _ => exists [a; b]
    | |- exists _, ?a :: s' = _ /\ _ => exists [a]
    end; (split; [reflexivity|]); unfold starts_alnum, is_alnum;
    match goal with
    | H : is_digit ?a = true |- is_digit ?a || _ || _ = true => now rewrite H
    end.
Qed.

(** The digits of the year, which end every date pattern. *)
Lemma Matches_year (r : regex) (s s' : text) (g g' : groups) :
  r = rep_range 2 4 Digit \/ r = rep 4 Digit ->
  latin1 s ->
  Matches I r s g s' g' ->
  exists w d, s = (w ++ [d]) ++ s' /\ is_digit d = true.
Proof.
  intros [-> | ->]; cbv [rep_range rep upto opt Digit Nat.sub]; intros Hl H; inv_all;
    latin_digits;
    match goal with
    | |- exists _ _, ?a :: ?b :: ?c :: ?d :: s' = _ /\ _ => exists [a; b; c], d
    | |- exists _ _, ?a :: ?b :: ?c :: s' = _ /\ _ => exists [a; b], c
    | |- exists _ _, ?a :: ?b :: s' = _ /\ _ => exists [a], b
    end; (split; [reflexivity|assumption]).
Qed.

Lemma Matches_date_body (first last : regex) (middle : list regex)
      (s s' : text) (g g' : groups) :
  (first = rep_range 1 2 Digit \/ first = month) ->
  (last = rep_range 2 4 Digit \/ last = rep 4 Digit) ->
  latin1 s ->
  Matches I (Cat first (sequence (middle ++ [last]))) s g s' g' ->
  exists c w d, s = (c :: w ++ [d]) ++ s' /\ is_alnum c = true /\ is_digit d = true.
Proof.
  intros Hfirst Hlast Hl H. inv H.
  match goal with
  | H1 : Matches _ first _ _ ?s1 _, H2 : Matches _ (sequence _) _ _ _ _ |- _ =>
      assert (Hl1 : latin1 s1)
        by (destruct (Matches_suffix H1) as [v0 E]; rewrite E in Hl;
            apply latin1_app in Hl; tauto);
      apply Matches_sequence_last in H2;
      destruct H2 as [w0 [sl [gl [E2 H2]]]];
      rewrite E2 in Hl1; apply latin1_app in Hl1; destruct Hl1 as [_ Hl2];
      subst s1;
      pose proof (@Matches_year last sl s' gl g' Hlast Hl2 H2) as Hy;
      destruct Hy as [w2 [d [-> Hd]]];
      assert (Hv : exists v, s = v ++ w0 ++ (w2 ++ [d]) ++ s'
                             /\ starts_alnum v = true)
        by (destruct Hfirst as [-> | ->];
            [apply Matches_one_or_two_digits in H1|apply Matches_month in H1];
            assumption)
  end.
  destruct Hv as [[|c v] [-> Hc]]; [discriminate|].
  exists c, (v ++ w0 ++ w2), d. repeat split; auto.
  simpl. now rewrite <- !app_assoc.
Qed.

(** X12: in a text of the Latin-1 range, a date that is returned begins
    with a letter or a digit and ends with a digit, so the bracket, the
    dash and the white space that the last pattern allows around a date are
    not part of it, and it stands in the text as it is returned. *)
Theorem extract_date_shape (t v : text) :
  latin1 t ->
  extract_date t = Some v ->
  raw_date v /\ occurs_in v t.
Proof.
  unfold raw_date. intros Hl H. apply first_findall_body in H.
  - destruct H as [p [body [pre [s1 [s2 [g1 [g2 [Hp [Hb [-> [Hm ->]]]]]]]]]]].
    apply latin1_app in Hl. destruct Hl as [_ Hl].
    split; [|apply occurs_in_middle].
    assert (Hshape : exists c w d, v ++ s2 = (c :: w ++ [d]) ++ s2
                                   /\ is_alnum c = true /\ is_digit d = true).
    { simpl in Hp. destruct Hp as [<-|[<-|[<-|[<-|[]]]]].
      - assert (E : body = Cat (rep_range 1 2 Digit)
                              (sequence ([Set_ (chars "/-"); rep_range 1 2 Digit;
                                          Set_ (chars "/-")] ++ [rep_range 2 4 Digit])))
          by (vm_compute in Hb; destruct Hb as [<-|[]]; reflexivity).
        subst body. apply Matches_date_body in Hm; auto.
      - assert (E : body = Cat (rep_range 1 2 Digit)
                              (sequence ([plus Space; month; Star a_z; plus Space]
                                         ++ [rep_range 2 4 Digit])))
          by (vm_compute in Hb; destruct Hb as [<-|[]]; reflexivity).
        subst body. apply Matches_date_body in Hm; auto.
      - assert (E : body = Cat month
                              (sequence ([Star a_z; plus Space; rep_range 1 2 Digit;
                                          opt (Lit 44); plus Space]
                                         ++ [rep_range 2 4 Digit])))
          by (vm_compute in Hb; destruct Hb as [<-|[]]; reflexivity).
        subst body. apply Matches_date_body in Hm; auto.
      - assert (E : body = Cat (rep_range 1 2 Digit)
                              (sequence ([opt ordinal; plus Space; month; Star a_z;
                                          plus Space] ++ [rep 4 Digit])))
          by (vm_compute in Hb; destruct Hb as [<-|[]]; reflexivity).
        subst body. apply Matches_date_body in Hm; auto. }
    destruct Hshape as [c [w [d [E [Hc Hd]]]]]. apply app_inv_tail in E.
    now exists c, w, d.
  - simpl. intros p [<-|[<-|[<-|[<-|[]]]]]; reflexivity.
Qed.

(** ** The tariff and its period *)

Lemma search_group (r : regex) (n : nat) (t : text) (mo : match_object) :
  search I r t = Some mo -> always_sets n r = true ->
  exists body pre s1 s2 g1 g2,
    In body (group_bodies n r) /\ t = pre ++ s1
    /\ Matches I body s1 g1 s2 g2 /\ s1 = group_text n (m_groups mo) ++ s2.
Proof.
  intros Hs Hsets. apply search_from_some in Hs.
  destruct Hs as [pre0 [s0 [-> [_ [Hm _]]]]]. apply match_at_sound in Hm.
  pose proof (Matches_always_sets n Hm Hsets) as Hg.
  unfold group_text. destruct (group n (m_groups mo)) as [w|] eqn:E; [|easy].
  destruct (Matches_group_origin n Hm E)
    as [Hnone|[body [pre [s1 [s2 [g1 [g2 [Hin [-> [Hb ->]]]]]]]]]]; [discriminate|].
  exists body, (pre0 ++ pre), s1, s2, g1, g2. rewrite <- app_assoc.
  repeat split; auto. now apply Matches_consumed in Hb.
Qed.

Lemma is_alnum_not_space (c : char) : is_alnum c = true -> is_space c = false.
Proof.
  unfold is_alnum, is_digit, is_upper, is_lower, is_space.
  destruct (N.leb_spec 48 c); destruct (N.leb_spec c 57);
    destruct (N.leb_spec 65 c); destruct (N.leb_spec c 90);
    destruct (N.leb_spec 97 c); destruct (N.leb_spec c 122); simpl;
    try discriminate; intros _;
    repeat match goal with
           | |- context [?a <=? ?b] => destruct (N.leb_spec a b); try lia
           | |- context [?a =? ?b] => destruct (N.eqb_spec a b); try lia
           end; reflexivity.
Qed.

Lemma strip_keeps (v : text) :
  lstrip v = v -> lstrip (rev v) = rev v -> strip v = v.
Proof.
  intros H1 H2. unfold strip, rstrip. rewrite H1, H2. apply rev_involutive.
Qed.

Lemma strip_raw_date (v : text) : raw_date v -> strip v = v.
Proof.
  intros [c [w [d [-> [Hc Hd]]]]]. apply strip_keeps.
  - simpl. now rewrite (is_alnum_not_space c Hc).
  - change (c :: w ++ [d]) with ((c :: w) ++ [d]). rewrite rev_unit. simpl.
    rewrite is_alnum_not_space; [reflexivity|].
    unfold is_alnum. now rewrite Hd.
Qed.

Lemma Matches_date_pattern_part (s1 s2 v : text) (g1 g2 : groups) :
  latin1 s1 ->
  Matches I date_pattern_part s1 g1 s2 g2 -> s1 = v ++ s2 -> raw_date v.
Proof.
  change date_pattern_part
    with (Cat (rep_range 1 2 Digit)
              (sequence ([opt ordinal; plus Space; month; Star a_z; plus Space]
                         ++ [rep_range 2 4 Digit]))).
  intros Hl H E. apply Matches_date_body in H; auto.
  destruct H as [c [w [d [E' [Hc Hd]]]]]. rewrite E in E'.
  apply app_inv_tail in E'. now exists c, w, d.
Qed.

Lemma Matches_group_then (fl : flags) (n : nat) (body rest : regex)
      (s s' : text) (g g' : groups) :
  Matches fl (Cat (Group n body) rest) s g s' g' ->
  ~ In n (groups_of rest) ->
  exists w s1 g1 g2,
    s = w ++ s1 /\ group n g' = Some w
    /\ Matches fl body (w ++ s1) g s1 g1 /\ Matches fl rest s1 g2 s' g'.
Proof.
  intros H Hn. inv H.
  match goal with
  | H1 : Matches _ (Group _ _) _ _ _ _, H2 : Matches _ rest _ _ _ _ |- _ =>
      inv H1; pose proof (Matches_other_groups n H2 Hn) as Hg
  end.
  match goal with
  | H : Matches _ body _ _ ?s1 ?g1 |- _ =>
      destruct (Matches_suffix H) as [w ->]; exists w, s1, g1
  end.
  rewrite consumed_app in *. simpl in Hg. rewrite Nat.eqb_refl in Hg.
  eexists. repeat split; eauto.
Qed.

Lemma Matches_skip (fl : flags) (r rest : regex) (s s' : text) (g g' : groups) :
  Matches fl (Cat r rest) s g s' g' ->
  exists gap s1 g1, s = gap ++ s1 /\ Matches fl rest s1 g1 s' g'.
Proof.
  intros H. inv H.
  match goal with
  | H1 : Matches _ r _ _ ?s1 ?g1 |- _ =>
      destruct (Matches_suffix H1) as [gap ->]; exists gap, s1, g1
  end.
  auto.
Qed.

(** A match of a tariff pattern: the name, the first date and the second
    date, in this order, with what the pattern allows between them. *)
Lemma Matches_tariff_pattern (name s s' : text) (g : groups) :
  basic_latin name -> latin1 s ->
  Matches I (tariff_pattern name) s [] s' g ->
  exists mid gap1 d1 gap2 d2 gap3,
    s = mid ++ gap1 ++ d1 ++ gap2 ++ d2 ++ gap3 ++ s'
    /\ group 1 g = Some mid /\ group 2 g = Some d1 /\ group 3 g = Some d2
    /\ spells name mid = true /\ raw_date d1 /\ raw_date d2.
Proof.
  intros Hname Hl H.
  change (tariff_pattern name)
    with (Cat (Group 1 (lit_text name))
           (Cat (Star Space) (Cat (Lit 40) (Cat (Star Space)
             (Cat (Group 2 date_pattern_part)
               (Cat (Star Space) (Cat (Lit 45) (Cat (Star Space)
                 (Cat (Group 3 date_pattern_part)
                   (Cat (Star Space) (Lit 41))))))))))) in H.
  apply Matches_group_then in H; [|vm_compute; intuition discriminate].
  destruct H as [mid [s1 [g1 [g2 [-> [Hg1 [Hmid H]]]]]]].
  apply Matches_lit_text in Hmid; [|exact Hname|reflexivity].
  destruct Hmid as [mid' [E [_ Hsp]]]. apply app_inv_tail in E. subst mid'.
  apply latin1_app in Hl. destruct Hl as [_ Hl].
  apply Matches_skip in H. destruct H as [a1 [s2 [g3 [-> H]]]].
  apply latin1_app in Hl. destruct Hl as [_ Hl].
  apply Matches_skip in H. destruct H as [a2 [s3 [g4 [-> H]]]].
  apply latin1_app in Hl. destruct Hl as [_ Hl].
  apply Matches_skip in H. destruct H as [a3 [s4 [g5 [-> H]]]].
  apply latin1_app in Hl. destruct Hl as [_ Hl].
  apply Matches_group_then in H; [|vm_compute; intuition discriminate].
  destruct H as [d1 [s5 [g6 [g7 [-> [Hg2 [Hd1 H]]]]]]].
  pose proof (@Matches_date_pattern_part _ _ d1 _ _ Hl Hd1 eq_refl) as Hr1.
  apply latin1_app in Hl. destruct Hl as [_ Hl].
  apply Matches_skip in H. destruct H as [b1 [s6 [g8 [-> H]]]].
  apply latin1_app in Hl. destruct Hl as [_ Hl].
  apply Matches_skip in H. destruct H as [b2 [s7 [g9 [-> H]]]].
  apply latin1_app in Hl. destruct Hl as [_ Hl].
  apply Matches_skip in H. destruct H as [b3 [s8 [g10 [-> H]]]].
  apply latin1_app in Hl. destruct Hl as [_ Hl].
  apply Matches_group_then in H; [|vm_compute; intuition discriminate].
  destruct H as [d2 [s9 [g11 [g12 [-> [Hg3 [Hd2 H]]]]]]].
  pose proof (@Matches_date_pattern_part _ _ d2 _ _ Hl Hd2 eq_refl) as Hr2.
  destruct (Matches_suffix H) as [gap3 ->].
  exists mid, (a1 ++ a2 ++ a3), d1, (b1 ++ b2 ++ b3), d2, gap3.
  repeat split; auto. now rewrite <- !app_assoc.
Qed.

Lemma tariff_match (name t : text) (mo : match_object) :
  In name tariff_names -> latin1 t ->
  search I (tariff_pattern name) t = Some mo ->
  matches_somewhere (tariff_pattern name) t
  /\ spells name (strip (group_text 1 (m_groups mo))) = true
  /\ raw_date (strip (group_text 2 (m_groups mo)))
  /\ raw_date (strip (group_text 3 (m_groups mo)))
  /\ exists before gap1 gap2 after,
      t = before ++ strip (group_text 1 (m_groups mo)) ++ gap1
          ++ strip (group_text 2 (m_groups mo)) ++ gap2
          ++ strip (group_text 3 (m_groups mo)) ++ after.
Proof.
  intros Hname Hl Hs.
  apply search_from_some in Hs. destruct Hs as [pre [s1 [-> [_ [Hm _]]]]].
  split; [exists pre, s1; split; [reflexivity|now rewrite Hm]|].
  apply latin1_app in Hl. destruct Hl as [_ Hl].
  apply match_at_sound in Hm.
  apply Matches_tariff_pattern in Hm; [|now apply tariff_names_basic_latin|exact Hl].
  destruct Hm as [mid [gap1 [d1 [gap2 [d2 [gap3 [-> [H1 [H2 [H3 [Hsp [Hr1 Hr2]]]]]]]]]]]].
  unfold group_text. rewrite H1, H2, H3.
  destruct (@tariff_names_trimmed name Hname) as [T1 T2].
  rewrite (@strip_fixed mid name Hsp T1 T2), (strip_raw_date Hr1), (strip_raw_date Hr2).
  repeat split; auto.
  exists pre, gap1, gap2, (gap3 ++ m_after mo). reflexivity.
Qed.

Lemma tariff_loop_answer (names : list text) (t : text) :
  latin1 t ->
  incl names tariff_names -> tariff_answer names t (tariff_loop names t).
Proof.
  intros Hl. induction names as [|name names IH]; intros Hincl; [simpl; tauto|].
  cbn [tariff_loop].
  destruct (search I (tariff_pattern name) t) as [mo|] eqn:E.
  - destruct (@tariff_match name t mo (Hincl name (or_introl eq_refl)) Hl E)
      as [H1 [H2 [H3 [H4 H5]]]].
    exists [], name, names. repeat split; auto.
  - pose proof (search_none_nowhere E) as Hno.
    assert (Hrest : tariff_answer names t (tariff_loop names t))
      by (apply IH; intros n Hn; apply Hincl; now right).
    destruct (tariff_loop names t) as [[[ta|] [sd|]] [ed|]]; simpl in *; auto.
    + destruct Hrest as [earlier [nm [later [-> [He Hrest]]]]].
      exists (name :: earlier), nm, later. repeat split; try tauto.
      intros n [<-|Hn]; auto.
    + intros n [<-|Hn]; auto.
Qed.

(** X13: in a text of the Latin-1 range, the tariff extractor answers all
    or nothing.  It gives no tariff and no date exactly when the pattern
    of no known name matches anywhere in the text.  Otherwise it gives,
    for the first name of the list whose pattern matches somewhere, the
    name as the text spells it and the two dates of its period, each with
    the shape of a date, and the three stand in the text in this order. *)
Theorem extract_tariff_all_or_nothing (t : text) :
  latin1 t ->
  tariff_answer tariff_names t (extract_tariff_and_billing_period t)
  /\ (extract_tariff_and_billing_period t = (None, None, None)
      <-> forall name, In name tariff_names ->
                       ~ matches_somewhere (tariff_pattern name) t).
Proof.
  intros Hl.
  assert (H : tariff_answer tariff_names t (extract_tariff_and_billing_period t))
    by (apply tariff_loop_answer; [exact Hl|intros n Hn; exact Hn]).
  split; [exact H|].
  destruct (extract_tariff_and_billing_period t) as [[[ta|] [sd|]] [ed|]];
    simpl in H; try contradiction.
  - split; [discriminate|]. intros Hno.
    destruct H as [earlier [name [later [E [_ [Hm _]]]]]].
    exfalso. apply (Hno name); [|exact Hm]. rewrite E. apply in_elt.
  - split; [intros _; exact H|reflexivity].
Qed.

(** ** The address as a value *)

Lemma lstrip_head (c : char) (y : text) :
  lstrip (c :: y) = c :: y -> is_space c = false.
Proof.
  simpl. destruct (is_space c); [|reflexivity]. intros H.
  pose proof (lstrip_length y) as Hl. rewrite H in Hl. simpl in Hl. lia.
Qed.

Lemma lstrip_lstrip (y : text) : lstrip (lstrip y) = lstrip y.
Proof.
  induction y as [|c y IH]; simpl; [reflexivity|].
  destruct (is_space c) eqn:E; [exact IH|]. simpl. now rewrite E.
Qed.

Lemma lstrip_split (y : text) : exists pre, y = pre ++ lstrip y.
Proof.
  induction y as [|c y [pre IH]]; simpl; [now exists []|].
  destruct (is_space c); [|now exists []].
  exists (c :: pre). simpl. now rewrite <- IH.
Qed.

Lemma strip_trimmed (x : text) : trimmed (strip x).
Proof.
  unfold trimmed, strip, rstrip. split.
  - set (y := lstrip x).
    assert (Hy : lstrip y = y) by apply lstrip_lstrip.
    destruct (lstrip_split (rev y)) as [pre Hpre].
    assert (E : y = rev (lstrip (rev y)) ++ rev pre).
    { rewrite <- rev_app_distr, <- Hpre. symmetry. apply rev_involutive. }
    destruct (rev (lstrip (rev y))) as [|c r] eqn:Er; [reflexivity|].
    rewrite E in Hy. simpl in Hy. apply lstrip_head in Hy.
    simpl. now rewrite Hy.
  - rewrite rev_involutive. apply lstrip_lstrip.
Qed.

Lemma replace_space_runs_snoc (repl u : text) (d : char) :
  is_space d = false ->
  replace_space_runs repl (u ++ [d]) = replace_space_runs repl u ++ [d].
Proof.
  intros Hd. induction u as [|c u IH]; [simpl; now rewrite Hd|].
  destruct u as [|c' u].
  - simpl. rewrite Hd. destruct (is_space c); reflexivity.
  - change (replace_space_runs repl ((c :: c' :: u) ++ [d]))
      with (if is_space c
            then if is_space c' then replace_space_runs repl ((c' :: u) ++ [d])
                 else repl ++ replace_space_runs repl ((c' :: u) ++ [d])
            else c :: replace_space_runs repl ((c' :: u) ++ [d])).
    change (replace_space_runs repl (c :: c' :: u))
      with (if is_space c
            then if is_space c' then replace_space_runs repl (c' :: u)
                 else repl ++ replace_space_runs repl (c' :: u)
            else c :: replace_space_runs repl (c' :: u)).
    rewrite IH. destruct (is_space c), (is_space c'); simpl;
      now rewrite <- ?app_assoc.
Qed.

Lemma replace_space_runs_head (repl : text) (c : char) (u : text) :
  is_space c = false ->
  replace_space_runs repl (c :: u) = c :: replace_space_runs repl u.
Proof. intros Hc. simpl. now rewrite Hc. Qed.

Lemma replace_space_runs_trimmed (repl u : text) :
  trimmed u -> trimmed (replace_space_runs repl u).
Proof.
  intros [H1 H2]. split.
  - destruct u as [|c u]; [reflexivity|].
    pose proof (lstrip_head H1) as Hc.
    rewrite (@replace_space_runs_head _ _ _ Hc). simpl. now rewrite Hc.
  - destruct (rev u) as [|d w] eqn:E.
    + apply (f_equal (@rev char)) in E. rewrite rev_involutive in E.
      subst u. reflexivity.
    + pose proof (lstrip_head H2) as Hd.
      apply (f_equal (@rev char)) in E. rewrite rev_involutive in E.
      simpl in E. subst u.
      rewrite (@replace_space_runs_snoc _ _ _ Hd), rev_unit. simpl. now rewrite Hd.
Qed.

Lemma trimmed_strip (a : text) : trimmed a -> strip a = a.
Proof. intros [H1 H2]. now apply strip_keeps. Qed.

Lemma replace_space_runs_spaced (u : text) :
  spaced_once (replace_space_runs [32] u)
  /\ Forall (fun c => is_space c = true -> c = 32) (replace_space_runs [32] u)
  /\ forall c rest, u = c :: rest -> is_space c = false ->
                    replace_space_runs [32] u = c :: replace_space_runs [32] rest.
Proof.
  induction u as [|c u [IH1 [IH2 IH3]]].
  - repeat split; [constructor|discriminate].
  - split; [|split].
    + destruct (is_space c) eqn:Hc.
      * destruct u as [|c' u]; [simpl; now rewrite Hc|].
        change (replace_space_runs [32] (c :: c' :: u))
          with (if is_space c
                then if is_space c' then replace_space_runs [32] (c' :: u)
                     else [32] ++ replace_space_runs [32] (c' :: u)
                else c :: replace_space_runs [32] (c' :: u)).
        rewrite Hc. destruct (is_space c') eqn:Hc'; [exact IH1|].
        rewrite (IH3 c' u eq_refl Hc') in *. simpl. split; [auto|exact IH1].
      * rewrite (@replace_space_runs_head _ _ _ Hc).
        destruct (replace_space_runs [32] u) as [|c2 r]; [exact Logic.I|].
        split; [intros H; congruence|exact IH1].
    + destruct (is_space c) eqn:Hc.
      * destruct u as [|c' u]; [simpl; rewrite Hc; now repeat constructor|].
        change (replace_space_runs [32] (c :: c' :: u))
          with (if is_space c
                then if is_space c' then replace_space_runs [32] (c' :: u)
                     else [32] ++ replace_space_runs [32] (c' :: u)
                else c :: replace_space_runs [32] (c' :: u)).
        rewrite Hc. destruct (is_space c'); [exact IH2|].
        constructor; [reflexivity|exact IH2].
      * rewrite (@replace_space_runs_head _ _ _ Hc).
        constructor; [congruence|exact IH2].
    + intros c0 rest E Hc0. injection E; intros <- <-.
      now apply replace_space_runs_head.
Qed.

Lemma extract_address_form (t a : text) :
  extract_address t = Some a ->
  exists x, a = replace_space_runs [32] (strip x).
Proof.
  unfold extract_address, address_patterns. cbn [address_loop].
  destruct (search I_S _ t) as [mo|].
  - intros H. injection H; intros <-. eexists. apply sub_space_runs.
  - destruct (search I_S _ t) as [mo|]; [|discriminate].
    intros H. injection H; intros <-. eexists. apply sub_space_runs.
Qed.

(** X14: an address that is returned has no white space at either end,
    no white-space character other than the plain space, and no two of
    them in a row: it is one line of words. *)
Theorem extract_address_one_line (t a : text) :
  extract_address t = Some a ->
  strip a = a
  /\ Forall (fun c => is_space c = true -> c = 32) a
  /\ spaced_once a.
Proof.
  intros H. apply extract_address_form in H. destruct H as [x ->].
  destruct (replace_space_runs_spaced (strip x)) as [H1 [H2 _]].
  repeat split; auto.
  apply trimmed_strip, replace_space_runs_trimmed, strip_trimmed.
Qed.

(** ** The further properties at work *)

Lemma exact_content_match_groups_witness :
  identify_duplicates copied_batch = Ok copied_groups
  /\ (In (Exact_content_match [str "a.png"; str "a-copy.png"] (str "0f5c6c4e"))
         copied_groups
      <-> [str "a.png"; str "a-copy.png"]
          = map Filename (filter (with_fingerprint (str "0f5c6c4e")) copied_batch)
          /\ (2 <= length [str "a.png"; str "a-copy.png"])%nat).
Proof.
  assert (H : identify_duplicates copied_batch = Ok copied_groups)
    by (vm_compute; reflexivity).
  split; [exact H|].
  exact (@exact_content_match_groups copied_batch copied_groups
           [str "a.png"; str "a-copy.png"] (str "0f5c6c4e") H).
Defined.

Lemma no_group_reported_twice_witness :
  identify_duplicates copied_batch = Ok copied_groups
  /\ NoDup (reported_fingerprints copied_groups)
  /\ NoDup (reported_triples copied_groups).
Proof.
  assert (H : identify_duplicates copied_batch = Ok copied_groups)
    by (vm_compute; reflexivity).
  split; [exact H|].
  exact (@no_group_reported_twice copied_batch copied_groups H).
Defined.

Lemma process_bill_images_prints_witness :
  (Forall (fun e => stops_at terminal e = None) [good_entry; bad_entry]
   /\ process_bill_images_state terminal [good_entry; bad_entry]
      = Ok {| bill_data := successful_records [good_entry; bad_entry];
              stdout := map (printed_line terminal)
                            (filter is_image [good_entry; bad_entry]) |})
  /\ (Forall (fun e => stops_at strict_terminal e = None) [good_entry]
      /\ stops_at strict_terminal undecodable_entry = Some UnicodeEncodeError
      /\ process_bill_images_state strict_terminal
           ([good_entry] ++ undecodable_entry :: [good_entry])
         = Raised UnicodeEncodeError).
Proof.
  assert (H1 : Forall (fun e => stops_at terminal e = None) [good_entry; bad_entry])
    by (repeat constructor; vm_compute; reflexivity).
  assert (H2 : Forall (fun e => stops_at strict_terminal e = None) [good_entry])
    by (repeat constructor; vm_compute; reflexivity).
  assert (H3 : stops_at strict_terminal undecodable_entry = Some UnicodeEncodeError)
    by (vm_compute; reflexivity).
  split; split.
  - exact H1.
  - exact (proj1 (process_bill_images_prints terminal [good_entry; bad_entry]) H1).
  - exact H2.
  - split; [exact H3|].
    exact (proj2 (process_bill_images_prints strict_terminal
                    ([good_entry] ++ undecodable_entry :: [good_entry]))
                 [good_entry] undecodable_entry [good_entry] UnicodeEncodeError
                 eq_refl H2 H3).
Defined.

Lemma calculate_fingerprint_format_witness :
  calculate_fingerprint (str "abc") = Some (str "900150983cd24fb0d6963f7d28e17f72")
  /\ length (str "900150983cd24fb0d6963f7d28e17f72") = 32%nat
  /\ Forall (fun c => hex_char c = true) (str "900150983cd24fb0d6963f7d28e17f72").
Proof.
  assert (H : calculate_fingerprint (str "abc")
              = Some (str "900150983cd24fb0d6963f7d28e17f72"))
    by (vm_compute; reflexivity).
  split; [exact H|].
  exact (@calculate_fingerprint_format (str "abc")
           (str "900150983cd24fb0d6963f7d28e17f72") H).
Defined.

Lemma bill_record_raises_witness :
  ((exists c, In c [71; lone_surrogate] /\ unencodable c)
   /\ bill_record (str "torn.png") [71; lone_surrogate] = Raised UnicodeEncodeError)
  /\ (~ (exists c, In c (str "Gas") /\ unencodable c)
      /\ exists record,
          bill_record (str "may.png") (str "Gas") = Ok record
          /\ Filename record = str "may.png"
          /\ Type_ record = Some (extract_bill_type (str "Gas"))
          /\ Some (Fingerprint record) = calculate_fingerprint (str "Gas")).
Proof.
  assert (H1 : exists c, In c [71; lone_surrogate] /\ unencodable c).
  { exists lone_surrogate. split; [right; left; reflexivity|].
    left. unfold lone_surrogate. lia. }
  assert (H2 : ~ (exists c, In c (str "Gas") /\ unencodable c)).
  { intros [c [Hc Hu]]. vm_compute in Hc.
    destruct Hc as [<-|[<-|[<-|[]]]]; destruct Hu as [Hu|Hu]; lia. }
  split; split.
  - exact H1.
  - exact (proj1 (bill_record_raises (str "torn.png") [71; lone_surrogate]) H1).
  - exact H2.
  - exact (proj1 (proj2 (bill_record_raises (str "may.png") (str "Gas"))) H2).
Defined.

Lemma example_bill_latin1 : latin1 example_bill.
Proof. vm_compute. repeat constructor. Qed.

Lemma extract_meter_number_shape_witness :
  latin1 example_bill
  /\ extract_meter_number example_bill = Some (str "17K0160497")
  /\ str "17K0160497" <> []
  /\ Forall (fun c => is_alnum c = true) (str "17K0160497")
  /\ occurs_in (str "17K0160497") example_bill.
Proof.
  assert (H : extract_meter_number example_bill = Some (str "17K0160497"))
    by (vm_compute; reflexivity).
  split; [exact example_bill_latin1|]. split; [exact H|].
  exact (@extract_meter_number_shape example_bill (str "17K0160497")
           example_bill_latin1 H).
Defined.

Lemma extract_account_number_shape_witness :
  latin1 example_bill
  /\ extract_account_number example_bill = Some (str "1234-5678")
  /\ starts_alnum (str "1234-5678") = true
  /\ Forall (fun c => account_char c = true) (str "1234-5678")
  /\ occurs_in (str "1234-5678") example_bill.
Proof.
  assert (H : extract_account_number example_bill = Some (str "1234-5678"))
    by (vm_compute; reflexivity).
  split; [exact example_bill_latin1|]. split; [exact H|].
  exact (@extract_account_number_shape example_bill (str "1234-5678")
           example_bill_latin1 H).
Defined.

Lemma extract_date_shape_witness :
  latin1 example_bill
  /\ extract_date example_bill = Some (str "12 May 2025")
  /\ raw_date (str "12 May 2025")
  /\ occurs_in (str "12 May 2025") example_bill.
Proof.
  assert (H : extract_date example_bill = Some (str "12 May 2025"))
    by (vm_compute; reflexivity).
  split; [exact example_bill_latin1|]. split; [exact H|].
  exact (@extract_date_shape example_bill (str "12 May 2025")
           example_bill_latin1 H).
Defined.

Lemma extract_tariff_all_or_nothing_witness :
  latin1 example_bill
  /\ extract_tariff_and_billing_period example_bill
     = (Some (str "Cosy OCTOPUS"), Some (str "1st April 2025"),
        Some (str "30th April 2025"))
  /\ tariff_answer tariff_names example_bill
       (extract_tariff_and_billing_period example_bill)
  /\ (extract_tariff_and_billing_period example_bill = (None, None, None)
      <-> forall name, In name tariff_names ->
                       ~ matches_somewhere (tariff_pattern name) example_bill).
Proof.
  split; [exact example_bill_latin1|]. split; [vm_compute; reflexivity|].
  exact (@extract_tariff_all_or_nothing example_bill example_bill_latin1).
Defined.

Lemma extract_address_one_line_witness :
  extract_address example_bill = Some (str "1 High Street Leeds")
  /\ strip (str "1 High Street Leeds") = str "1 High Street Leeds"
  /\ Forall (fun c => is_space c = true -> c = 32) (str "1 High Street Leeds")
  /\ spaced_once (str "1 High Street Leeds").
Proof.
  assert (H : extract_address example_bill = Some (str "1 High Street Leeds"))
    by (vm_compute; reflexivity).
  split; [exact H|].
  exact (@extract_address_one_line example_bill (str "1 High Street Leeds") H).
Defined.
